(** * groq_parser: a shallow embedding of the resume pipeline

    The repository has three Python files:
    - [f_script_api_v2.py]: the multi-key completion client
      ([MultiGroqClient]) and the PDF batch driver ([ResumeProcessor]);
    - [sscript.py]: the reader of the per-document JSON files
      ([normalize_json_data], [process_resumes]);
    - [main_v2.py]: normalisation for storage and the SQLite insert
      ([normalize_data], [process_and_normalize_df], [insert_to_db]).

    Conventions of the embedding.
    - A Python [str] is a [string]; a character is a code point below 256
      and the character classes follow Python's tables on that range.
    - Mutable objects are threaded explicitly: a computation is a function
      from a state to an outcome and a state, and an exception keeps the
      mutations made before it was raised.
    - The completion service, [random.choice] and the file system are
      inputs: a computation takes an oracle, a function of the number of
      external interactions made so far (the state counts them), so
      quantifying over oracles covers every behaviour of the outside world.
    - Recursion that is not structural takes a fuel argument; [NoFuel] is an
      outcome of its own and the theorems show it is never produced. *)

From Stdlib Require Import String Ascii List ZArith Lia Bool Arith.
From Stdlib Require Import DecimalString.
From stdpp Require Import base decidable option list gmap sets strings.

Open Scope string_scope.
Open Scope list_scope.
Open Scope nat_scope.

Set Warnings "-register-all".


(** ** Python strings *)

Module PyStr.

Definition code (c : ascii) : nat := nat_of_ascii c.

Definition between (lo hi : nat) (c : ascii) : bool :=
  (lo <=? code c)%nat && (code c <=? hi)%nat.

(** [A-Z], [a-z], [0-9] of a regular expression character class. *)
Definition is_AZ : ascii -> bool := between 65 90.
Definition is_az : ascii -> bool := between 97 122.
Definition is_09 : ascii -> bool := between 48 57.

Definition is_char (x : ascii) (c : ascii) : bool := (code c =? code x)%nat.

(** [str.isspace] and the class [\s]: TAB..CR, FS..US, space, NEL, NBSP. *)
Definition isspace (c : ascii) : bool :=
  between 9 13 c || between 28 31 c || is_char " " c
  || (code c =? 133)%nat || (code c =? 160)%nat.

(** The class [\d]: decimal digits. *)
Definition isdecimal : ascii -> bool := is_09.

(** [str.isalnum] below 256: the ASCII letters and digits, the Latin-1
    letters, and the superscript digits and vulgar fractions. *)
Definition isalnum (c : ascii) : bool :=
  is_AZ c || is_az c || is_09 c
  || (code c =? 170)%nat || (code c =? 181)%nat || (code c =? 186)%nat
  || between 192 214 c || between 216 246 c || between 248 255 c
  || between 178 179 c || (code c =? 185)%nat || between 188 190 c.

(** The class [\w]. *)
Definition isword (c : ascii) : bool := isalnum c || is_char "_" c.

(** [str.lower] on one character: A-Z and the Latin-1 capitals. *)
Definition lower_char (c : ascii) : ascii :=
  if is_AZ c || between 192 214 c || between 216 222 c
  then ascii_of_nat (code c + 32) else c.

Fixpoint lower (s : string) : string :=
  match s with
  | EmptyString => EmptyString
  | String c s' => String (lower_char c) (lower s')
  end.

(** [str.replace(' ', '_')] and friends, one character for another. *)
Fixpoint replace_char (a b : ascii) (s : string) : string :=
  match s with
  | EmptyString => EmptyString
  | String c s' => String (if is_char a c then b else c) (replace_char a b s')
  end.

Fixpoint lstrip (s : string) : string :=
  match s with
  | String c s' => if isspace c then lstrip s' else s
  | EmptyString => EmptyString
  end.

(** Drops the trailing whitespace: a character is kept when something
    that is kept follows it or when it is not whitespace. *)
Fixpoint rstrip (s : string) : string :=
  match s with
  | EmptyString => EmptyString
  | String c s' =>
      match rstrip s' with
      | EmptyString => if isspace c then EmptyString else String c EmptyString
      | t => String c t
      end
  end.

(** [s.strip()] *)
Definition strip (s : string) : string := rstrip (lstrip s).

(** [s.startswith(p)] *)
Fixpoint startswith (p s : string) : bool :=
  match p, s with
  | EmptyString, _ => true
  | String a p', String b s' => (code a =? code b)%nat && startswith p' s'
  | String _ _, EmptyString => false
  end.

(** [p in s] for strings. *)
Fixpoint contains (p s : string) : bool :=
  startswith p s ||
  match s with
  | EmptyString => false
  | String _ s' => contains p s'
  end.

Fixpoint drop (n : nat) (s : string) : string :=
  match n, s with
  | O, _ => s
  | S n', String _ s' => drop n' s'
  | S _, EmptyString => EmptyString
  end.

Fixpoint take (n : nat) (s : string) : string :=
  match n, s with
  | O, _ => EmptyString
  | S n', String c s' => String c (take n' s')
  | S _, EmptyString => EmptyString
  end.

(** [s.endswith(p)] *)
Definition endswith (p s : string) : bool :=
  (String.length p <=? String.length s)%nat
  && String.eqb (drop (String.length s - String.length p) s) p.

(** [s[-n:]] *)
Definition last_chars (n : nat) (s : string) : string :=
  drop (String.length s - n) s.

(** [s.split(sep)] for a one-character separator: the current piece is
    accumulated in [cur]; there is always at least one piece. *)
Fixpoint split_on (sep : ascii) (cur : string) (s : string) : list string :=
  match s with
  | EmptyString => [cur]
  | String c s' =>
      if is_char sep c then cur :: split_on sep EmptyString s'
      else split_on sep (cur +:+ String c EmptyString) s'
  end.

Definition newline : ascii := ascii_of_nat 10.

Definition split (sep : ascii) (s : string) : list string :=
  split_on sep EmptyString s.

(** [sep.join(l)] *)
Fixpoint join (sep : string) (l : list string) : string :=
  match l with
  | [] => EmptyString
  | [x] => x
  | x :: l' => x +:+ sep +:+ join sep l'
  end.

(** [str(n)] for a natural number and for an integer. *)
Definition str_nat (n : nat) : string :=
  NilZero.string_of_uint (Nat.to_uint n).

Definition str_int (z : Z) : string :=
  match z with
  | Z0 => "0"
  | Zpos p => str_nat (Pos.to_nat p)
  | Zneg p => "-" +:+ str_nat (Pos.to_nat p)
  end.

End PyStr.

(** ** Python regular expressions

    A backtracking matcher for the fragment of [re] the repository uses:
    character classes, concatenation, alternation, greedy and lazy
    repetition, one capturing group, [^] and [$].  Alternatives are tried
    left to right and a greedy repetition tries one more iteration before
    it tries to stop, so the first success is the match [re] reports. *)

Module Re.
Import PyStr.

Inductive regex : Type :=
| Eps
| Class (p : ascii -> bool)
| Cat (r1 r2 : regex)
| Alt (r1 r2 : regex)
| Star (r : regex)            (* r*  *)
| LazyStar (r : regex)        (* r*? *)
| Group (r : regex)           (* ( r ), group 1 *)
| Bos                         (* ^ *)
| Eos.                        (* $ *)

(** Matcher state: the number of characters before the cursor, the rest
    of the subject, and the text of group 1 if it has been closed. *)
Record mstate : Type := MState {
  pos : nat;
  rest : string;
  group1 : option string
}.

Definition orelse {A} (x y : option A) : option A :=
  match x with Some _ => x | None => y end.

Fixpoint run {R} (r : regex) (k : mstate -> option R) (st : mstate)
  : option R :=
  match r with
  | Eps => k st
  | Class p =>
      match rest st with
      | String c s' =>
          if p c then k (MState (S (pos st)) s' (group1 st)) else None
      | EmptyString => None
      end
  | Cat r1 r2 => run r1 (run r2 k) st
  | Alt r1 r2 => orelse (run r1 k st) (run r2 k st)
  | Star r1 =>
      (fix loop (n : nat) (st : mstate) : option R :=
         match n with
         | O => k st
         | S n' =>
             orelse
               (run r1 (fun st' =>
                  if (String.length (rest st') <? String.length (rest st))%nat
                  then loop n' st' else None) st)
               (k st)
         end) (String.length (rest st)) st
  | LazyStar r1 =>
      (fix loop (n : nat) (st : mstate) : option R :=
         match n with
         | O => k st
         | S n' =>
             orelse
               (k st)
               (run r1 (fun st' =>
                  if (String.length (rest st') <? String.length (rest st))%nat
                  then loop n' st' else None) st)
         end) (String.length (rest st)) st
  | Group r1 =>
      run r1 (fun st' =>
        k (MState (pos st') (rest st')
             (Some (take (pos st' - pos st) (rest st))))) st
  | Bos => if (pos st =? 0)%nat then k st else None
  | Eos =>
      match rest st with
      | EmptyString => k st
      | String c EmptyString => if is_char newline c then k st else None
      | _ => None
      end
  end.

(** Derived forms. *)
Definition chr (c : ascii) : regex := Class (is_char c).

Fixpoint lit (s : string) : regex :=
  match s with
  | EmptyString => Eps
  | String c s' => Cat (chr c) (lit s')
  end.

Definition opt (r : regex) : regex := Alt r Eps.          (* r?  *)
Definition plus (r : regex) : regex := Cat r (Star r).     (* r+  *)

Fixpoint times (n : nat) (r : regex) : regex :=            (* r{n} *)
  match n with
  | O => Eps
  | S n' => Cat r (times n' r)
  end.

Fixpoint upto (n : nat) (r : regex) : regex :=             (* r{0,n} *)
  match n with
  | O => Eps
  | S n' => opt (Cat r (upto n' r))
  end.

Definition at_least (n : nat) (r : regex) : regex :=       (* r{n,} *)
  Cat (times n r) (Star r).

Definition range (m n : nat) (r : regex) : regex :=        (* r{m,n} *)
  Cat (times m r) (upto (n - m) r).

Fixpoint alts (l : list regex) : regex :=
  match l with
  | [] => Class (fun _ => false)
  | [r] => r
  | r :: l' => Alt r (alts l')
  end.

Definition any_char : regex := Class (fun _ => true).      (* . with DOTALL *)

(** A match object: where the match ends, its text and group 1. *)
Record match_object : Type := Match {
  m_start : nat;
  m_end : nat;
  group0 : string;
  group_1 : option string
}.

Definition match_at (r : regex) (s : string) (i : nat) : option match_object :=
  run r (fun st =>
           Some (Match i (pos st) (take (pos st - i) (drop i s)) (group1 st)))
      (MState i (drop i s) None).

(** [re.match(r, s)] *)
Definition re_match (r : regex) (s : string) : option match_object :=
  match_at r s 0.

(** [re.search(r, s)]: the first position at which the pattern matches. *)
Fixpoint search_from (r : regex) (s : string) (i : nat) (n : nat)
  : option match_object :=
  match match_at r s i with
  | Some m => Some m
  | None =>
      match n with
      | O => None
      | S n' => search_from r s (S i) n'
      end
  end.

Definition re_search (r : regex) (s : string) : option match_object :=
  search_from r s 0 (String.length s).

(** [re.findall(r, s)] for a pattern without groups: the texts of the
    successive non-overlapping matches; after an empty match the scan
    moves one character on. *)
Fixpoint findall_from (r : regex) (s : string) (i : nat) (fuel : nat)
  : list string :=
  match fuel with
  | O => []
  | S fuel' =>
      if (String.length s <? i)%nat then []
      else
        match match_at r s i with
        | Some m =>
            group0 m ::
            findall_from r s (if (m_end m =? i)%nat then S i else m_end m) fuel'
        | None => findall_from r s (S i) fuel'
        end
  end.

Definition re_findall (r : regex) (s : string) : list string :=
  findall_from r s 0 (S (String.length s)).

End Re.

(** ** Python values and [json.loads] *)

Module PyVal.
Import PyStr.

(** The values [json.loads] builds.  A float is identified with its
    [repr] (so [nan] is [PFloat "nan"]); a dict is the list of its items
    in insertion order, with distinct keys. *)
Inductive pyval : Type :=
| PNone
| PBool (b : bool)
| PInt (z : Z)
| PFloat (repr : string)
| PStr (s : string)
| PList (l : list pyval)
| PDict (items : list (string * pyval)).

Definition NaN : pyval := PFloat "nan".

(** *** dict operations on item lists *)

Fixpoint dict_get {V} (k : string) (d : list (string * V)) : option V :=
  match d with
  | [] => None
  | (k', v) :: d' => if String.eqb k k' then Some v else dict_get k d'
  end.

(** [d[k] = v]: an existing key keeps its place. *)
Fixpoint dict_set {V} (k : string) (v : V) (d : list (string * V))
  : list (string * V) :=
  match d with
  | [] => [(k, v)]
  | (k', v') :: d' =>
      if String.eqb k k' then (k, v) :: d' else (k', v') :: dict_set k v d'
  end.

Definition dict_has {V} (k : string) (d : list (string * V)) : bool :=
  match dict_get k d with Some _ => true | None => false end.

Definition dict_keys {V} (d : list (string * V)) : list string := map fst d.

(** [dict(pairs)] *)
Definition dict_of_pairs {V} (pairs : list (string * V)) : list (string * V) :=
  fold_left (fun d kv => dict_set (fst kv) (snd kv) d) pairs [].

(** *** [repr] and [str] *)

Definition dquote : ascii := ascii_of_nat 34.
Definition squote : ascii := ascii_of_nat 39.
Definition backslash : ascii := ascii_of_nat 92.

Definition has_char (c : ascii) (s : string) : bool :=
  contains (String c EmptyString) s.

(** [str.isprintable] on one character below 256. *)
Definition isprintable (c : ascii) : bool :=
  between 32 126 c || between 161 172 c || between 174 255 c.

Definition hex_digit (n : nat) : ascii :=
  if (n <? 10)%nat then ascii_of_nat (48 + n) else ascii_of_nat (87 + n).

Definition repr_char (q : ascii) (c : ascii) : string :=
  if is_char backslash c then String backslash (String backslash EmptyString)
  else if is_char q c then String backslash (String q EmptyString)
  else if (code c =? 9)%nat then String backslash "t"
  else if (code c =? 10)%nat then String backslash "n"
  else if (code c =? 13)%nat then String backslash "r"
  else if isprintable c then String c EmptyString
  else String backslash
         (String "x" (String (hex_digit (code c / 16))
                        (String (hex_digit (code c mod 16)) EmptyString))).

Fixpoint repr_chars (q : ascii) (s : string) : string :=
  match s with
  | EmptyString => EmptyString
  | String c s' => repr_char q c +:+ repr_chars q s'
  end.

(** [repr(s)] for a string: single quotes unless the text has a single
    quote and no double quote. *)
Definition repr_str (s : string) : string :=
  let q := if has_char squote s && negb (has_char dquote s)
           then dquote else squote in
  String q (repr_chars q s +:+ String q EmptyString).

Fixpoint py_repr (v : pyval) : string :=
  match v with
  | PNone => "None"
  | PBool true => "True"
  | PBool false => "False"
  | PInt z => str_int z
  | PFloat r => r
  | PStr s => repr_str s
  | PList l => "[" +:+ join ", " (map py_repr l) +:+ "]"
  | PDict items =>
      "{" +:+ join ", "
                (map (fun kv => repr_str (fst kv) +:+ ": " +:+ py_repr (snd kv))
                     items)
          +:+ "}"
  end.

(** [str(v)] *)
Definition py_str (v : pyval) : string :=
  match v with
  | PStr s => s
  | _ => py_repr v
  end.

(** Truthiness, as [if v:] tests it. *)
Definition truthy (v : pyval) : bool :=
  match v with
  | PNone => false
  | PBool b => b
  | PInt z => negb (z =? 0)%Z
  | PFloat r => negb (String.eqb r "0.0" || String.eqb r "-0.0")
  | PStr s => negb (String.eqb s EmptyString)
  | PList l => match l with [] => false | _ => true end
  | PDict d => match d with [] => false | _ => true end
  end.

End PyVal.

Module Json.
Import PyStr PyVal.

(** What a scanner step gives: a value and the text after it, a
    [JSONDecodeError], a [ValueError] that is not a [JSONDecodeError], a
    text the model does not follow, or no fuel left. *)
Inductive parsed (A : Type) : Type :=
| POk (a : A) (rest : string)
| PError (msg : string)
| PValueError (msg : string)
| POutside
| PNoFuel.
Arguments POk {A} a rest.
Arguments PError {A} msg.
Arguments PValueError {A} msg.
Arguments POutside {A}.
Arguments PNoFuel {A}.

(** The result of [json.loads] under CPython 3.11 with its default limits.
    - [JSONDecodeError]: the text is not JSON.
    - [LoadsValueError]: the text has an integer literal of more than
      4300 digits; [int] refuses it with a plain [ValueError], which
      [except json.JSONDecodeError] does not catch.
    - [OutsideModel]: the text has a [\u] escape above U+00FF, or nests
      more than [max_nesting] containers.  The decoder raises
      [RecursionError] when the nesting exceeds what the callers have left
      of the recursion limit (1000 by default, which the repository never
      changes); how much is left depends on the depth of the calling
      stack, which the model does not track.  The model follows the
      decoder up to [max_nesting] levels, which the default limit admits
      as long as the callers use fewer than 900 frames, and says nothing
      about deeper texts. *)
Inductive loaded : Type :=
| Loaded (v : pyval)
| JSONDecodeError (msg : string)
| LoadsValueError (msg : string)
| OutsideModel
| LoadsNoFuel.

Definition max_nesting : nat := 100.

(** [sys.get_int_max_str_digits()] *)
Definition int_max_str_digits : nat := 4300.

Definition int_limit_message (digits : nat) : string :=
  "Exceeds the limit (4300 digits) for integer string conversion: value has "
    +:+ str_nat digits
    +:+ " digits; use sys.set_int_max_str_digits() to increase the limit".

(** JSON whitespace: space, TAB, LF, CR. *)
Definition is_ws (c : ascii) : bool :=
  is_char " " c || (code c =? 9)%nat || (code c =? 10)%nat || (code c =? 13)%nat.

Fixpoint skip_ws (s : string) : string :=
  match s with
  | String c s' => if is_ws c then skip_ws s' else s
  | EmptyString => EmptyString
  end.

Definition hex_val (c : ascii) : option nat :=
  if is_09 c then Some (code c - 48)
  else if between 97 102 c then Some (code c - 87)
  else if between 65 70 c then Some (code c - 55)
  else None.

Definition snoc (s : string) (c : ascii) : string := s +:+ String c EmptyString.

(** The escapes of one character after a backslash. *)
Definition unescape (e : ascii) : option ascii :=
  if is_char dquote e then Some dquote
  else if is_char backslash e then Some backslash
  else if is_char "/" e then Some "/"%char
  else if is_char "b" e then Some (ascii_of_nat 8)
  else if is_char "f" e then Some (ascii_of_nat 12)
  else if is_char "n" e then Some (ascii_of_nat 10)
  else if is_char "r" e then Some (ascii_of_nat 13)
  else if is_char "t" e then Some (ascii_of_nat 9)
  else None.

(** The string scanner, strict mode, from just after the opening quote. *)
Fixpoint scanstring (s : string) (acc : string) : parsed string :=
  match s with
  | EmptyString => PError "Unterminated string starting at"
  | String c s1 =>
      if is_char dquote c then POk acc s1
      else if is_char backslash c then
        match s1 with
        | EmptyString => PError "Unterminated string starting at"
        | String e s2 =>
            if is_char "u" e then
              match s2 with
              | String h1 (String h2 (String h3 (String h4 s3))) =>
                  match hex_val h1, hex_val h2, hex_val h3, hex_val h4 with
                  | Some a, Some b, Some c', Some d =>
                      let n := ((a * 16 + b) * 16 + c') * 16 + d in
                      if (n <? 256)%nat then scanstring s3 (snoc acc (ascii_of_nat n))
                      else POutside
                  | _, _, _, _ => PError "Invalid \uXXXX escape"
                  end
              | _ => PError "Invalid \uXXXX escape"
              end
            else
              match unescape e with
              | Some x => scanstring s2 (snoc acc x)
              | None => PError "Invalid \escape"
              end
        end
      else if (code c <? 32)%nat then PError "Invalid control character at"
      else scanstring s1 (snoc acc c)
  end.

(** The longest prefix of decimal digits, and what follows it. *)
Fixpoint span_digits (s : string) : string * string :=
  match s with
  | String c s' =>
      if is_09 c then let '(d, r) := span_digits s' in (String c d, r)
      else (EmptyString, s)
  | EmptyString => (EmptyString, EmptyString)
  end.

Fixpoint int_of_digits (acc : Z) (s : string) : Z :=
  match s with
  | EmptyString => acc
  | String c s' => int_of_digits (acc * 10 + Z.of_nat (code c - 48))%Z s'
  end.

Section Numbers.

(** [repr(float(lit))] for a literal of the JSON number grammar that has a
    fraction or an exponent: the decimal-to-binary rounding of the
    interpreter is not modelled. *)
Variable py_float : string -> string.

(** The integer part of a number: an optional minus sign, then a single
    zero or a digit string that does not start with zero. *)
Definition integer_part (s : string) : option (string * string) :=
  let '(sign, s1) :=
    match s with
    | String c s' => if is_char "-" c then ("-", s') else (EmptyString, s)
    | EmptyString => (EmptyString, s)
    end in
  match s1 with
  | String c s2 =>
      if is_char "0" c then Some (sign +:+ "0", s2)
      else if is_09 c then
        let '(d, r) := span_digits s2 in Some (sign +:+ String c d, r)
      else None
  | EmptyString => None
  end.

(** The optional fraction: a dot and at least one digit. *)
Definition frac_part (s : string) : string * string :=
  match s with
  | String c s' =>
      if is_char "." c then
        match span_digits s' with
        | (EmptyString, _) => (EmptyString, s)
        | (d, r) => (String c d, r)
        end
      else (EmptyString, s)
  | EmptyString => (EmptyString, s)
  end.

(** The optional exponent: e or E, an optional sign, at least one digit. *)
Definition exp_part (s : string) : string * string :=
  match s with
  | String e s' =>
      if is_char "e" e || is_char "E" e then
        let '(sign, s1) :=
          match s' with
          | String c s2 =>
              if is_char "-" c || is_char "+" c
              then (String c EmptyString, s2) else (EmptyString, s')
          | EmptyString => (EmptyString, s')
          end in
        match span_digits s1 with
        | (EmptyString, _) => (EmptyString, s)
        | (d, r) => (String e (sign +:+ d), r)
        end
      else (EmptyString, s)
  | EmptyString => (EmptyString, s)
  end.

Definition int_of_literal (lit : string) : Z :=
  match lit with
  | String c d => if is_char "-" c then (- int_of_digits 0 d)%Z
                  else int_of_digits 0 lit
  | EmptyString => 0%Z
  end.

Definition match_number (s : string) : option (pyval * string) :=
  match integer_part s with
  | None => None
  | Some (i, r1) =>
      let '(f, r2) := frac_part r1 in
      let '(e, r3) := exp_part r2 in
      match f, e with
      | EmptyString, EmptyString => Some (PInt (int_of_literal i), r3)
      | _, _ => Some (PFloat (py_float (i +:+ f +:+ e)), r3)
      end
  end.

(** The number of digits of the literal at the start of [s] when it is
    an integer literal: it has neither a fraction nor an exponent. *)
Definition int_digits (s : string) : option nat :=
  match integer_part s with
  | None => None
  | Some (i, r1) =>
      let '(f, r2) := frac_part r1 in
      let '(e, _) := exp_part r2 in
      match f, e with
      | EmptyString, EmptyString =>
          Some (String.length i - (if startswith "-" i then 1 else 0))
      | _, _ => None
      end
  end.

Definition pbind {A B} (p : parsed A) (f : A -> string -> parsed B) : parsed B :=
  match p with
  | POk a rest => f a rest
  | PError m => PError m
  | PValueError m => PValueError m
  | POutside => POutside
  | PNoFuel => PNoFuel
  end.

(** The scanner: [scan_once] reads one value; [parse_array] and
    [parse_object] start after the opening bracket; the [_items] loops
    start at a value and at the quote of a key.  [depth] is the number of
    containers that are open. *)
Fixpoint scan_once (fuel : nat) (depth : nat) (s : string) : parsed pyval :=
  match fuel with
  | O => PNoFuel
  | S fuel' =>
      match s with
      | EmptyString => PError "Expecting value"
      | String c s' =>
          if is_char dquote c then
            pbind (scanstring s' EmptyString) (fun x r => POk (PStr x) r)
          else if is_char "{" c then
            if (max_nesting <=? depth)%nat then POutside
            else parse_object fuel' (S depth) s'
          else if is_char "[" c then
            if (max_nesting <=? depth)%nat then POutside
            else parse_array fuel' (S depth) s'
          else if startswith "null" s then POk PNone (drop 4 s)
          else if startswith "true" s then POk (PBool true) (drop 4 s)
          else if startswith "false" s then POk (PBool false) (drop 5 s)
          else
            match match_number s with
            | Some (v, r) =>
                match int_digits s with
                | Some digits =>
                    if (int_max_str_digits <? digits)%nat
                    then PValueError (int_limit_message digits)
                    else POk v r
                | None => POk v r
                end
            | None =>
                if startswith "NaN" s then POk NaN (drop 3 s)
                else if startswith "Infinity" s then POk (PFloat "inf") (drop 8 s)
                else if startswith "-Infinity" s then POk (PFloat "-inf") (drop 9 s)
                else PError "Expecting value"
            end
      end
  end
with parse_array (fuel : nat) (depth : nat) (s : string) : parsed pyval :=
  match fuel with
  | O => PNoFuel
  | S fuel' =>
      match skip_ws s with
      | String c s' =>
          if is_char "]" c then POk (PList []) s'
          else array_items fuel' depth (skip_ws s) []
      | EmptyString => array_items fuel' depth EmptyString []
      end
  end
with array_items (fuel : nat) (depth : nat) (s : string) (acc : list pyval)
  : parsed pyval :=
  match fuel with
  | O => PNoFuel
  | S fuel' =>
      pbind (scan_once fuel' depth s) (fun v r =>
        match skip_ws r with
        | String c r' =>
            if is_char "]" c then POk (PList (acc ++ [v])) r'
            else if is_char "," c
            then array_items fuel' depth (skip_ws r') (acc ++ [v])
            else PError "Expecting ',' delimiter"
        | EmptyString => PError "Expecting ',' delimiter"
        end)
  end
with parse_object (fuel : nat) (depth : nat) (s : string) : parsed pyval :=
  match fuel with
  | O => PNoFuel
  | S fuel' =>
      match skip_ws s with
      | String c s' =>
          if is_char "}" c then POk (PDict []) s'
          else object_items fuel' depth (skip_ws s) []
      | EmptyString => object_items fuel' depth EmptyString []
      end
  end
with object_items (fuel : nat) (depth : nat) (s : string)
    (acc : list (string * pyval)) : parsed pyval :=
  match fuel with
  | O => PNoFuel
  | S fuel' =>
      match s with
      | String q s1 =>
          if is_char dquote q then
            pbind (scanstring s1 EmptyString) (fun key r =>
              match skip_ws r with
              | String c r1 =>
                  if is_char ":" c then
                    pbind (scan_once fuel' depth (skip_ws r1)) (fun v r2 =>
                      match skip_ws r2 with
                      | String d r3 =>
                          if is_char "}" d
                          then POk (PDict (dict_of_pairs (acc ++ [(key, v)]))) r3
                          else if is_char "," d
                          then object_items fuel' depth (skip_ws r3)
                                 (acc ++ [(key, v)])
                          else PError "Expecting ',' delimiter"
                      | EmptyString => PError "Expecting ',' delimiter"
                      end)
                  else PError "Expecting ':' delimiter"
              | EmptyString => PError "Expecting ':' delimiter"
              end)
          else PError "Expecting property name enclosed in double quotes"
      | EmptyString => PError "Expecting property name enclosed in double quotes"
      end
  end.

(** [json.loads(s)]: leading whitespace, one value, trailing whitespace,
    end of text.  Opening a bracket costs three units of fuel (the value,
    the container, its first item) and one character, so three units per
    character are enough. *)
Definition json_loads (s : string) : loaded :=
  match scan_once (3 * String.length s + 3) 0 (skip_ws s) with
  | POk v r =>
      match skip_ws r with
      | EmptyString => Loaded v
      | _ => JSONDecodeError "Extra data"
      end
  | PError m => JSONDecodeError m
  | PValueError m => LoadsValueError m
  | POutside => OutsideModel
  | PNoFuel => LoadsNoFuel
  end.

End Numbers.

End Json.

(** ** Exceptions, state and the computation monad *)

Module Py.
Import PyStr PyVal.

(** The exception classes that occur.  [LibraryError] stands for any
    class a library raises (the groq SDK, pdfplumber, the file system):
    a subclass of [Exception] that is not [GroqAPIError]. *)
Inductive exn_class : Type :=
| LibraryError
| GroqAPIError
| ValueError
| IndexError
| AttributeError
| TypeError
| PlainException.

(** An exception: [str(e)] is [exn_msg]; [exn_cause] is [__cause__], set
    by [raise ... from e]; [exn_context] is [__context__], the exception
    that was being handled when this one was raised. *)
Inductive exn : Type :=
| Exn (cls : exn_class) (msg : string) (cause : option exn) (context : option exn).

Definition exn_cls (e : exn) : exn_class := let 'Exn c _ _ _ := e in c.
Definition exn_msg (e : exn) : string := let 'Exn _ m _ _ := e in m.
Definition exn_cause (e : exn) : option exn := let 'Exn _ _ c _ := e in c.
Definition exn_context (e : exn) : option exn := let 'Exn _ _ _ c := e in c.

Definition is_GroqAPIError (e : exn) : bool :=
  match exn_cls e with GroqAPIError => true | _ => false end.

Definition is_ValueError (e : exn) : bool :=
  match exn_cls e with ValueError => true | _ => false end.

(** What the completion service does with one request: it answers with a
    response whose [choices[0].message.content] is [content], or the SDK
    raises an exception whose text is [msg]. *)
Inductive reply : Type :=
| Completion (content : string)
| Failure (msg : string).

Record response : Type := Response { message_content : string }.

(** The outside world.  Every function is indexed by the number of
    external interactions made before the one it answers. *)
Record oracle : Type := Oracle {
  service : nat -> string -> reply;    (* tick, api key *)
  random : nat -> nat;                 (* the draw of random.choice *)
  fs_write : nat -> string -> option string; (* tick, path: the OSError text *)
  fs_temp : nat -> string -> option string   (* the same for the temporary folder *)
}.

(** What is printed, with the text it is printed as in [text_of]. *)
Inductive printed : Type :=
| ValidationFailed (key : string)
| Initialized (key : string)
| InvalidKeyDetected (key : string)
| CallFailed (msg : string) (retries max_retries : nat)
| Processing (file : string)
| Saved (output_filename : string)
| ErrorProcessing (file : string) (msg : string)
| ErrorParsingJSON (filename : string)
| ErrorProcessingFile (filename : string) (msg : string).

Definition text_of (p : printed) : string :=
  match p with
  | ValidationFailed key =>
      "API key validation failed for key ending in ..." +:+ last_chars 4 key
  | Initialized key =>
      "Successfully initialized client with key ending in ..."
        +:+ last_chars 4 key
  | InvalidKeyDetected key =>
      "Invalid API key detected (ending in ..." +:+ last_chars 4 key +:+ ")"
  | CallFailed msg retries max_retries =>
      "API call failed: " +:+ msg +:+ ". Attempt " +:+ str_nat retries
        +:+ " of " +:+ str_nat max_retries
  | Processing file => "Processing: " +:+ file
  | Saved output_filename => "Saved: " +:+ output_filename
  | ErrorProcessing file msg => "Error processing " +:+ file +:+ ": " +:+ msg
  | ErrorParsingJSON filename => "Error parsing JSON in file " +:+ filename
  | ErrorProcessingFile filename msg =>
      "Error processing file " +:+ filename +:+ ": " +:+ msg
  end.

(** What the program does to the outside, in order. *)
Inductive event : Type :=
| Probe (key : string) (r : reply)      (* the test call of _validate_api_key *)
| Attempt (key : string) (r : reply)    (* a call of create_chat_completion *)
| Sleep (seconds : nat)
| Print (p : printed).

(** The object [MultiGroqClient]; a Groq client is its [api_key]. *)
Record MultiGroqClient : Type := Client {
  api_keys : list string;
  current_client : option string;
  used_keys : gset string;
  invalid_keys : gset string
}.

Record state : Type := State {
  client : MultiGroqClient;
  clock : nat;
  trace : list event;
  exc_info : option exn;              (* the exception being handled *)
  files : list (string * pyval)       (* the output folder *)
}.

Inductive outcome (A : Type) : Type :=
| Ret (a : A)
| Raise (e : exn)
| Outside          (* a value left the modelled character range *)
| NoFuel.
Arguments Ret {A} a.
Arguments Raise {A} e.
Arguments Outside {A}.
Arguments NoFuel {A}.

Definition M (A : Type) : Type := state -> outcome A * state.

Definition ret {A} (a : A) : M A := fun s => (Ret a, s).

Definition bind {A B} (m : M A) (f : A -> M B) : M B :=
  fun s =>
    match m s with
    | (Ret a, s') => f a s'
    | (Raise e, s') => (Raise e, s')
    | (Outside, s') => (Outside, s')
    | (NoFuel, s') => (NoFuel, s')
    end.

(** The monad operations of stdpp give the notations [x ← m; k] and
    [m;; k]. *)
#[global] Instance M_ret : MRet M := @ret.
#[global] Instance M_bind : MBind M := fun A B f m => bind m f.

Definition get : M state := fun s => (Ret s, s).
Definition self : M MultiGroqClient := fun s => (Ret (client s), s).

Definition set_client (c : MultiGroqClient) : M unit :=
  fun s => (Ret tt, State c (clock s) (trace s) (exc_info s) (files s)).

Definition set_exc_info (e : option exn) (s : state) : state :=
  State (client s) (clock s) (trace s) e (files s).

Definition emit (ev : event) : M unit :=
  fun s => (Ret tt,
            State (client s) (clock s) (trace s ++ [ev]) (exc_info s) (files s)).

Definition print (p : printed) : M unit := emit (Print p).

(** One external interaction: read the clock and advance it. *)
Definition tick : M nat :=
  fun s => (Ret (clock s),
            State (client s) (S (clock s)) (trace s) (exc_info s) (files s)).

Definition write_file (path : string) (v : pyval) : M unit :=
  fun s => (Ret tt,
            State (client s) (clock s) (trace s) (exc_info s)
                  (dict_set path v (files s))).

(** [raise cls(msg)]: the context is the exception being handled. *)
Definition raise {A} (cls : exn_class) (msg : string) : M A :=
  fun s => (Raise (Exn cls msg None (exc_info s)), s).

(** [raise cls(msg) from e] *)
Definition raise_from {A} (cls : exn_class) (msg : string) (e : exn) : M A :=
  fun s => (Raise (Exn cls msg (Some e) (exc_info s)), s).

(** [raise e] for an exception object caught before. *)
Definition reraise {A} (e : exn) : M A := fun s => (Raise e, s).

Definition no_fuel {A} : M A := fun s => (NoFuel, s).
Definition outside {A} : M A := fun s => (Outside, s).

(** [try: body except <classes> as e: handler e].  The handler runs with
    [e] as the exception being handled; the previous one is restored when
    the handler is left, normally or not. *)
Definition try_except {A} (body : M A) (catches : exn -> bool)
    (handler : exn -> M A) : M A :=
  fun s =>
    match body s with
    | (Raise e, s1) =>
        if catches e then
          let '(o, s2) := handler e (set_exc_info (Some e) s1) in
          (o, set_exc_info (exc_info s1) s2)
        else (Raise e, s1)
    | r => r
    end.

Definition any_Exception (e : exn) : bool := true.

(** The state before anything has run. *)
Definition initial_state : state :=
  State (Client [] None ∅ ∅) 0 [] None [].

End Py.

(** ** f_script_api_v2.py *)

Module f_script_api_v2.
Import PyStr Re PyVal Json Py.

(** *** class MultiGroqClient *)

(** The pattern of a key: gsk_ and at least 32 letters or digits, from
    the start of the text to its end. *)
Definition key_pattern : regex :=
  Cat Bos
    (Cat (lit "gsk_")
       (Cat (at_least 32 (Class (fun c => is_AZ c || is_az c || is_09 c))) Eos)).

Definition _is_valid_key_format (key : string) : bool :=
  if String.eqb key EmptyString then false
  else
    let key := strip key in
    match re_match key_pattern key with Some _ => true | None => false end.

(** The test of both [_validate_api_key] and [create_chat_completion] on
    the text of an error (the second lowers the text before both tests,
    which changes nothing for the digits). *)
Definition auth_rejected (msg : string) : bool :=
  contains "invalid_api_key" (lower msg) || contains "401" msg.

Section WithOracle.

Variable W : oracle.

(** [Groq(api_key=key).chat.completions.create(...)]: one request to the
    service.  The request itself is not an argument: the oracle is
    indexed by the tick, which determines it. *)
Definition chat_completions_create (key : string)
    (ev : string -> reply -> event) : M response :=
  t ← tick;
  let r := service W t key in
  emit (ev key r);;
  match r with
  | Completion c => ret (Response c)
  | Failure msg => raise LibraryError msg
  end.

Definition _validate_api_key (key : string) : M bool :=
  try_except
    (chat_completions_create key Probe;; ret true)
    any_Exception
    (fun e =>
       if contains "invalid_api_key" (lower (exn_msg e))
          || contains "401" (exn_msg e)
       then ret false
       else ret true).

(** [random.choice(seq)] *)
Definition random_choice (seq : list string) : M string :=
  match seq with
  | [] => raise IndexError "Cannot choose from an empty sequence"
  | x :: _ =>
      t ← tick;
      ret (nth (random W t mod length seq) seq x)
  end.

Definition used_keys_clear : M unit :=
  c ← self;
  set_client (Client (api_keys c) (current_client c) ∅ (invalid_keys c)).

Definition used_keys_add (key : string) : M unit :=
  c ← self;
  set_client (Client (api_keys c) (current_client c)
                ({[key]} ∪ used_keys c) (invalid_keys c)).

Definition invalid_keys_add (key : string) : M unit :=
  c ← self;
  set_client (Client (api_keys c) (current_client c)
                (used_keys c) ({[key]} ∪ invalid_keys c)).

Definition set_current_client (key : string) : M unit :=
  c ← self;
  set_client (Client (api_keys c) (Some key) (used_keys c) (invalid_keys c)).

(** [_initialize_client], with the depth of the recursion as fuel. *)
Fixpoint _initialize_client_rec (fuel : nat) : M string :=
  match fuel with
  | O => no_fuel
  | S fuel' =>
      c ← self;
      let available_keys :=
        filter (fun key => (key ∉ used_keys c) ∧ (key ∉ invalid_keys c))
               (api_keys c) in
      available_keys ←
        match available_keys with
        | [] =>
            if (size (invalid_keys c) =? length (api_keys c))%nat
            then raise GroqAPIError "All API keys are invalid"
            else
              used_keys_clear;;
              c ← self;
              ret (filter (fun key => key ∉ invalid_keys c) (api_keys c))
        | _ => ret available_keys
        end;
      selected_key ← random_choice available_keys;
      valid ← _validate_api_key selected_key;
      if negb valid then
        print (ValidationFailed selected_key);;
        invalid_keys_add selected_key;;
        _initialize_client_rec fuel'
      else
        set_current_client selected_key;;
        used_keys_add selected_key;;
        print (Initialized selected_key);;
        ret selected_key
  end.

(** Every recursive call follows the addition of a key of the pool to
    [invalid_keys], so the depth is at most the size of the pool. *)
Definition _initialize_client : M string :=
  c ← self;
  _initialize_client_rec (S (length (api_keys c))).

Definition MultiGroqClient__init__ (keys : list string) : M unit :=
  match keys with
  | [] => raise ValueError "No API keys provided"
  | _ =>
      match map strip (List.filter _is_valid_key_format keys) with
      | [] => raise ValueError "No valid API keys found"
      | pool =>
          set_client (Client pool None ∅ ∅);;
          _initialize_client;;
          ret tt
      end
  end.

(** [self.current_client.chat.completions.create(...)] *)
Definition current_client_create : M response :=
  c ← self;
  match current_client c with
  | None => raise AttributeError "'NoneType' object has no attribute 'chat'"
  | Some key => chat_completions_create key Attempt
  end.

(** [self.current_client.api_key] *)
Definition current_client_api_key : M string :=
  c ← self;
  match current_client c with
  | None => raise AttributeError "'NoneType' object has no attribute 'api_key'"
  | Some key => ret key
  end.

(** The [while] loop of [create_chat_completion], one iteration per unit
    of fuel.  The body of the [except] clause yields the new value of
    [retries]; the next iteration starts after the clause is left.  A
    loop that ends without [return] makes the function return [None]. *)
Fixpoint completion_loop (fuel : nat) (max_retries retries : nat)
  : M (option response) :=
  match fuel with
  | O => no_fuel
  | S fuel' =>
      if (retries <? max_retries)%nat then
        r ← try_except
               (resp ← current_client_create; ret (inl resp))
               any_Exception
               (fun e =>
                  let error_str := lower (exn_msg e) in
                  let retries := retries + 1 in
                  (if contains "invalid_api_key" error_str
                      || contains "401" error_str
                   then
                     current_key ← current_client_api_key;
                     invalid_keys_add current_key;;
                     print (InvalidKeyDetected current_key)
                   else ret tt);;
                  if (retries <? max_retries)%nat then
                    print (CallFailed (exn_msg e) retries max_retries);;
                    try_except
                      (_initialize_client;; emit (Sleep 1))
                      is_GroqAPIError
                      (fun ge => reraise ge);;
                    ret (inr retries)
                  else
                    raise_from GroqAPIError
                      "All API keys failed or are invalid" e);
        match r with
        | inl resp => ret (Some resp)
        | inr retries' => completion_loop fuel' max_retries retries'
        end
      else ret None
  end.

Definition create_chat_completion : M (option response) :=
  c ← self;
  let max_retries := length (api_keys c) in
  completion_loop (S max_retries) max_retries 0.


End WithOracle.

(** *** class ResumeProcessor *)

(** A PDF as pdfplumber shows it: it cannot be opened, or it is a list of
    pages, each of which gives its text ([None] for a page without text)
    or fails to. *)
Inductive page : Type :=
| PageText (text : option string)
| PageError (msg : string).

Inductive pdf : Type :=
| Unreadable (msg : string)
| Pages (pages : list page).

Record section : Type := Section_ {
  heading : string;
  content : list string
}.

Record contact : Type := Contact {
  emails : list string;
  phones : list string;
  links : list string;
  location : list string
}.

Record ExtractedDocument : Type := Extracted {
  raw_text : string;
  contact_info : contact;
  sections : list section
}.

Definition upper_space_amp_hyphen (c : ascii) : bool :=
  is_AZ c || isspace c || is_char "&" c || is_char "-" c.

Definition letter_or_space (c : ascii) : bool :=
  is_AZ c || is_az c || isspace c.

(** The four patterns of [_is_likely_header], each matched at the start of
    the line. *)
Definition header_patterns : list regex :=
  [ Cat Bos (Cat (plus (Class upper_space_amp_hyphen)) Eos);
    Cat Bos
      (alts (map lit
         ["EDUCATION"; "EXPERIENCE"; "SKILLS"; "PROJECTS"; "SUMMARY"; "WORK";
          "CONTACT"; "ACHIEVEMENTS"; "CERTIFICATIONS"; "LANGUAGES"]));
    Cat Bos (Cat (Class is_AZ) (Cat (plus (Class letter_or_space)) (chr ":")));
    Cat Bos (Cat (Class is_AZ) (Cat (range 2 30 (Class letter_or_space)) Eos)) ].

Definition _is_likely_header (line : string) : bool :=
  existsb (fun pattern =>
             match re_match pattern (strip line) with
             | Some _ => true
             | None => false
             end)
          header_patterns.

Definition word_dot_hyphen (c : ascii) : bool :=
  isword c || is_char "." c || is_char "-" c.

Definition email_pattern : regex :=
  Cat (plus (Class word_dot_hyphen))
    (Cat (chr "@")
       (Cat (plus (Class word_dot_hyphen))
          (Cat (chr ".") (plus (Class isword))))).

Definition phone_pattern : regex :=
  Cat (opt (chr "+"))
    (at_least 10 (Class (fun c => isdecimal c || isspace c || is_char "-" c))).

Definition link_pattern : regex :=
  Cat (opt (Cat (lit "http") (Cat (opt (chr "s")) (lit "://"))))
    (Cat (opt (lit "www."))
       (Cat (plus (Class word_dot_hyphen))
          (Cat (chr ".")
             (Cat (plus (Class isword))
                (Cat (chr "/") (plus (Class word_dot_hyphen))))))).

Definition location_pattern : regex :=
  let word_or_space := Class (fun c => isword c || isspace c) in
  Cat (plus word_or_space)
    (Cat (chr ",") (Cat (Star (Class isspace)) (plus word_or_space))).

Definition _extract_contact_info (text : string) : contact :=
  let first_lines := firstn 10 (split newline text) in
  fold_left
    (fun info line =>
       Contact
         (emails info ++ re_findall email_pattern line)%list
         (phones info ++ map strip (re_findall phone_pattern line))%list
         (links info ++ re_findall link_pattern line)%list
         (location info ++ map strip (re_findall location_pattern line))%list)
    first_lines (Contact [] [] [] []).

(** The local variables of the loops of [extract_from_pdf]. *)
Record extraction : Type := Extraction_ {
  full_text : string;
  done_sections : list section;
  current_section : section
}.

(** The body of [for line in lines].  The copy that is appended when a
    header is met shares its content list with [current_section], which
    is bound to a new dict with a new list in the next statement, so no
    appended section changes afterwards. *)
Definition extract_line (st : extraction) (line : string) : extraction :=
  let clean_line := strip line in
  if String.eqb clean_line EmptyString then st
  else
    let st' :=
      if _is_likely_header clean_line then
        let sections :=
          if negb (String.eqb (heading (current_section st)) EmptyString)
             || negb (match content (current_section st) with
                      | [] => true | _ => false end)
          then (done_sections st ++ [current_section st])%list
          else done_sections st in
        Extraction_ (full_text st) sections (Section_ clean_line [])
      else
        Extraction_ (full_text st) (done_sections st)
          (Section_ (heading (current_section st))
                    (content (current_section st) ++ [clean_line])%list) in
    Extraction_ (full_text st' +:+ clean_line +:+ String newline EmptyString)
                (done_sections st') (current_section st').

(** The body of [for page in pdf.pages]; a page that fails leaves the
    loop with the text of its error. *)
Fixpoint extract_pages (pages : list page) (st : extraction)
  : extraction + string :=
  match pages with
  | [] => inl st
  | PageError msg :: _ => inr msg
  | PageText text :: pages' =>
      match text with
      | Some t =>
          if String.eqb t EmptyString then extract_pages pages' st
          else extract_pages pages' (fold_left extract_line (split newline t) st)
      | None => extract_pages pages' st
      end
  end.

Definition extract_from_pdf (doc : pdf) : M ExtractedDocument :=
  try_except
    (match doc with
     | Unreadable msg => raise LibraryError msg
     | Pages pages =>
         match extract_pages pages
                 (Extraction_ EmptyString [] (Section_ EmptyString [])) with
         | inr msg => raise LibraryError msg
         | inl st =>
             let cur := current_section st in
             let sections :=
               if negb (String.eqb (heading cur) EmptyString)
                  || negb (match content cur with [] => true | _ => false end)
               then (done_sections st ++ [cur])%list
               else done_sections st in
             let contact_info := _extract_contact_info (full_text st) in
             ret (Extracted (strip (full_text st)) contact_info sections)
         end
     end)
    any_Exception
    (fun e => raise PlainException ("Error extracting text: " +:+ exn_msg e)).

Section WithRuntime.

Variable W : oracle.
Variable py_float : string -> string.

(** [process_with_llm].  The prompt is built from [resume_data] and sent
    with the request; the oracle does not read the request, so the model
    starts at the call. *)
Definition process_with_llm (resume_data : ExtractedDocument) : M pyval :=
  try_except
    (response ← create_chat_completion W;
     match response with
     | None => raise AttributeError "'NoneType' object has no attribute 'choices'"
     | Some response =>
         match json_loads py_float (message_content response) with
         | Loaded llm_output => ret llm_output
         | JSONDecodeError _ =>
             ret (PDict [("raw_llm_output", PStr (message_content response))])
         | LoadsValueError msg => raise ValueError msg
         | OutsideModel => outside
         | LoadsNoFuel => no_fuel
         end
     end)
    is_GroqAPIError
    (fun e => ret (PDict [("error",
                           PStr ("LLM processing failed: " +:+ exn_msg e))])).

(** [os.path.splitext(file)[0]]: the name up to its last dot, when that
    dot is in the last component and something other than a dot comes
    before it there. *)
Fixpoint rfind (c : ascii) (s : string) (i : nat) (found : option nat)
  : option nat :=
  match s with
  | EmptyString => found
  | String x s' => rfind c s' (S i) (if is_char c x then Some i else found)
  end.

Fixpoint all_dots (s : string) : bool :=
  match s with
  | EmptyString => true
  | String x s' => is_char "." x && all_dots s'
  end.

Definition splitext_root (p : string) : string :=
  let first := match rfind "/" p 0 None with Some i => S i | None => 0 end in
  match rfind "." p 0 None with
  | Some dot =>
      if (first <=? dot)%nat && negb (all_dots (take (dot - first) (drop first p)))
      then take dot p else p
  | None => p
  end.

(** [with open(output_path, 'w') as f: json.dump(...)]: the file system
    accepts the file or raises. *)
Definition save_json (output_path : string) (v : pyval) : M unit :=
  t ← tick;
  match fs_write W t output_path with
  | Some msg => raise LibraryError msg
  | None => write_file output_path v
  end.

(** [os.path.join(a, b)] on POSIX *)
Definition os_path_join (a b : string) : string :=
  if startswith "/" b then b
  else if String.eqb a EmptyString || endswith "/" a then a +:+ b
  else a +:+ "/" +:+ b.

Definition temp_folder : string := "temp_pdfs".

(** An operation on the temporary folder ([os.makedirs], [zip_ref.extract],
    [os.remove], [os.rmdir]): the file system carries it out or raises.
    None of the four is inside a [try] block. *)
Definition temp_op (path : string) : M unit :=
  t ← tick;
  match fs_temp W t path with
  | Some msg => raise LibraryError msg
  | None => ret tt
  end.

(** The body of the loop of [process_all_resumes] for one member of the
    archive: [doc] is what pdfplumber finds at [pdf_path]. *)
Definition process_one (output_folder : string) (file : string) (doc : pdf)
  : M unit :=
  if endswith ".pdf" (lower file) then
    temp_op file;;                           (* zip_ref.extract(file, temp_folder) *)
    let pdf_path := os_path_join temp_folder file in
    print (Processing file);;
    try_except
      (resume_data ← extract_from_pdf doc;
       llm_processed_data ← process_with_llm resume_data;
       let output_filename := splitext_root file +:+ ".json" in
       let output_path := os_path_join output_folder output_filename in
       save_json output_path llm_processed_data;;
       print (Saved output_filename))
      any_Exception
      (fun e => print (ErrorProcessing file (exn_msg e)));;
    temp_op pdf_path                         (* os.remove(pdf_path) *)
  else ret tt.

(** The loop [for file in zip_ref.namelist()] *)
Fixpoint process_members (output_folder : string)
    (archive : list (string * pdf)) : M unit :=
  match archive with
  | [] => ret tt
  | (file, doc) :: archive' =>
      process_one output_folder file doc;;
      process_members output_folder archive'
  end.

(** [process_all_resumes], once the archive is open: [archive] is the list
    of its members. *)
Definition process_all_resumes (output_folder : string)
    (archive : list (string * pdf)) : M unit :=
  temp_op temp_folder;;                      (* os.makedirs(temp_folder, exist_ok=True) *)
  process_members output_folder archive;;
  temp_op temp_folder.                       (* os.rmdir(temp_folder) *)

(** [ResumeProcessor(zip_path, output_folder, groq_api_keys)] *)
Definition ResumeProcessor__init__ (groq_api_keys : list string) : M unit :=
  try_except
    (MultiGroqClient__init__ W groq_api_keys)
    is_ValueError
    (fun e => raise ValueError
                ("Failed to initialize MultiGroqClient: " +:+ exn_msg e)).

End WithRuntime.

End f_script_api_v2.

(** ** pandas: the part of DataFrame the repository uses

    A frame is its column labels and its rows; a row gives a cell to every
    column.  A cell is a Python value and a missing cell is [NaN]. *)

Module Pandas.
Import PyStr PyVal.

Record DataFrame : Type := Frame {
  columns : list string;
  rows : list (list (string * pyval))
}.

Definition cell (col : string) (row : list (string * pyval)) : pyval :=
  match dict_get col row with Some v => v | None => NaN end.

Definition mem (col : string) (cols : list string) : bool :=
  existsb (String.eqb col) cols.

(** The labels of [l2] that are not yet in [l1], appended in order. *)
Definition union_labels (l1 l2 : list string) : list string :=
  fold_left (fun acc c => if mem c acc then acc else (acc ++ [c])%list) l2 l1.

Definition reindex (cols : list string) (row : list (string * pyval))
  : list (string * pyval) :=
  map (fun c => (c, cell c row)) cols.

(** [pd.DataFrame(records)] for a list of dicts: the columns are the keys
    in order of first appearance. *)
Definition of_records (records : list (list (string * pyval))) : DataFrame :=
  let cols := fold_left (fun acc r => union_labels acc (dict_keys r)) records [] in
  Frame cols (map (reindex cols) records).

(** [pd.concat(frames, ignore_index=True)] *)
Definition concat (frames : list DataFrame) : DataFrame :=
  let cols := fold_left (fun acc f => union_labels acc (columns f)) frames [] in
  Frame cols (flat_map (fun f => map (reindex cols) (rows f)) frames).

(** [df[col] = v] for a scalar [v] *)
Definition set_column (col : string) (v : pyval) (df : DataFrame) : DataFrame :=
  Frame (if mem col (columns df) then columns df else (columns df ++ [col])%list)
        (map (dict_set col v) (rows df)).

(** [df[col] = df[col].apply(f)] and the like *)
Definition map_column (col : string) (f : pyval -> pyval) (df : DataFrame)
  : DataFrame :=
  Frame (columns df) (map (fun r => dict_set col (f (cell col r)) r) (rows df)).

(** [df[cols]] when every label of [cols] is a column *)
Definition select (cols : list string) (df : DataFrame) : DataFrame :=
  Frame cols (map (reindex cols) (rows df)).

(** [df.columns = [f(col) for col in df.columns]] *)
Definition rename (f : string -> string) (df : DataFrame) : DataFrame :=
  Frame (map f (columns df))
        (map (map (fun kv => (f (fst kv), snd kv))) (rows df)).

(** [series.astype(str)] on one cell *)
Definition astype_str (v : pyval) : pyval := PStr (py_str v).

(** [series.replace(a, b)] on one cell: a cell equal to the text [a]. *)
Definition replace_value (a b : string) (v : pyval) : pyval :=
  match v with
  | PStr s => if String.eqb s a then PStr b else v
  | _ => v
  end.

(** [pd.isna(v)] for a scalar *)
Definition isna (v : pyval) : bool :=
  match v with
  | PNone => true
  | PFloat r => String.eqb r "nan"
  | _ => false
  end.

End Pandas.

(** The twelve columns, as both [sscript.py] and [main_v2.py] list them. *)
Definition required_columns : list string :=
  [ "Name"; "Emails"; "Mobile"; "Present Salary"; "Expected Salary";
    "Date of Birth"; "Permanent Address"; "Company with Duration";
    "Job Title with Duration"; "Institution"; "Graduation";
    "Total Years of experience" ].

(** ** sscript.py *)

Module sscript.
Import PyStr Re PyVal Json Py Pandas.

(** The value stored for one item of a record. *)
Definition normalize_value (value : pyval) : string :=
  match value with
  | PList l => join ", " (map py_str l)
  | PNone => EmptyString
  | _ => py_str value
  end.

(** The inner loop: [normalized_record[key] = ...] for every item. *)
Definition normalize_items (items : list (string * pyval))
  : list (string * pyval) :=
  fold_left
    (fun normalized_record kv =>
       dict_set (fst kv) (PStr (normalize_value (snd kv))) normalized_record)
    items [].

(** [record.items()] exists for a dict only. *)
Definition normalize_record (record : pyval) : M (list (string * pyval)) :=
  match record with
  | PDict items => ret (normalize_items items)
  | _ => raise AttributeError "object has no attribute 'items'"
  end.

Fixpoint normalize_records (data : list pyval)
  : M (list (list (string * pyval))) :=
  match data with
  | [] => ret []
  | record :: data' =>
      r ← normalize_record record;
      rs ← normalize_records data';
      ret (r :: rs)
  end.

Definition normalize_json_data (data : pyval)
  : M (list (list (string * pyval))) :=
  match data with
  | PList l => normalize_records l
  | _ => ret []
  end.

(** Three backticks, an optional json, whitespace, group 1 as short as
    possible, whitespace, three backticks; the dot matches newlines. *)
Definition fence_pattern : regex :=
  Cat (lit "```")
    (Cat (opt (lit "json"))
       (Cat (Star (Class isspace))
          (Cat (Group (LazyStar any_char))
             (Cat (Star (Class isspace)) (lit "```"))))).

(** Group 1 is a bracketed or a braced text, as long as possible. *)
Definition bracket_pattern : regex :=
  Group (Alt (Cat (chr "[") (Cat (Star any_char) (chr "]")))
             (Cat (chr "{") (Cat (Star any_char) (chr "}")))).

(** [x in content] for the text ["raw_llm_output"] *)
Definition contains_raw_llm_output (content : pyval) : M bool :=
  match content with
  | PDict d => ret (dict_has "raw_llm_output" d)
  | PList l =>
      ret (existsb (fun v => match v with
                             | PStr s => String.eqb s "raw_llm_output"
                             | _ => false
                             end) l)
  | PStr s => ret (contains "raw_llm_output" s)
  | _ => raise TypeError "argument is not iterable"
  end.

Definition is_list (v : pyval) : bool :=
  match v with PList _ => true | _ => false end.

Section WithRuntime.

Variable py_float : string -> string.

(** The body of the loop of [process_resumes] for one file whose name
    ends in .json and whose content has been loaded; it returns the
    frames to append to [all_data]. *)
Definition process_content (filename : string) (content : pyval)
  : M (list DataFrame) :=
  has_raw ← contains_raw_llm_output content;
  if (has_raw : bool) then
    raw_output ←
      match content with
      | PDict d =>
          match dict_get "raw_llm_output" d with
          | Some v => ret v
          | None => raise TypeError "unreachable"
          end
      | _ => raise TypeError "indices must be integers"
      end;
    raw_output ←
      match raw_output with
      | PStr s => ret s
      | _ => raise TypeError "expected string or bytes-like object"
      end;
    let json_str :=
      match re_search fence_pattern raw_output with
      | Some extracted => group_1 extracted
      | None =>
          match re_search bracket_pattern raw_output with
          | Some extracted => group_1 extracted
          | None => None
          end
      end in
    match json_str with
    | Some json_str =>
        if String.eqb json_str EmptyString then ret []
        else
          match json_loads py_float json_str with
          | Loaded data =>
              normalized_data ←
                normalize_json_data (if is_list data then data else PList [data]);
              match normalized_data with
              | [] => ret []
              | _ => ret [of_records normalized_data]
              end
          | JSONDecodeError _ => print (ErrorParsingJSON filename);; ret []
          | LoadsValueError msg => raise ValueError msg
          | OutsideModel => outside
          | LoadsNoFuel => no_fuel
          end
    | None => ret []
    end
  else
    normalized_data ←
      normalize_json_data (if negb (is_list content) then PList [content]
                           else content);
    match normalized_data with
    | [] => ret []
    | _ => ret [of_records normalized_data]
    end.

(** [for filename in os.listdir(json_folder)]: the folder is the list of
    its files, each with the value [json.load] reads from it. *)
Fixpoint load_all (folder : list (string * pyval)) : M (list DataFrame) :=
  match folder with
  | [] => ret []
  | (filename, content) :: folder' =>
      frames ←
        (if endswith ".json" filename then
           try_except
             (process_content filename content)
             any_Exception
             (fun e => print (ErrorProcessingFile filename (exn_msg e));; ret [])
         else ret []);
      more ← load_all folder';
      ret (frames ++ more)%list
  end.

Definition final_normalization (v : pyval) : pyval :=
  replace_value "None" EmptyString
    (replace_value "nan" EmptyString (astype_str v)).

Definition process_resumes (json_folder : list (string * pyval)) : M DataFrame :=
  all_data ← load_all json_folder;
  match all_data with
  | [] => ret (Frame required_columns [])
  | _ =>
      let final_df := concat all_data in
      let final_df :=
        fold_left
          (fun df col =>
             if mem col (columns df) then df
             else set_column col (PStr EmptyString) df)
          required_columns final_df in
      let final_df := select required_columns final_df in
      let final_df :=
        fold_left (fun df col => map_column col final_normalization df)
                  (columns final_df) final_df in
      ret final_df
  end.

End WithRuntime.

End sscript.

(** ** main_v2.py *)

Module main_v2.
Import PyStr PyVal Pandas.

Definition normalize_data (value : pyval) : string :=
  match value with
  | PList l => join ", " (map py_str l)
  | _ => if isna value then EmptyString else py_str value
  end.

Definition process_and_normalize_df (df : DataFrame) : DataFrame :=
  let df :=
    fold_left
      (fun df column => map_column column (fun v => PStr (normalize_data v)) df)
      (columns df) df in
  let df :=
    fold_left
      (fun df col =>
         if mem col (columns df) then df
         else set_column col (PStr EmptyString) df)
      required_columns df in
  select required_columns df.

(** A row of the table [resumes] of [init_db]. *)
Record resume : Type := Resume {
  id : Z;
  name : string;
  emails : string;                    (* TEXT UNIQUE *)
  mobile : string;                    (* TEXT UNIQUE *)
  present_salary : string;
  expected_salary : string;
  date_of_birth : string;
  permanent_address : string;
  company_with_duration : string;
  job_title_with_duration : string;
  institution : string;
  graduation : string;
  total_years_of_experience : string;
  created_at : string
}.

(** The database file: the table and the counter of AUTOINCREMENT. *)
Record database : Type := Database {
  resumes : list resume;
  sqlite_sequence : Z
}.

(** [CREATE TABLE IF NOT EXISTS resumes (...)] *)
Definition init_db (db : option database) : database :=
  match db with
  | Some d => d
  | None => Database [] 0
  end.

(** The text bound to a parameter of the statement; the cells are [str]
    objects after [process_and_normalize_df]. *)
Definition text (row : list (string * pyval)) (col : string) : string :=
  py_str (cell col row).

(** Whether a stored row has the same [emails] or the same [mobile]. *)
Definition unique_violation (db : database) (e m : string) : bool :=
  existsb (fun r => String.eqb (emails r) e || String.eqb (mobile r) m)
          (resumes db).

(** [cursor.execute(insert_sql, values)]: [None] is [IntegrityError]. *)
Definition execute_insert (row : list (string * pyval)) (current_time : string)
    (db : database) : option database :=
  if unique_violation db (text row "emails") (text row "mobile") then None
  else
    let new_id := (sqlite_sequence db + 1)%Z in
    Some (Database
            (resumes db ++
             [Resume new_id
                (text row "name") (text row "emails") (text row "mobile")
                (text row "present_salary") (text row "expected_salary")
                (text row "date_of_birth") (text row "permanent_address")
                (text row "company_with_duration")
                (text row "job_title_with_duration")
                (text row "institution") (text row "graduation")
                (text row "total_years_of_experience") current_time])%list
            new_id).

(** The loop [for _, row in df.iterrows()] *)
Definition insert_rows (current_time : string)
    (rows : list (list (string * pyval))) (db : database) : nat * database :=
  fold_left
    (fun acc row =>
       match execute_insert row current_time (snd acc) with
       | Some db' => (fst acc + 1, db')
       | None => acc
       end)
    rows (0, db).

Definition insert_to_db (current_time : string) (df : DataFrame)
    (db : database) : (nat * nat) * database :=
  let df := process_and_normalize_df df in
  let df := rename (fun col => replace_char " " "_" (lower col)) df in
  let total_records := length (rows df) in
  let '(inserted_records, db') := insert_rows current_time (rows df) db in
  ((inserted_records, total_records), db').

End main_v2.

Import PyStr Re PyVal Json Py Pandas f_script_api_v2.

Set Warnings "-clear-no-such-hyp".

Ltac unfold_monad :=
  unfold mbind, M_bind, bind, mret, M_ret, ret, self, get, set_client, emit,
    print, tick, raise, raise_from, reraise, no_fuel, outside, try_except,
    set_exc_info, any_Exception in *.

Definition probe_verdict (r : reply) : bool :=
  match r with
  | Completion _ => true
  | Failure msg => negb (auth_rejected msg)
  end.

Definition with_client (c : MultiGroqClient) (s : state) : state :=
  State c (clock s) (trace s) (exc_info s) (files s).

Definition after_probe (key : string) (r : reply) (p : printed)
    (c : MultiGroqClient) (s : state) : state :=
  State c (S (S (clock s))) ((trace s ++ [Probe key r]) ++ [Print p])
        (exc_info s) (files s).

(** What [_initialize_client_rec] does once [available_keys] is known. *)
Definition select_key (W : oracle) (fuel : nat) (available_keys : list string)
    (s : state) : outcome string * state :=
  match available_keys with
  | [] => (Raise (Exn IndexError "Cannot choose from an empty sequence" None
                      (exc_info s)), s)
  | x :: _ =>
      let c := client s in
      let key := nth (random W (clock s) mod length available_keys)
                     available_keys x in
      let r := service W (S (clock s)) key in
      if probe_verdict r then
        (Ret key,
         after_probe key r (Initialized key)
           (Client (api_keys c) (Some key) ({[key]} ∪ used_keys c)
                   (invalid_keys c)) s)
      else
        _initialize_client_rec W fuel
          (after_probe key r (ValidationFailed key)
             (Client (api_keys c) (current_client c) (used_keys c)
                     ({[key]} ∪ invalid_keys c)) s)
  end.

Definition selection_event (ev : event) : Prop :=
  match ev with
  | Probe _ _ | Print (ValidationFailed _) | Print (Initialized _) => True
  | _ => False
  end.

Definition AllInvalid (ctx : option exn) : exn :=
  Exn GroqAPIError "All API keys are invalid" None ctx.

Definition EmptyChoice (ctx : option exn) : exn :=
  Exn IndexError "Cannot choose from an empty sequence" None ctx.

(** The keys of the pool that are not marked invalid: the measure of the
    recursion. *)
Definition unrejected (c : MultiGroqClient) : nat :=
  length (filter (fun key => key ∉ invalid_keys c) (api_keys c)).

(** What a selection leaves alone and how it may change the rest. *)
Record init_frame (s s' : state) : Prop := InitFrame {
  frame_keys : api_keys (client s') = api_keys (client s);
  frame_invalid_mono : invalid_keys (client s) ⊆ invalid_keys (client s');
  frame_invalid_new : ∀ k, k ∈ invalid_keys (client s') →
      k ∈ invalid_keys (client s) ∨ k ∈ api_keys (client s);
  frame_exc : exc_info s' = exc_info s;
  frame_files : files s' = files s;
  frame_trace : ∃ evs, trace s' = trace s ++ evs ∧ Forall selection_event evs;
  frame_current : current_client (client s') = current_client (client s) ∨
      ∃ k, current_client (client s') = Some k ∧ k ∈ api_keys (client s)
}.

Definition init_result (W : oracle) (fuel : nat) (s : state)
    (o : outcome string) (s' : state) : Prop :=
  match o with
  | Ret key =>
      (key ∈ api_keys (client s)) ∧ (key ∉ invalid_keys (client s')) ∧
      (key ∈ used_keys (client s')) ∧ current_client (client s') = Some key ∧
      ∃ t, probe_verdict (service W t key) = true
  | Raise e =>
      current_client (client s') = current_client (client s) ∧
      ((e = AllInvalid (exc_info s) ∧
        size (invalid_keys (client s')) = length (api_keys (client s)))
       ∨ (e = EmptyChoice (exc_info s) ∧
          size (invalid_keys (client s')) ≠ length (api_keys (client s)) ∧
          ∀ k, k ∈ api_keys (client s) → k ∈ invalid_keys (client s')))
  | Outside => False
  | NoFuel => fuel ≤ unrejected (client s)
  end.

Definition init_post (W : oracle) (fuel : nat) (s : state)
    (r : outcome string * state) : Prop :=
  init_frame s r.2 ∧ init_result W fuel s r.1 r.2.

Definition pool_ok (c : MultiGroqClient) : Prop :=
  NoDup (api_keys c) ∧ ∀ k, k ∈ invalid_keys c → k ∈ api_keys c.

Definition after_attempt (key : string) (r : reply) (s : state) : state :=
  State (client s) (S (clock s)) (trace s ++ [Attempt key r])
        (exc_info s) (files s).

Definition restored (saved : option exn) (s : state) : state :=
  State (client s) (clock s) (trace s) saved (files s).

(** The first statements of the [except] clause: the key of the current
    client is marked when the text of the error says so. *)
Definition marked (e : exn) (key : string) (s : state) : state :=
  if contains "invalid_api_key" (lower (exn_msg e))
     || contains "401" (lower (exn_msg e))
  then
    State (Client (api_keys (client s)) (current_client (client s))
                  (used_keys (client s)) ({[key]} ∪ invalid_keys (client s)))
          (clock s) (trace s ++ [Print (InvalidKeyDetected key)])
          (Some e) (files s)
  else restored (Some e) s.

(** The rest of the clause and what follows it. *)
Definition recover (W : oracle) (fuel max_retries retries : nat) (e : exn)
    (saved : option exn) (s : state) : outcome (option response) * state :=
  if retries + 1 <? max_retries then
    match _initialize_client W
            (State (client s) (clock s)
               (trace s ++ [Print (CallFailed (exn_msg e) (retries + 1)
                                              max_retries)])
               (exc_info s) (files s)) with
    | (Ret _, s') =>
        completion_loop W fuel max_retries (retries + 1)
          (State (client s') (clock s') (trace s' ++ [Sleep 1]) saved (files s'))
    | (Raise ge, s') => (Raise ge, restored saved s')
    | (Outside, s') => (Outside, restored saved s')
    | (NoFuel, s') => (NoFuel, restored saved s')
    end
  else
    (Raise (Exn GroqAPIError "All API keys failed or are invalid" (Some e)
                (exc_info s)),
     restored saved s).

Definition no_client : string := "'NoneType' object has no attribute 'chat'".

(** The replies to the calls of [create_chat_completion] in a trace. *)
Definition attempts (evs : list event) : list reply :=
  omap (fun ev => match ev with Attempt _ r => Some r | _ => None end) evs.

Definition is_failure (r : reply) : Prop :=
  match r with Failure _ => True | Completion _ => False end.

(** The client after a successful construction: the marked keys and the
    key in use belong to the pool. *)
Definition wf_client (c : MultiGroqClient) : Prop :=
  (∀ k, k ∈ invalid_keys c → k ∈ api_keys c) ∧
  ∃ k, current_client c = Some k ∧ k ∈ api_keys c.

Definition AllFailed (e : exn) : exn :=
  Exn GroqAPIError "All API keys failed or are invalid" (Some e) (Some e).

Record marked_frame (e : exn) (key : string) (s1 s2 : state) : Prop := {
  marked_keys : api_keys (client s2) = api_keys (client s1);
  marked_current : current_client (client s2) = current_client (client s1);
  marked_invalid : ∀ k, k ∈ invalid_keys (client s2) →
                        k ∈ invalid_keys (client s1) ∨ k = key;
  marked_exc : exc_info s2 = Some e;
  marked_files : files s2 = files s1;
  marked_trace : ∃ evs, trace s2 = trace s1 ++ evs ∧ attempts evs = []
}.

Definition loop_result (max_retries retries : nat) (saved : option exn)
    (atts : list reply) (o : outcome (option response)) : Prop :=
  match o with
  | Ret (Some r) =>
      ∃ fails, atts = fails ++ [Completion (message_content r)] ∧
               Forall is_failure fails
  | Raise e =>
      Forall is_failure atts ∧
      ∃ msg, last atts = Some (Failure msg) ∧
        let e0 := Exn LibraryError msg None saved in
        (e = AllFailed e0 ∧ length atts + retries = max_retries) ∨
        e = AllInvalid (Some e0)
  | _ => False
  end.

Definition loop_post (max_retries retries : nat) (s : state)
    (r : outcome (option response) * state) : Prop :=
  wf_client (client r.2) ∧
  api_keys (client r.2) = api_keys (client s) ∧
  exc_info r.2 = exc_info s ∧ files r.2 = files s ∧
  ∃ evs, trace r.2 = trace s ++ evs ∧
    1 ≤ length (attempts evs) ∧
    length (attempts evs) + retries ≤ max_retries ∧
    loop_result max_retries retries (exc_info s) (attempts evs) r.1.

Definition key_a : string := "gsk_abcdefghijklmnopqrstuvwxyz012345".

Definition key_b : string := "gsk_ABCDEFGHIJKLMNOPQRSTUVWXYZ012345".

(** A world in which every request is rejected as unauthenticated. *)
Definition all_rejected : oracle :=
  Oracle (fun _ _ => Failure "Error code: 401 - invalid_api_key")
         (fun _ => 0) (fun _ _ => None) (fun _ _ => None).

(** A world in which every request is answered. *)
Definition all_answered (content : string) : oracle :=
  Oracle (fun _ _ => Completion content) (fun _ => 0) (fun _ _ => None)
         (fun _ _ => None).

(** Every probe is rejected: no key of the pool passes [_validate_api_key]. *)
Definition every_probe_rejected (W : oracle) (c : MultiGroqClient) : Prop :=
  ∀ t k, k ∈ api_keys c → ∃ msg, service W t k = Failure msg ∧ auth_rejected msg = true.

Definition two_key_client : state :=
  State (Client [key_a; key_b] (Some key_a) {[key_a]} ∅) 0 [] None [].

(** A client whose pool lists its only key twice. *)
Definition duplicate_key_client : state :=
  State (Client [key_a; key_a] (Some key_a) {[key_a]} ∅) 0 [] None [].

(** The error of a request that the service rejects with status 401. *)
Definition rejection : exn :=
  Exn LibraryError "Error code: 401 - invalid_api_key" None None.

(** The claim as the specification states it: when every attempt fails,
    the call fails with the error that wraps the last underlying one. *)
Definition exhaustion_as_stated (W : oracle) (s : state) : Prop :=
  ∀ evs, trace (create_chat_completion W s).2 = trace s ++ evs →
    Forall is_failure (attempts evs) →
    ∃ e, (create_chat_completion W s).1 = Raise (AllFailed e).

Abbreviation len := String.length.

(** A scanner never stops for lack of fuel when it is given [k] units more
    than three per character, and what it leaves is shorter than what it
    was given. *)
Definition scanner_ok (k : nat) (scan : string -> parsed pyval) (f : nat) : Prop :=
  ∀ s, (∀ v r, scan s = POk v r → len r < len s) ∧
       (3 * len s + k ≤ f → scan s ≠ PNoFuel).

(** The events of the client, as opposed to the lines of the batch driver. *)
Definition client_event (ev : event) : Prop :=
  match ev with
  | Probe _ _ | Attempt _ _ | Sleep _ => True
  | Print (ValidationFailed _) | Print (Initialized _)
  | Print (InvalidKeyDetected _) | Print (CallFailed _ _ _) => True
  | Print _ => False
  end.

(** A computation that touches neither the files nor the handled
    exception, adds client events only, and gives an answer. *)
Definition quiet {A} (s : state) (r : outcome A * state) : Prop :=
  r.1 ≠ NoFuel ∧ r.1 ≠ Outside ∧
  files r.2 = files s ∧ exc_info r.2 = exc_info s ∧
  ∃ evs, trace r.2 = trace s ++ evs ∧ Forall client_event evs.

(** A response that is returned is a reply of the service. *)
Definition answered_by (W : oracle) (o : outcome (option response)) : Prop :=
  match o with
  | Ret (Some r) => ∃ t k, service W t k = Completion (message_content r)
  | _ => True
  end.

Definition error_record (e : exn) : pyval :=
  PDict [("error", PStr ("LLM processing failed: " +:+ exn_msg e))].

Definition fallback_record (body : string) : pyval :=
  PDict [("raw_llm_output", PStr body)].

Definition one_key_client : state :=
  State (Client [key_a] (Some key_a) {[key_a]} ∅) 0 [] None [].

Definition no_document : ExtractedDocument :=
  Extracted EmptyString (Contact [] [] [] []) [].

(** No reply of the service has an escape above U+00FF or brackets nested
    deeper than [max_nesting]. *)
Definition replies_in_model (W : oracle) (pf : string -> string) : Prop :=
  ∀ t k c, service W t k = Completion c → json_loads pf c ≠ OutsideModel.

(** The files whose line "Processing: ..." was printed, in order. *)
Definition processed (evs : list event) : list string :=
  omap (fun ev => match ev with Print (Processing f) => Some f | _ => None end)
       evs.

(** The lines the batch driver prints, as opposed to those of the client. *)
Definition driver_line (ev : event) : option printed :=
  match ev with
  | Print (Processing file) => Some (Processing file)
  | Print (Saved output_filename) => Some (Saved output_filename)
  | Print (ErrorProcessing file msg) => Some (ErrorProcessing file msg)
  | _ => None
  end.

Definition driver_lines (evs : list event) : list printed := omap driver_line evs.

(** A step of the work on one document: it gives an answer and restores
    the handled exception; the batch driver prints [ps] during it when it
    returns and nothing when it raises. *)
Definition calm {A} (ps : list printed) (s : state) (r : outcome A * state)
  : Prop :=
  r.1 ≠ NoFuel ∧ r.1 ≠ Outside ∧ exc_info r.2 = exc_info s ∧
  ∃ evs, trace r.2 = trace s ++ evs ∧
         driver_lines evs = match r.1 with Ret _ => ps | _ => [] end.

Definition is_pdf (file : string) : bool := endswith ".pdf" (lower file).

(** What the batch driver prints for the PDF members of an archive when
    each of them is brought to an end: the line [Processing: ...] followed
    by [Saved: ...] or by [Error processing ...]. *)
Inductive batch_report : list string → list printed → Prop :=
| report_end : batch_report [] []
| report_saved file members ps :
    batch_report members ps →
    batch_report (file :: members)
      (Processing file :: Saved (splitext_root file +:+ ".json") :: ps)
| report_error file msg members ps :
    batch_report members ps →
    batch_report (file :: members)
      (Processing file :: ErrorProcessing file msg :: ps).

(** Every operation on the temporary folder is carried out. *)
Definition temps_succeed (W : oracle) : Prop := ∀ t path, fs_temp W t path = None.

(** A world whose requests fail at first, for a reason other than
    authentication, and are answered from the fourth interaction on. *)
Definition first_call_fails : oracle :=
  Oracle (fun t _ => if t <=? 2 then Failure "rate limit exceeded"
                     else Completion "[]")
         (fun _ => 0) (fun _ _ => None) (fun _ _ => None).

Definition two_resumes : list (string * pdf) :=
  [("a.pdf", Pages [PageText (Some "EDUCATION")]);
   ("b.pdf", Pages [PageText (Some "EDUCATION")])].

(** The state after an operation on the temporary folder that succeeds. *)
Definition ticked (s : state) : state :=
  State (client s) (S (clock s)) (trace s) (exc_info s) (files s).

(** The state in which the work on a member starts when the loop reaches
    it in state [s]: the member has been extracted and its line printed. *)
Definition started (file : string) (s : state) : state :=
  State (client s) (S (clock s)) (trace s ++ [Print (Processing file)])
        (exc_info s) (files s).

(** The state in which the loop goes on after a member: [p] has been
    printed and the extracted file removed. *)
Definition finished (p : printed) (files' : list (string * pyval)) (s1 : state)
  : state :=
  State (client s1) (S (S (clock s1))) (trace s1 ++ [Print p]) (exc_info s1)
        files'.

(** The claim as the specification states it, for the first document of a
    batch: if its completion call ends in a [GroqAPIError], no later
    document is processed. *)
Definition exhaustion_aborts_batch (W : oracle) (pf : string -> string)
    (out file : string) (doc : pdf) (rest : list (string * pdf)) (s : state)
  : Prop :=
  (∃ e s1, create_chat_completion W (started file (ticked s)) = (Raise e, s1) ∧
           is_GroqAPIError e = true) →
  processed (trace (process_all_resumes W pf out ((file, doc) :: rest) s).2) =
  processed (trace s) ++ [file].

(** ["1" * n] and the like *)
Fixpoint repeat_char (n : nat) (c : ascii) : string :=
  match n with
  | 0 => EmptyString
  | S n' => String c (repeat_char n' c)
  end.

(** A body that is not JSON, the array being left open, and whose first
    item is an integer literal of [n] digits. *)
Definition open_array_of_digits (n : nat) : string :=
  String "[" (repeat_char n "1").

(** The claim as the specification states it, for one body: the document
    does not fail and the body comes back under [raw_llm_output]. *)
Definition fallback_as_stated (W : oracle) (pf : string -> string)
    (doc : ExtractedDocument) (s : state) (body : string) : Prop :=
  ∃ s', process_with_llm W pf doc s =
        (Ret (PDict [("raw_llm_output", PStr body)]), s').

Definition nl : string := String newline EmptyString.

Definition dq : string := String dquote EmptyString.

(** The model output of the example: a fenced block around a one-record
    array. *)
Definition fenced_body : string :=
  "```json" +:+ nl +:+ "[{" +:+ dq +:+ "Name" +:+ dq +:+ ":" +:+ dq +:+ "X"
    +:+ dq +:+ "}]" +:+ nl +:+ "```".

Definition record_X : list (string * pyval) :=
  [("Name", PStr "X"); ("Emails", PStr EmptyString);
   ("Mobile", PStr EmptyString); ("Present Salary", PStr EmptyString);
   ("Expected Salary", PStr EmptyString); ("Date of Birth", PStr EmptyString);
   ("Permanent Address", PStr EmptyString);
   ("Company with Duration", PStr EmptyString);
   ("Job Title with Duration", PStr EmptyString);
   ("Institution", PStr EmptyString); ("Graduation", PStr EmptyString);
   ("Total Years of experience", PStr EmptyString)].

(** A text without a line break. *)
Fixpoint single_line (l : string) : bool :=
  match l with
  | EmptyString => true
  | String c l' => negb (is_char newline c) && single_line l'
  end.

Ltac step_append := unfold String.append; fold String.append.

Import main_v2.

(** What the first loop of [process_and_normalize_df] does to a row. *)
Definition normalize_row (cols : list string) (r : list (string * pyval))
  : list (string * pyval) :=
  fold_left (fun r col => dict_set col (PStr (normalize_data (cell col r))) r)
            cols r.

(** What the second loop does to a row, given which labels are columns. *)
Definition fill_row (present : string -> bool) (cols : list string)
    (r : list (string * pyval)) : list (string * pyval) :=
  fold_left (fun r col => if present col then r
                          else dict_set col (PStr EmptyString) r)
            cols r.

(** The rows of [process_and_normalize_df df], one for each row of [df]. *)
Definition normalized_row (df : DataFrame) (r : list (string * pyval))
  : list (string * pyval) :=
  reindex required_columns
    (fill_row (fun c => mem c (columns df)) required_columns
       (normalize_row (columns df) r)).

(** The row [insert_to_db] stores for a normalized record. *)
Definition stored (new_id : Z) (current_time : string)
    (row : list (string * pyval)) : resume :=
  Resume new_id
    (text row "Name") (text row "Emails") (text row "Mobile")
    (text row "Present Salary") (text row "Expected Salary")
    (text row "Date of Birth") (text row "Permanent Address")
    (text row "Company with Duration") (text row "Job Title with Duration")
    (text row "Institution") (text row "Graduation")
    (text row "Total Years of experience") current_time.

Definition snake_case (col : string) : string :=
  replace_char " " "_" (lower col).

Definition renamed (row : list (string * pyval)) : list (string * pyval) :=
  map (fun kv => (snake_case (fst kv), snd kv)) row.

(** A normalized record with a name, an email and a mobile number. *)
Definition candidate (n e m : string) : list (string * pyval) :=
  [("Name", PStr n); ("Emails", PStr e); ("Mobile", PStr m);
   ("Present Salary", PStr EmptyString); ("Expected Salary", PStr EmptyString);
   ("Date of Birth", PStr EmptyString); ("Permanent Address", PStr EmptyString);
   ("Company with Duration", PStr EmptyString);
   ("Job Title with Duration", PStr EmptyString);
   ("Institution", PStr EmptyString); ("Graduation", PStr EmptyString);
   ("Total Years of experience", PStr EmptyString)].

Definition names_only : DataFrame :=
  Frame ["Name"] [[("Name", PStr "A")]; [("Name", PStr "B")]].

Definition same_email : DataFrame :=
  Frame ["Name"; "Emails"; "Mobile"]
    [[("Name", PStr "A"); ("Emails", PStr "a@x.org"); ("Mobile", PStr "017")];
     [("Name", PStr "B"); ("Emails", PStr "a@x.org"); ("Mobile", PStr "018")]].

(** The rule of the specification for one field, [None] being a field
    that is missing: a list is joined with ", ", null and missing give the
    empty string, anything else its string form. *)
Definition field_string (v : option pyval) : string :=
  match v with
  | None => EmptyString
  | Some PNone => EmptyString
  | Some (PList l) => join ", " (map py_str l)
  | Some v => py_str v
  end.

(** A missing cell of a frame is [NaN] (or [None]). *)
Definition present (v : pyval) : option pyval :=
  if isna v then None else Some v.

Definition normalized_items (items : list (string * pyval))
  : list (string * pyval) :=
  map (fun kv => (fst kv, PStr (field_string (Some (snd kv))))) items.

(** A row of the schema: each of the twelve fields, as a string. *)
Definition schema_row (field : string -> string) : list (string * pyval) :=
  map (fun col => (col, PStr (field col))) required_columns.

(** The last step of [sscript.process_resumes] on a text: the texts [nan]
    and [None] become the empty string. *)
Definition blank_text (s : string) : string :=
  if String.eqb s "nan" || String.eqb s "None" then EmptyString else s.

(** A record with a list, a null and no other field. *)
Definition record_ab : list (string * pyval) :=
  [("Name", PList [PStr "a"; PStr "b"]); ("Emails", PNone)].

Definition row_ab : list (string * pyval) :=
  [("Name", PStr "a, b"); ("Emails", PStr EmptyString);
   ("Mobile", PStr EmptyString); ("Present Salary", PStr EmptyString);
   ("Expected Salary", PStr EmptyString); ("Date of Birth", PStr EmptyString);
   ("Permanent Address", PStr EmptyString);
   ("Company with Duration", PStr EmptyString);
   ("Job Title with Duration", PStr EmptyString);
   ("Institution", PStr EmptyString); ("Graduation", PStr EmptyString);
   ("Total Years of experience", PStr EmptyString)].

(** The keys probed in a trace, in order. *)
Definition probes (evs : list event) : list string :=
  omap (fun ev => match ev with Probe key _ => Some key | _ => None end) evs.

(** What a selection costs: every probed key is a key of the pool that was
    not marked, no key is probed twice, and there are at most as many
    probes as unmarked keys. *)
Definition selection_cost (s : state) (r : outcome string * state) : Prop :=
  ∃ evs, trace r.2 = trace s ++ evs ∧
    NoDup (probes evs) ∧
    (∀ k, k ∈ probes evs →
          (k ∈ api_keys (client s)) ∧ (k ∉ invalid_keys (client s))) ∧
    length (probes evs) ≤ unrejected (client s).

(** The rotation, relative to the used set [U] at the start. *)
Definition rotation_from (U : gset string) (s : state)
    (r : outcome string * state) : Prop :=
  match r.1 with
  | Ret key =>
      ((key ∉ U) ∧ used_keys (client r.2) = {[key]} ∪ U) ∨
      (used_keys (client r.2) = {[key]} ∧
       ∀ k, k ∈ api_keys (client s) → k ∈ U ∨ k ∈ invalid_keys (client r.2))
  | _ => True
  end.

(** The test of [create_chat_completion] on the text of an error. *)
Definition rejected_in_call (msg : string) : bool :=
  contains "invalid_api_key" (lower msg) || contains "401" (lower msg).

(** What a completion call does to the pool: the keys stay, no mark is
    removed, and the key of every attempt that was rejected as
    unauthenticated is marked at the end. *)
Definition pool_frame (s : state) (r : outcome (option response) * state)
  : Prop :=
  api_keys (client r.2) = api_keys (client s) ∧
  invalid_keys (client s) ⊆ invalid_keys (client r.2) ∧
  ∃ evs, trace r.2 = trace s ++ evs ∧
    ∀ key msg, Attempt key (Failure msg) ∈ evs →
      rejected_in_call msg = true → key ∈ invalid_keys (client r.2).

(** The message of the constructor for a list without a usable key. *)
Definition no_key_message (keys : list string) : string :=
  match keys with
  | [] => "No API keys provided"
  | _ => "No valid API keys found"
  end.

Definition is_text (p : page) : Prop :=
  match p with PageText _ => True | PageError _ => False end.

(** A document that cannot be opened, or whose first failing page fails
    with [msg]. *)
Definition broken (doc : pdf) (msg : string) : Prop :=
  doc = Unreadable msg ∨
  ∃ good rest, doc = Pages (good ++ PageError msg :: rest) ∧ Forall is_text good.

(** A member whose name leaves the temporary folder: [ZipFile.extract]
    drops the [..] and writes [temp_pdfs/up.pdf], so neither pdfplumber
    nor [os.remove] finds a file at [pdf_path]. *)
Definition not_found : string :=
  "[Errno 2] No such file or directory: 'temp_pdfs/../up.pdf'".

Definition remove_fails : oracle :=
  Oracle (fun _ _ => Completion "[]") (fun _ => 0) (fun _ _ => None)
         (fun _ path => if String.eqb path "temp_pdfs/../up.pdf"
                        then Some not_found else None).

(** The exception [extract_from_pdf] raises for the library error [msg]. *)
Definition extraction_error (msg : string) (ctx : option exn) : exn :=
  Exn PlainException ("Error extracting text: " +:+ msg) None
      (Some (Exn LibraryError msg None ctx)).

(** A section as [extract_from_pdf] builds it: its heading is empty or a
    header line, its content lines are non-blank, stripped lines that are
    not header lines, and it is not empty. *)
Definition content_line (l : string) : Prop :=
  l ≠ EmptyString ∧ strip l = l ∧ _is_likely_header l = false.

Definition header_line (l : string) : Prop :=
  l ≠ EmptyString ∧ strip l = l ∧ _is_likely_header l = true.

Definition section_lines (sec : section) : Prop :=
  (heading sec = EmptyString ∨ header_line (heading sec)) ∧
  Forall content_line (content sec).

Definition section_built (sec : section) : Prop :=
  section_lines sec ∧ (heading sec ≠ EmptyString ∨ content sec ≠ []).

(** The sections after the first have a heading. *)
Definition headed_after_first (l : list section) : Prop :=
  Forall (fun sec => heading sec ≠ EmptyString) (tail l).

(** The invariant of the loops of [extract_from_pdf]. *)
Definition extraction_inv (st : extraction) : Prop :=
  Forall section_built (done_sections st) ∧
  headed_after_first (done_sections st) ∧
  section_lines (current_section st) ∧
  (heading (current_section st) = EmptyString → done_sections st = []).

(** [if current_section["heading"] or current_section["content"]:
    sections.append(current_section)] *)
Definition flush (st : extraction) : list section :=
  if negb (String.eqb (heading (current_section st)) EmptyString)
     || negb (match content (current_section st) with [] => true | _ => false end)
  then done_sections st ++ [current_section st]
  else done_sections st.

(** The section keywords of the second pattern. *)
Definition section_keywords : list string :=
  ["EDUCATION"; "EXPERIENCE"; "SKILLS"; "PROJECTS"; "SUMMARY"; "WORK";
   "CONTACT"; "ACHIEVEMENTS"; "CERTIFICATIONS"; "LANGUAGES"].

(** Every character of the text is in the class. *)
Fixpoint all_chars (p : ascii → bool) (s : string) : bool :=
  match s with
  | EmptyString => true
  | String c s' => p c && all_chars p s'
  end.

(** The class [A-Za-z0-9] of the key pattern. *)
Definition key_char (c : ascii) : bool := is_AZ c || is_az c || is_09 c.

(** The continuation of [re.match]: the match object at the end. *)
Definition matched (s : string) (st : mstate) : option match_object :=
  Some (Match 0 (pos st) (take (pos st - 0) (drop 0 s)) (group1 st)).

(** The constraints of the table: [emails UNIQUE], [mobile UNIQUE],
    [id PRIMARY KEY AUTOINCREMENT] with the counter at or above every id. *)
Definition table_ok (db : database) : Prop :=
  NoDup (map emails (resumes db)) ∧
  NoDup (map mobile (resumes db)) ∧
  NoDup (map id (resumes db)) ∧
  ∀ r, r ∈ resumes db → (id r ≤ sqlite_sequence db)%Z.

(** One step of the loop of [insert_to_db]. *)
Definition insert_step (current_time : string) (acc : nat * database)
    (row : list (string * pyval)) : nat * database :=
  match execute_insert row current_time (snd acc) with
  | Some db' => (fst acc + 1, db')
  | None => acc
  end.

(** The rows stored for a list of normalized records, numbered from
    [first]. *)
Fixpoint stored_from (first : Z) (current_time : string)
    (records : list (list (string * pyval))) : list resume :=
  match records with
  | [] => []
  | r :: records' =>
      stored first current_time r
      :: stored_from (first + 1)%Z current_time records'
  end.

(** A frame of two candidates with different contacts. *)
Definition two_candidates : DataFrame :=
  Frame ["Name"; "Emails"; "Mobile"]
    [[("Name", PStr "A"); ("Emails", PStr "a@x.org"); ("Mobile", PStr "017")];
     [("Name", PStr "B"); ("Emails", PStr "b@x.org"); ("Mobile", PStr "018")]].

(** * Theorems *)

Lemma validate_spec W key s :
  _validate_api_key W key s =
  (Ret (probe_verdict (service W (clock s) key)),
   State (client s) (S (clock s))
         (trace s ++ [Probe key (service W (clock s) key)])
         (exc_info s) (files s)).
Proof.
  unfold _validate_api_key, chat_completions_create. unfold_monad. simpl.
  destruct (service W (clock s) key) as [c|msg]; simpl; [reflexivity|].
  unfold auth_rejected.
  destruct (contains "invalid_api_key" (lower msg) || contains "401" msg); reflexivity.
Qed.

Lemma init_rec_S W fuel s :
  _initialize_client_rec W (S fuel) s =
  let c := client s in
  match filter (fun key => (key ∉ used_keys c) ∧ (key ∉ invalid_keys c))
               (api_keys c) with
  | [] =>
      if (size (invalid_keys c) =? length (api_keys c))%nat
      then (Raise (Exn GroqAPIError "All API keys are invalid" None
                       (exc_info s)), s)
      else select_key W fuel
             (filter (fun key => key ∉ invalid_keys c) (api_keys c))
             (with_client (Client (api_keys c) (current_client c) ∅
                                  (invalid_keys c)) s)
  | available_keys => select_key W fuel available_keys s
  end.
Proof.
  cbn [_initialize_client_rec]. unfold mbind at 1, M_bind at 1, bind at 1, self at 1.
  cbv zeta.
  destruct (filter _ (api_keys (client s))) as [|x l] eqn:Hav.
  - destruct (size _ =? _)%nat.
    + reflexivity.
    + unfold select_key, random_choice, used_keys_clear. unfold_monad. simpl.
      destruct (filter (fun key => key ∉ invalid_keys (client s))
                       (api_keys (client s))) as [|y l'] eqn:Hav'; [reflexivity|].
      simpl. rewrite validate_spec. simpl.
      destruct (probe_verdict _); reflexivity.
  - unfold select_key, random_choice. unfold_monad. simpl.
    rewrite validate_spec. simpl.
    destruct (probe_verdict _); reflexivity.
Qed.

Lemma init_frame_refl s : init_frame s s.
Proof.
  split; try reflexivity; auto.
  exists []. rewrite app_nil_r. auto.
Qed.

Lemma init_frame_trans s1 s2 s3 :
  init_frame s1 s2 → init_frame s2 s3 → init_frame s1 s3.
Proof.
  intros [K1 M1 N1 E1 F1 (ev1 & T1 & A1) C1] [K2 M2 N2 E2 F2 (ev2 & T2 & A2) C2].
  split.
  - congruence.
  - set_solver.
  - intros k Hk. destruct (N2 k Hk) as [H|H].
    + auto.
    + right. congruence.
  - congruence.
  - congruence.
  - exists (ev1 ++ ev2). split.
    + rewrite T2, T1, app_assoc. reflexivity.
    + apply Forall_app; auto.
  - destruct C2 as [C2|(k & C2 & Hk)].
    + rewrite C2. exact C1.
    + right. exists k. split; [exact C2|congruence].
Qed.

Lemma unrejected_lt c key :
  key ∈ api_keys c → key ∉ invalid_keys c →
  unrejected (Client (api_keys c) (current_client c) (used_keys c)
                     ({[key]} ∪ invalid_keys c)) < unrejected c.
Proof.
  unfold unrejected. simpl. generalize (api_keys c). intros l Hin Hni.
  induction l as [|x l IH]; [by apply elem_of_nil in Hin|].
  apply elem_of_cons in Hin.
  destruct (decide (x = key)) as [->|Hne].
  - rewrite filter_cons_False by set_solver.
    rewrite filter_cons_True by assumption. simpl.
    apply Nat.lt_succ_r.
    clear. induction l as [|y l IH]; [simpl; lia|].
    rewrite !filter_cons. repeat case_decide; simpl; try lia; set_solver.
  - destruct Hin as [Heq|Hin]; [congruence|].
    specialize (IH Hin). rewrite !filter_cons.
    repeat case_decide; simpl; try lia; set_solver.
Qed.

Lemma nth_mod_elem_of (l : list string) (n : nat) (d : string) :
  l ≠ [] → nth (n mod length l) l d ∈ l.
Proof.
  intros Hl. apply list_elem_of_In, nth_In.
  apply Nat.mod_upper_bound. destruct l; simpl; [congruence|lia].
Qed.

Lemma select_spec W fuel :
  (∀ s, init_post W fuel s (_initialize_client_rec W fuel s)) →
  ∀ available_keys s,
    (∀ k, k ∈ available_keys →
          (k ∈ api_keys (client s)) ∧ (k ∉ invalid_keys (client s))) →
    (available_keys = [] →
       size (invalid_keys (client s)) ≠ length (api_keys (client s)) ∧
       ∀ k, k ∈ api_keys (client s) → k ∈ invalid_keys (client s)) →
    init_post W (S fuel) s (select_key W fuel available_keys s).
Proof.
  intros IH av s Hav Hnil. unfold select_key.
  destruct av as [|x l].
  - destruct (Hnil eq_refl) as [Hsz Hall].
    split; [apply init_frame_refl|]. simpl. split; [reflexivity|].
    right. auto.
  - set (key := nth _ _ _).
    assert (Hkey : key ∈ x :: l) by (apply nth_mod_elem_of; discriminate).
    destruct (Hav key Hkey) as [Hpool Hvalid].
    set (r := service W (S (clock s)) key).
    destruct (probe_verdict r) eqn:Hr.
    + split; simpl.
      * split; simpl; try reflexivity; auto.
        -- eexists. split; [rewrite <- app_assoc; reflexivity|].
           repeat constructor.
        -- right. eauto.
      * repeat split; auto; [set_solver|]. exists (S (clock s)). exact Hr.
    + match goal with |- init_post _ _ _ (_initialize_client_rec _ _ ?s1) =>
        set (s1' := s1) end.
      destruct (IH s1') as [Hfr Hres].
      assert (Hstep : init_frame s s1').
      { split; simpl; try reflexivity; auto.
        - set_solver.
        - intros k Hk. apply elem_of_union in Hk as [Hk|Hk]; [|auto].
          apply elem_of_singleton in Hk. subst k. auto.
        - eexists. split; [rewrite <- app_assoc; reflexivity|].
          repeat constructor. }
      split; [eapply init_frame_trans; eassumption|].
      destruct (_initialize_client_rec W fuel s1') as [[k|e| |] s2]; simpl in *.
      * exact Hres.
      * exact Hres.
      * exact Hres.
      * pose proof (unrejected_lt (client s) key Hpool Hvalid) as Hlt.
        unfold unrejected in *. simpl in *. lia.
Qed.

Lemma init_rec_spec W fuel s :
  init_post W fuel s (_initialize_client_rec W fuel s).
Proof.
  revert s. induction fuel as [|fuel IH]; intros s.
  - split; [apply init_frame_refl|]. simpl. lia.
  - rewrite init_rec_S. cbv zeta.
    destruct (filter _ (api_keys (client s))) as [|x l] eqn:Hav.
    + destruct (size _ =? _) eqn:Hsz.
      * apply Nat.eqb_eq in Hsz.
        split; [apply init_frame_refl|]. simpl. split; [reflexivity|]. left. auto.
      * apply Nat.eqb_neq in Hsz.
        match goal with |- init_post _ _ _ (select_key _ _ ?av ?s0) =>
          pose proof (select_spec W fuel IH av s0) as Hsel end.
        simpl in Hsel.
        assert (Hfr_res : init_post W (S fuel)
                  (with_client (Client (api_keys (client s))
                     (current_client (client s)) ∅ (invalid_keys (client s))) s)
                  (select_key W fuel
                     (filter (fun key => key ∉ invalid_keys (client s))
                             (api_keys (client s)))
                     (with_client (Client (api_keys (client s))
                        (current_client (client s)) ∅
                        (invalid_keys (client s))) s))).
        { apply Hsel.
          - intros k Hk. apply list_elem_of_filter in Hk. tauto.
          - intros Hnil. split; [exact Hsz|].
            intros k Hk.
            destruct (decide (k ∈ invalid_keys (client s))) as [|Hk']; [assumption|].
            exfalso. exact (filter_nil_not_elem_of _ _ k Hnil Hk' Hk). }
        clear Hsel. destruct Hfr_res as [Hfr Hres]. split.
        -- destruct Hfr as [K1 M1 N1 E1 F1 T1 C1]. simpl in *. split; auto.
        -- destruct (select_key _ _ _ _) as [[k|e| |] s2]; simpl in *; auto.
    + rewrite <- Hav. apply select_spec; [exact IH| |].
      * intros k Hk. apply list_elem_of_filter in Hk. tauto.
      * rewrite Hav. discriminate.
Qed.

Lemma initialize_client_unfold W s :
  _initialize_client W s =
  _initialize_client_rec W (S (length (api_keys (client s)))) s.
Proof. reflexivity. Qed.

Lemma unrejected_le c : unrejected c ≤ length (api_keys c).
Proof. apply length_filter. Qed.

Lemma initialize_client_spec W s :
  init_post W (S (length (api_keys (client s)))) s (_initialize_client W s).
Proof. rewrite initialize_client_unfold. apply init_rec_spec. Qed.

(** The recursion of the selection is bounded by the size of the pool. *)
Lemma initialize_client_total W s : (_initialize_client W s).1 ≠ NoFuel.
Proof.
  destruct (initialize_client_spec W s) as [_ Hres]. intros Heq.
  rewrite Heq in Hres. simpl in Hres.
  pose proof (unrejected_le (client s)). lia.
Qed.

Lemma initialize_client_inside W s : (_initialize_client W s).1 ≠ Outside.
Proof.
  destruct (initialize_client_spec W s) as [_ Hres]. intros Heq.
  rewrite Heq in Hres. exact Hres.
Qed.

(** A pool without repetition, all of whose keys are marked, has as many
    marks as keys. *)
Lemma size_invalid_full (l : list string) (X : gset string) :
  NoDup l → (∀ k, k ∈ X → k ∈ l) → (∀ k, k ∈ l → k ∈ X) → size X = length l.
Proof.
  intros Hnd H1 H2.
  assert (X = list_to_set l) as ->.
  { apply set_eq. intros k. rewrite elem_of_list_to_set. split; auto. }
  apply size_list_to_set, Hnd.
Qed.

(** With distinct keys the selection never draws from an empty list. *)
Lemma initialize_client_raises W s e s' :
  pool_ok (client s) →
  _initialize_client W s = (Raise e, s') →
  e = AllInvalid (exc_info s) ∧
  size (invalid_keys (client s')) = length (api_keys (client s)).
Proof.
  intros [Hnd Hsub] Heq.
  destruct (initialize_client_spec W s) as [Hfr Hres].
  rewrite Heq in Hfr, Hres. simpl in Hfr, Hres.
  destruct Hres as [_ [H|(_ & Hsz & Hall)]]; [exact H|].
  exfalso. apply Hsz. apply size_invalid_full; auto.
  intros k Hk. destruct (frame_invalid_new _ _ Hfr k Hk); auto.
Qed.

Lemma loop_step_some W fuel max_retries retries s key :
  current_client (client s) = Some key →
  (retries <? max_retries) = true →
  completion_loop W (S fuel) max_retries retries s =
  match service W (clock s) key with
  | Completion c =>
      (Ret (Some (Response c)), after_attempt key (Completion c) s)
  | Failure msg =>
      let e := Exn LibraryError msg None (exc_info s) in
      recover W fuel max_retries retries e (exc_info s)
        (marked e key (after_attempt key (Failure msg) s))
  end.
Proof.
  intros Hc Hlt. cbn [completion_loop]. rewrite Hlt.
  destruct s as [[keys cur used inv] clk tr exc fl]. simpl in Hc. subst cur.
  unfold current_client_create, chat_completions_create,
    current_client_api_key, invalid_keys_add.
  unfold_monad. simpl.
  destruct (service W clk key) as [c|msg] eqn:Hr; simpl; [reflexivity|].
  unfold recover, marked. simpl.
  destruct (contains "invalid_api_key" (lower msg) || contains "401" (lower msg));
    simpl.
  - unfold restored. simpl.
    destruct (retries + 1 <? max_retries); simpl; [|reflexivity].
    destruct (_initialize_client W _) as [[k|ge| |] s3]; simpl; try reflexivity.
    destruct (is_GroqAPIError ge); reflexivity.
  - unfold restored. simpl.
    destruct (retries + 1 <? max_retries); simpl; [|reflexivity].
    destruct (_initialize_client W _) as [[k|ge| |] s3]; simpl; try reflexivity.
    destruct (is_GroqAPIError ge); reflexivity.
Qed.

Lemma loop_step_none W fuel max_retries retries s :
  current_client (client s) = None →
  (retries <? max_retries) = true →
  completion_loop W (S fuel) max_retries retries s =
  let e := Exn AttributeError no_client None (exc_info s) in
  recover W fuel max_retries retries e (exc_info s) (restored (Some e) s).
Proof.
  intros Hc Hlt. cbn [completion_loop]. rewrite Hlt.
  destruct s as [[keys cur used inv] clk tr exc fl]. simpl in Hc. subst cur.
  unfold current_client_create, chat_completions_create,
    current_client_api_key, invalid_keys_add.
  unfold_monad. simpl.
  unfold recover, restored. simpl.
  destruct (retries + 1 <? max_retries); simpl; [|reflexivity].
  destruct (_initialize_client W _) as [[k|ge| |] s3]; simpl; try reflexivity.
  destruct (is_GroqAPIError ge); reflexivity.
Qed.

Lemma loop_step_done W fuel max_retries retries s :
  (retries <? max_retries) = false →
  completion_loop W (S fuel) max_retries retries s = (Ret None, s).
Proof. intros Hlt. cbn [completion_loop]. rewrite Hlt. reflexivity. Qed.

Lemma attempts_app l1 l2 : attempts (l1 ++ l2) = attempts l1 ++ attempts l2.
Proof. apply omap_app. Qed.

Lemma attempts_selection evs : Forall selection_event evs → attempts evs = [].
Proof.
  induction 1 as [|ev evs Hev _ IH]; [reflexivity|].
  unfold attempts in *.
  destruct ev as [| | |[]]; simpl in *; try contradiction; exact IH.
Qed.

Lemma marked_spec e key s1 : marked_frame e key s1 (marked e key s1).
Proof.
  unfold marked. destruct (_ || _); split; simpl; auto.
  - intros k Hk. set_solver.
  - eexists. split; [reflexivity|reflexivity].
  - exists []. rewrite app_nil_r. auto.
Qed.

Lemma loop_spec W fuel : ∀ max_retries retries s,
  NoDup (api_keys (client s)) → wf_client (client s) →
  max_retries = length (api_keys (client s)) →
  retries < max_retries → max_retries - retries ≤ fuel →
  loop_post max_retries retries s (completion_loop W fuel max_retries retries s).
Proof.
  induction fuel as [|fuel IH]; intros max_retries retries s Hnd Hwf Hmax Hlt Hfuel;
    [lia|].
  destruct Hwf as [Hinv (key & Hcur & Hkey)].
  rewrite (loop_step_some W fuel max_retries retries s key Hcur)
    by (apply Nat.ltb_lt; exact Hlt).
  destruct (service W (clock s) key) as [c|msg] eqn:Hr.
  { (* the attempt succeeds *)
    repeat split; simpl; eauto.
    exists [Attempt key (Completion c)]. split; [reflexivity|]. simpl.
    split; [lia|]. split; [lia|]. exists []. split; [reflexivity|constructor]. }
  cbv zeta. set (e := Exn LibraryError msg None (exc_info s)).
  destruct (marked_spec e key (after_attempt key (Failure msg) s))
    as [MK MC MI ME MF (mevs & MT & MA)].
  simpl in MK, MC, MI, MF, MT.
  set (s2 := marked e key _) in *. clearbody s2.
  assert (Hinv2 : ∀ k, k ∈ invalid_keys (client s2) → k ∈ api_keys (client s)).
  { intros k Hk. destruct (MI k Hk) as [H| ->]; [apply Hinv; exact H|exact Hkey]. }
  unfold recover. destruct (retries + 1 <? max_retries) eqn:Hlt2.
  2:{ (* the retry budget is used up *)
    apply Nat.ltb_ge in Hlt2. rewrite ME. repeat split; simpl; auto.
    - rewrite MK. exact Hinv2.
    - exists key. rewrite MC, MK. auto.
    - rewrite MT. exists ([Attempt key (Failure msg)] ++ mevs).
      split; [rewrite app_assoc; reflexivity|].
      rewrite attempts_app, MA. simpl.
      split; [lia|]. split; [lia|]. split; [repeat constructor|].
      exists msg. split; [reflexivity|]. left. split; [reflexivity|lia]. }
  apply Nat.ltb_lt in Hlt2.
  match goal with |- context [_initialize_client W ?s0] => set (s3 := s0) end.
  pose proof (initialize_client_spec W s3) as [Hfr Hres].
  pose proof (initialize_client_total W s3) as Htot.
  pose proof (initialize_client_raises W s3) as Hraise.
  destruct (_initialize_client W s3) as [[k|ge| |] s4] eqn:Hinit;
    subst s3; simpl in *.
  - (* another key was selected: next iteration *)
    destruct Hfr as [K4 M4 N4 E4 F4 (ievs & T4 & A4) C4].
    destruct Hres as (Hk & _ & _ & Hcur4 & _). simpl in *.
    match goal with |- loop_post _ _ _ (completion_loop _ _ _ _ ?s0) =>
      set (s5 := s0) end.
    assert (Hpost : loop_post max_retries (retries + 1) s5
                      (completion_loop W fuel max_retries (retries + 1) s5)).
    { apply IH; subst s5; simpl.
      - rewrite K4, MK. exact Hnd.
      - split.
        + intros k' Hk'. rewrite K4, MK.
          destruct (N4 k' Hk') as [H|H]; [apply Hinv2; exact H|].
          rewrite MK in H. exact H.
        + exists k. split; [exact Hcur4|]. rewrite K4. exact Hk.
      - rewrite K4, MK. exact Hmax.
      - exact Hlt2.
      - lia. }
    destruct (completion_loop W fuel max_retries (retries + 1) s5) as [o s6].
    destruct Hpost as (Hwf6 & K6 & E6 & F6 & evs & T6 & L1 & L2 & R6).
    subst s5. simpl in *. unfold loop_post. simpl.
    split; [exact Hwf6|]. split; [congruence|]. split; [congruence|].
    split; [congruence|].
    exists ([Attempt key (Failure msg)] ++ mevs
              ++ [Print (CallFailed msg (retries + 1) max_retries)]
              ++ ievs ++ [Sleep 1] ++ evs).
      split.
      { rewrite T6, T4, MT. simpl. rewrite <- !app_assoc. reflexivity. }
      rewrite !attempts_app, MA, (attempts_selection ievs A4). simpl.
      split; [lia|]. split; [lia|].
      destruct o as [[r|]|e'| |]; simpl in *; try contradiction.
      * destruct R6 as (fails & -> & Hf).
        exists (Failure msg :: fails). split; [reflexivity|].
        constructor; [exact I|exact Hf].
      * destruct R6 as (Hf & msg' & Hlast & Hcase).
        split; [constructor; [exact I|exact Hf]|].
        exists msg'. split.
        { rewrite last_cons, Hlast. reflexivity. }
        destruct Hcase as [[-> Hlen] | ->]; [left|right; reflexivity].
        split; [reflexivity|lia].
  - (* the selection fails: every key is marked *)
    destruct Hfr as [K4 M4 N4 E4 F4 (ievs & T4 & A4) C4].
    destruct Hres as [Hcur4 _]. simpl in *.
    destruct (Hraise ge s4) as [-> _]; [|reflexivity|].
    { split; simpl; [rewrite MK; exact Hnd|].
      intros k' Hk'. rewrite MK. apply Hinv2. exact Hk'. }
    unfold loop_post. simpl. rewrite ME.
    split.
    { split.
      - intros k' Hk'. rewrite K4, MK.
        destruct (N4 k' Hk') as [H|H]; [apply Hinv2; exact H|].
        rewrite MK in H. exact H.
      - exists key. rewrite Hcur4, MC, K4, MK. auto. }
    split; [congruence|]. split; [reflexivity|]. split; [congruence|].
    exists ([Attempt key (Failure msg)] ++ mevs
              ++ [Print (CallFailed msg (retries + 1) max_retries)] ++ ievs).
      split.
      { rewrite T4, MT. simpl. rewrite <- !app_assoc. reflexivity. }
      rewrite !attempts_app, MA, (attempts_selection ievs A4). simpl.
      split; [lia|]. split; [lia|]. split; [repeat constructor|].
      exists msg. split; [reflexivity|]. right. reflexivity.
  - contradiction.
  - congruence.
Qed.

Lemma first_completion_unique fails c rest fails' c' :
  Forall is_failure fails → Forall is_failure fails' →
  fails ++ Completion c :: rest = fails' ++ [Completion c'] →
  rest = [] ∧ c = c'.
Proof.
  intros Hf. revert fails'. induction Hf as [|r fails Hr _ IH]; intros fails' Hf' Heq.
  - destruct Hf' as [|r' fails' Hr' _]; simpl in Heq.
    + injection Heq as -> <-. auto.
    + injection Heq as <- _. contradiction.
  - destruct Hf' as [|r' fails' Hr' Hf']; simpl in Heq.
    + injection Heq as -> Heq. destruct fails; discriminate.
    + injection Heq as _ Heq. eapply IH; eassumption.
Qed.

Lemma all_failures_no_completion fails c rest :
  ¬ Forall is_failure (fails ++ Completion c :: rest).
Proof.
  intros H. apply Forall_app in H as [_ H]. inversion H as [|? ? Hc _]. exact Hc.
Qed.

(** Claim C2.  Whenever [_initialize_client] returns a key, that key is a
    member of the pool, it is not in [invalid_keys] at the time of the
    return, it has been added to [used_keys], and it is the key of the
    current client. *)
Theorem initialize_client_returns_valid_used_key W s key s' :
  _initialize_client W s = (Ret key, s') →
  (key ∈ api_keys (client s)) ∧
  (key ∉ invalid_keys (client s')) ∧
  (key ∈ used_keys (client s')) ∧
  current_client (client s') = Some key.
Proof.
  intros Heq. destruct (initialize_client_spec W s) as [_ Hres].
  rewrite Heq in Hres. simpl in Hres. tauto.
Qed.

Lemma initialize_client_returns_valid_used_key_witness :
  (key_a ∈ [key_a; key_b]) ∧
  (key_a ∉ invalid_keys (client (_initialize_client (all_answered "ok")
      (State (Client [key_a; key_b] None ∅ ∅) 0 [] None [])).2)) ∧
  (key_a ∈ used_keys (client (_initialize_client (all_answered "ok")
      (State (Client [key_a; key_b] None ∅ ∅) 0 [] None [])).2)) ∧
  current_client (client (_initialize_client (all_answered "ok")
      (State (Client [key_a; key_b] None ∅ ∅) 0 [] None [])).2) = Some key_a.
Proof.
  apply (initialize_client_returns_valid_used_key (all_answered "ok")
           (State (Client [key_a; key_b] None ∅ ∅) 0 [] None []) key_a).
  vm_compute. reflexivity.
Defined.

Lemma initialize_client_all_rejected W s :
  pool_ok (client s) → every_probe_rejected W (client s) →
  ∃ s', _initialize_client W s = (Raise (AllInvalid (exc_info s)), s') ∧
        size (invalid_keys (client s')) = length (api_keys (client s)).
Proof.
  intros Hok Hrej.
  pose proof (initialize_client_spec W s) as [_ Hres].
  pose proof (initialize_client_total W s) as Htot.
  pose proof (initialize_client_raises W s) as Hraise.
  destruct (_initialize_client W s) as [[k|e| |] s'] eqn:Heq; simpl in *.
  - destruct Hres as (Hk & _ & _ & _ & t & Hv).
    destruct (Hrej t k Hk) as (msg & Hs & Ha). rewrite Hs in Hv. simpl in Hv.
    rewrite Ha in Hv. discriminate.
  - destruct (Hraise e s' Hok eq_refl) as [-> Hsz]. eauto.
  - contradiction.
  - congruence.
Qed.

(** Claim C3.  The pool is a list and [invalid_keys] a set, and line 65
    compares their lengths.  For the pool that lists one valid-format key
    twice, with every probe rejected, the construction of the client ends:
    the key is marked invalid, no key is available, the lengths 1 and 2
    differ, and [random.choice] of the empty list raises [IndexError]
    where the claim has [GroqAPIError "All API keys are invalid"]. *)
Theorem initialize_client_duplicate_pool_IndexError :
  (MultiGroqClient__init__ all_rejected [key_a; key_a] initial_state).1 =
  Raise (Exn IndexError "Cannot choose from an empty sequence" None None).
Proof. vm_compute. reflexivity. Qed.

(** Claim C1, amended.  For a client whose pool has no repeated key: a
    call makes at least one and at most as many attempts as the pool has
    keys.  If every attempt fails, the call raises either
    [GroqAPIError "All API keys failed or are invalid"] whose cause is
    the error of the last attempt, after exactly as many attempts as there
    are keys, or the selection's [GroqAPIError "All API keys are invalid"],
    which has no cause and whose context is the error of the last attempt.
    If an attempt is answered, it is the last one and its response is
    returned. *)
Theorem create_chat_completion_bounded W s :
  NoDup (api_keys (client s)) → wf_client (client s) →
  ∃ evs, trace (create_chat_completion W s).2 = trace s ++ evs ∧
    1 ≤ length (attempts evs) ∧
    length (attempts evs) ≤ length (api_keys (client s)) ∧
    (Forall is_failure (attempts evs) →
       ∃ msg, last (attempts evs) = Some (Failure msg) ∧
         let e := Exn LibraryError msg None (exc_info s) in
         ((create_chat_completion W s).1 = Raise (AllFailed e) ∧
          length (attempts evs) = length (api_keys (client s))) ∨
         (create_chat_completion W s).1 = Raise (AllInvalid (Some e))) ∧
    (∀ fails c rest,
       attempts evs = fails ++ Completion c :: rest →
       Forall is_failure fails →
       rest = [] ∧ (create_chat_completion W s).1 = Ret (Some (Response c))).
Proof.
  intros Hnd Hwf.
  assert (Hpos : 0 < length (api_keys (client s))).
  { destruct Hwf as [_ (k & _ & Hk)]. destruct (api_keys (client s)); simpl; [|lia].
    by apply elem_of_nil in Hk. }
  pose proof (loop_spec W (S (length (api_keys (client s))))
                (length (api_keys (client s))) 0 s Hnd Hwf eq_refl Hpos) as Hpost.
  change (completion_loop W _ _ 0 s) with (create_chat_completion W s) in Hpost.
  destruct Hpost as (_ & _ & _ & _ & evs & HT & L1 & L2 & HR); [lia|].
  exists evs. split; [exact HT|]. split; [exact L1|]. split; [lia|].
  destruct (create_chat_completion W s).1 as [[r|]|e| |]; simpl in HR;
    try contradiction.
  - destruct HR as (fails & Hatts & Hf). split.
    + intros Hall. rewrite Hatts in Hall.
      exfalso. eapply all_failures_no_completion. exact Hall.
    + intros fails' c rest Heq Hf'. rewrite Hatts in Heq. symmetry in Heq.
      destruct (first_completion_unique _ _ _ _ _ Hf' Hf Heq) as [-> ->].
      destruct r. auto.
  - destruct HR as (Hall & msg & Hlast & Hcase). split.
    + intros _. exists msg. split; [exact Hlast|]. simpl in *.
      destruct Hcase as [[-> Hlen] | ->]; [left|right; reflexivity].
      split; [reflexivity|lia].
    + intros fails c rest Heq _. rewrite Heq in Hall.
      exfalso. eapply all_failures_no_completion. exact Hall.
Qed.

Lemma two_key_client_wf : wf_client (client two_key_client).
Proof.
  split.
  - intros k Hk. simpl in Hk. by apply elem_of_empty in Hk.
  - exists key_a. split; [reflexivity|]. simpl. apply elem_of_cons. auto.
Defined.

Lemma two_key_client_NoDup : NoDup (api_keys (client two_key_client)).
Proof.
  simpl. apply NoDup_cons. split; [|apply NoDup_singleton].
  intros H. apply list_elem_of_singleton in H. discriminate H.
Defined.

Lemma create_chat_completion_bounded_witness :
  ∃ evs, trace (create_chat_completion (all_answered "[]") two_key_client).2 =
         trace two_key_client ++ evs ∧
    1 ≤ length (attempts evs) ∧
    length (attempts evs) ≤ length (api_keys (client two_key_client)) ∧
    (Forall is_failure (attempts evs) →
       ∃ msg, last (attempts evs) = Some (Failure msg) ∧
         let e := Exn LibraryError msg None (exc_info two_key_client) in
         ((create_chat_completion (all_answered "[]") two_key_client).1 =
            Raise (AllFailed e) ∧
          length (attempts evs) = length (api_keys (client two_key_client))) ∨
         (create_chat_completion (all_answered "[]") two_key_client).1 =
           Raise (AllInvalid (Some e))) ∧
    (∀ fails c rest,
       attempts evs = fails ++ Completion c :: rest →
       Forall is_failure fails →
       rest = [] ∧
       (create_chat_completion (all_answered "[]") two_key_client).1 =
         Ret (Some (Response c))).
Proof.
  apply (create_chat_completion_bounded (all_answered "[]") two_key_client).
  - exact two_key_client_NoDup.
  - exact two_key_client_wf.
Defined.

(** Claim C1 as stated fails.  With two keys and every request rejected
    as unauthenticated, the call makes one attempt and raises the
    selection's error, which wraps nothing; and with a pool that lists its
    key twice it raises [IndexError]. *)
Lemma create_chat_completion_selection_error_counterexample :
  (create_chat_completion all_rejected two_key_client).1 =
    Raise (AllInvalid (Some rejection)) ∧
  attempts (trace (create_chat_completion all_rejected two_key_client).2) =
    [Failure "Error code: 401 - invalid_api_key"] ∧
  (exhaustion_as_stated all_rejected two_key_client → False) ∧
  (create_chat_completion all_rejected duplicate_key_client).1 =
    Raise (EmptyChoice (Some rejection)).
Proof.
  split; [vm_compute; reflexivity|]. split; [vm_compute; reflexivity|].
  split; [|vm_compute; reflexivity].
  intros H.
  destruct (H [Attempt key_a (Failure "Error code: 401 - invalid_api_key");
               Print (InvalidKeyDetected key_a);
               Print (CallFailed "Error code: 401 - invalid_api_key" 1 2);
               Probe key_b (Failure "Error code: 401 - invalid_api_key");
               Print (ValidationFailed key_b)]) as [e He].
  - vm_compute. reflexivity.
  - repeat constructor.
  - vm_compute in He. discriminate.
Qed.

Lemma skip_ws_length s : len (skip_ws s) ≤ len s.
Proof.
  induction s as [|c s IH]; simpl; [lia|].
  destruct (is_ws c); simpl; lia.
Qed.

Lemma drop_length n s : len (drop n s) = len s - n.
Proof.
  revert s. induction n as [|n IH]; intros [|c s]; simpl; auto.
Qed.

Lemma startswith_length p s : startswith p s = true → len p ≤ len s.
Proof.
  revert s. induction p as [|a p IH]; intros [|b s]; simpl; try lia; try discriminate.
  intros H. apply andb_prop in H as [_ H]. apply IH in H. lia.
Qed.

Lemma scanstring_length_bounded n : ∀ s acc x r,
  len s ≤ n → scanstring s acc = POk x r → len r < len s.
Proof.
  induction n as [|n IH]; intros s acc x r Hn.
  - destruct s; [discriminate|simpl in Hn; lia].
  - destruct s as [|c s1]; simpl; [discriminate|]. simpl in Hn.
    destruct (is_char dquote c).
    { intros [= _ <-]. lia. }
    destruct (is_char backslash c).
    + destruct s1 as [|e s2]; [discriminate|].
      destruct (is_char "u" e).
      * destruct s2 as [|h1 [|h2 [|h3 [|h4 s3]]]]; try discriminate.
        destruct (hex_val h1), (hex_val h2), (hex_val h3), (hex_val h4);
          try discriminate.
        destruct (_ <? 256); [|discriminate].
        intros H. apply IH in H; simpl in *; lia.
      * destruct (unescape e); [|discriminate].
        intros H. apply IH in H; simpl in *; lia.
    + destruct (code c <? 32); [discriminate|].
      intros H. apply IH in H; simpl in *; lia.
Qed.

Lemma scanstring_length s acc x r :
  scanstring s acc = POk x r → len r < len s.
Proof. apply (scanstring_length_bounded (len s)). lia. Qed.

Lemma scanstring_fuel_bounded n : ∀ s acc,
  len s ≤ n → scanstring s acc ≠ PNoFuel.
Proof.
  induction n as [|n IH]; intros s acc Hn.
  - destruct s; [discriminate|simpl in Hn; lia].
  - destruct s as [|c s1]; simpl; [discriminate|]. simpl in Hn.
    destruct (is_char dquote c); [discriminate|].
    destruct (is_char backslash c).
    + destruct s1 as [|e s2]; [discriminate|].
      destruct (is_char "u" e).
      * destruct s2 as [|h1 [|h2 [|h3 [|h4 s3]]]]; try discriminate.
        destruct (hex_val h1), (hex_val h2), (hex_val h3), (hex_val h4);
          try discriminate.
        destruct (_ <? 256); [|discriminate].
        apply IH; simpl in *; lia.
      * destruct (unescape e); [|discriminate].
        apply IH; simpl in *; lia.
    + destruct (code c <? 32); [discriminate|].
      apply IH; lia.
Qed.

Lemma scanstring_fuel s acc : scanstring s acc ≠ PNoFuel.
Proof. apply (scanstring_fuel_bounded (len s)). lia. Qed.

Lemma span_digits_length s d r : span_digits s = (d, r) → len r ≤ len s.
Proof.
  revert d r. induction s as [|c s IH]; simpl; intros d r.
  - intros [= <- <-]. simpl. lia.
  - destruct (is_09 c).
    + destruct (span_digits s) as [d' r']. intros [= <- <-].
      specialize (IH d' r' eq_refl). lia.
    + intros [= <- <-]. simpl. lia.
Qed.

Lemma integer_part_length s i r : integer_part s = Some (i, r) → len r < len s.
Proof.
  unfold integer_part. destruct s as [|c s']; simpl; [discriminate|].
  destruct (is_char "-" c).
  - destruct s' as [|c2 s2]; [discriminate|].
    destruct (is_char "0" c2); [intros [= <- <-]; simpl; lia|].
    destruct (is_09 c2); [|discriminate].
    destruct (span_digits s2) as [d r'] eqn:Hsp. intros [= <- <-].
    apply span_digits_length in Hsp. simpl. lia.
  - destruct (is_char "0" c); [intros [= <- <-]; simpl; lia|].
    destruct (is_09 c); [|discriminate].
    destruct (span_digits s') as [d r'] eqn:Hsp. intros [= <- <-].
    apply span_digits_length in Hsp. simpl. lia.
Qed.

Lemma frac_part_length s f r : frac_part s = (f, r) → len r ≤ len s.
Proof.
  unfold frac_part. destruct s as [|c s']; [intros [= <- <-]; lia|].
  destruct (is_char "." c); [|intros [= <- <-]; lia].
  destruct (span_digits s') as [[|d0 d] r'] eqn:Hsp; intros [= <- <-]; [lia|].
  apply span_digits_length in Hsp. simpl. lia.
Qed.

Lemma exp_part_length s e r : exp_part s = (e, r) → len r ≤ len s.
Proof.
  unfold exp_part. destruct s as [|c s']; [intros [= <- <-]; lia|].
  destruct (_ || _); [|intros [= <- <-]; lia].
  destruct s' as [|c2 s2].
  - simpl. intros [= <- <-]. simpl. lia.
  - destruct (_ || _).
    + destruct (span_digits s2) as [[|d0 d] r'] eqn:Hsp; intros [= <- <-]; [lia|].
      apply span_digits_length in Hsp. simpl. lia.
    + destruct (span_digits (String c2 s2)) as [[|d0 d] r'] eqn:Hsp;
        intros [= <- <-]; [lia|].
      apply span_digits_length in Hsp. simpl in *. lia.
Qed.

Lemma match_number_length pf s v r :
  match_number pf s = Some (v, r) → len r < len s.
Proof.
  unfold match_number. destruct (integer_part s) as [[i r1]|] eqn:Hi; [|discriminate].
  destruct (frac_part r1) as [f r2] eqn:Hf.
  destruct (exp_part r2) as [e r3] eqn:He.
  apply integer_part_length in Hi. apply frac_part_length in Hf.
  apply exp_part_length in He.
  destruct f, e; intros [= <- <-]; lia.
Qed.

Section Fuel.

Variable pf : string -> string.

Lemma scanners_ok f :
  (∀ d, scanner_ok 1 (scan_once pf f d) f) ∧
  (∀ d, scanner_ok 3 (parse_array pf f d) f) ∧
  (∀ d acc, scanner_ok 2 (fun s => array_items pf f d s acc) f) ∧
  (∀ d, scanner_ok 3 (parse_object pf f d) f) ∧
  (∀ d acc, scanner_ok 2 (fun s => object_items pf f d s acc) f).
Proof.
  induction f as [|f (IHs & IHa & IHai & IHo & IHoi)].
  { unfold scanner_ok. repeat (split || intro); simpl in *; try discriminate; try lia. }
  assert (Hscan : ∀ d, scanner_ok 1 (scan_once pf (S f) d) (S f)).
  { intros d s. cbn [scan_once]. destruct s as [|c s'].
    { split; intros; discriminate. }
    destruct (is_char dquote c).
    { pose proof (scanstring_fuel s' EmptyString) as Hnf.
      destruct (scanstring s' EmptyString) as [x r| | | |] eqn:Hs; simpl;
        split; try (intros; discriminate); try (intros _; exfalso; apply Hnf; reflexivity).
      intros v r0 [= _ <-]. apply scanstring_length in Hs. simpl. lia. }
    destruct (is_char "{" c).
    { destruct (max_nesting <=? d); [split; intros; discriminate|].
      destruct (IHo (S d) s') as [H1 H2]. split.
      - intros v r H. apply H1 in H. simpl. lia.
      - intros Hf. apply H2. simpl in Hf. lia. }
    destruct (is_char "[" c).
    { destruct (max_nesting <=? d); [split; intros; discriminate|].
      destruct (IHa (S d) s') as [H1 H2]. split.
      - intros v r H. apply H1 in H. simpl. lia.
      - intros Hf. apply H2. simpl in Hf. lia. }
    destruct (startswith "null" (String c s')) eqn:H1.
    { apply startswith_length in H1. split; [|intros; discriminate].
      assert (Hd : len (drop 4 (String c s')) < len (String c s'))
        by (rewrite drop_length; simpl in *; lia).
      intros v r [= _ <-]. exact Hd. }
    destruct (startswith "true" (String c s')) eqn:H2.
    { apply startswith_length in H2. split; [|intros; discriminate].
      assert (Hd : len (drop 4 (String c s')) < len (String c s'))
        by (rewrite drop_length; simpl in *; lia).
      intros v r [= _ <-]. exact Hd. }
    destruct (startswith "false" (String c s')) eqn:H3.
    { apply startswith_length in H3. split; [|intros; discriminate].
      assert (Hd : len (drop 5 (String c s')) < len (String c s'))
        by (rewrite drop_length; simpl in *; lia).
      intros v r [= _ <-]. exact Hd. }
    destruct (match_number pf (String c s')) as [[v r]|] eqn:Hn.
    { apply match_number_length in Hn.
      destruct (int_digits (String c s')) as [digits|];
        [destruct (int_max_str_digits <? digits)|];
        (split; [|intros; discriminate]);
        try (intros; discriminate);
        intros v0 r0 [= _ <-]; exact Hn. }
    destruct (startswith "NaN" (String c s')) eqn:H4.
    { apply startswith_length in H4. split; [|intros; discriminate].
      assert (Hd : len (drop 3 (String c s')) < len (String c s'))
        by (rewrite drop_length; simpl in *; lia).
      intros v r [= _ <-]. exact Hd. }
    destruct (startswith "Infinity" (String c s')) eqn:H5.
    { apply startswith_length in H5. split; [|intros; discriminate].
      assert (Hd : len (drop 8 (String c s')) < len (String c s'))
        by (rewrite drop_length; simpl in *; lia).
      intros v r [= _ <-]. exact Hd. }
    destruct (startswith "-Infinity" (String c s')) eqn:H6.
    { apply startswith_length in H6. split; [|intros; discriminate].
      assert (Hd : len (drop 9 (String c s')) < len (String c s'))
        by (rewrite drop_length; simpl in *; lia).
      intros v r [= _ <-]. exact Hd. }
    split; intros; discriminate. }
  assert (Harr : ∀ d, scanner_ok 3 (parse_array pf (S f) d) (S f)).
  { intros d s. cbn [parse_array]. pose proof (skip_ws_length s) as Hw.
    destruct (skip_ws s) as [|c s'] eqn:Hsk.
    - destruct (IHai d [] EmptyString) as [H1 H2]. split.
      + intros v r H. apply H1 in H. simpl in H. lia.
      + intros Hf. apply H2. simpl. lia.
    - destruct (is_char "]" c).
      + split; [|intros; discriminate]. intros v r [= _ <-]. simpl in Hw. lia.
      + destruct (IHai d [] (String c s')) as [H1 H2]. split.
        * intros v r H. apply H1 in H. lia.
        * intros Hf. apply H2. lia. }
  assert (Hitems : ∀ d acc,
            scanner_ok 2 (fun s => array_items pf (S f) d s acc) (S f)).
  { intros d acc s. cbn [array_items]. destruct (IHs d s) as [S1 S2].
    destruct (scan_once pf f d s) as [v r| | | |] eqn:Hv; simpl.
    - specialize (S1 v r eq_refl). pose proof (skip_ws_length r) as Hw.
      destruct (skip_ws r) as [|c r'] eqn:Hsk; [split; intros; discriminate|].
      destruct (is_char "]" c).
      { split; [|intros; discriminate]. intros v0 r0 [= _ <-]. simpl in Hw. lia. }
      destruct (is_char "," c); [|split; intros; discriminate].
      pose proof (skip_ws_length r') as Hw'.
      destruct (IHai d (acc ++ [v]) (skip_ws r')) as [H1 H2]. split.
      + intros v0 r0 H. apply H1 in H. simpl in Hw. lia.
      + intros Hf. apply H2. simpl in Hw. lia.
    - split; intros; discriminate.
    - split; intros; discriminate.
    - split; intros; discriminate.
    - split; [intros; discriminate|]. intros Hf. exfalso. apply S2; [lia|reflexivity]. }
  assert (Hobj : ∀ d, scanner_ok 3 (parse_object pf (S f) d) (S f)).
  { intros d s. cbn [parse_object]. pose proof (skip_ws_length s) as Hw.
    destruct (skip_ws s) as [|c s'] eqn:Hsk.
    - destruct (IHoi d [] EmptyString) as [H1 H2]. split.
      + intros v r H. apply H1 in H. simpl in H. lia.
      + intros Hf. apply H2. simpl. lia.
    - destruct (is_char "}" c).
      + split; [|intros; discriminate]. intros v r [= _ <-]. simpl in Hw. lia.
      + destruct (IHoi d [] (String c s')) as [H1 H2]. split.
        * intros v r H. apply H1 in H. lia.
        * intros Hf. apply H2. lia. }
  assert (Hoitems : ∀ d acc,
            scanner_ok 2 (fun s => object_items pf (S f) d s acc) (S f)).
  { intros d acc s. cbn [object_items]. destruct s as [|q s1]; [split; intros; discriminate|].
    destruct (is_char dquote q); [|split; intros; discriminate].
    pose proof (scanstring_fuel s1 EmptyString) as Hnf.
    destruct (scanstring s1 EmptyString) as [key r| | | |] eqn:Hk; simpl;
      try (split; intros; discriminate);
      try (split; [intros; discriminate|intros _; exfalso; apply Hnf; reflexivity]).
    apply scanstring_length in Hk. pose proof (skip_ws_length r) as Hw.
    destruct (skip_ws r) as [|c r1] eqn:Hsk; [split; intros; discriminate|].
    destruct (is_char ":" c); [|split; intros; discriminate].
    pose proof (skip_ws_length r1) as Hw1.
    destruct (IHs d (skip_ws r1)) as [S1 S2].
    destruct (scan_once pf f d (skip_ws r1)) as [v r2| | | |] eqn:Hv; simpl.
    - specialize (S1 v r2 eq_refl). pose proof (skip_ws_length r2) as Hw2.
      destruct (skip_ws r2) as [|c2 r3] eqn:Hsk2; [split; intros; discriminate|].
      destruct (is_char "}" c2).
      { split; [|intros; discriminate]. intros v0 r0 [= _ <-]. simpl in *. lia. }
      destruct (is_char "," c2); [|split; intros; discriminate].
      pose proof (skip_ws_length r3) as Hw3.
      destruct (IHoi d (acc ++ [(key, v)]) (skip_ws r3)) as [H1 H2]. split.
      + intros v0 r0 H. apply H1 in H. simpl in *. lia.
      + intros Hf. apply H2. simpl in *. lia.
    - split; intros; discriminate.
    - split; intros; discriminate.
    - split; intros; discriminate.
    - split; [intros; discriminate|]. intros Hf. exfalso. simpl in *.
      apply S2; [lia|reflexivity]. }
  auto.
Qed.

(** [json.loads] always has enough fuel. *)
Lemma json_loads_fuel s : json_loads pf s ≠ LoadsNoFuel.
Proof.
  unfold json_loads.
  destruct (scanners_ok (3 * len s + 3)) as [Hs _].
  destruct (Hs 0 (skip_ws s)) as [_ Hf].
  pose proof (skip_ws_length s).
  destruct (scan_once pf _ 0 (skip_ws s)) as [v r| | | |] eqn:Hv.
  - destruct (skip_ws r); discriminate.
  - discriminate.
  - discriminate.
  - discriminate.
  - exfalso. apply Hf; [lia|reflexivity].
Qed.

End Fuel.

Lemma selection_client_event ev : selection_event ev → client_event ev.
Proof. destruct ev as [| | |[]]; simpl; auto. Qed.

Lemma marked_events e key s :
  files (marked e key s) = files s ∧ exc_info (marked e key s) = Some e ∧
  ∃ evs, trace (marked e key s) = trace s ++ evs ∧ Forall client_event evs.
Proof.
  unfold marked. destruct (_ || _); simpl; repeat split; auto.
  - eexists. split; [reflexivity|]. repeat constructor.
  - exists []. rewrite app_nil_r. auto.
Qed.

Lemma recover_quiet W fuel max_retries retries e saved s :
  (∀ s', quiet s' (completion_loop W fuel max_retries (retries + 1) s') ∧
         answered_by W (completion_loop W fuel max_retries (retries + 1) s').1) →
  let r := recover W fuel max_retries retries e saved s in
  (r.1 ≠ NoFuel ∧ r.1 ≠ Outside ∧ files r.2 = files s ∧ exc_info r.2 = saved ∧
   ∃ evs, trace r.2 = trace s ++ evs ∧ Forall client_event evs) ∧
  answered_by W r.1.
Proof.
  intros IH. unfold recover. destruct (retries + 1 <? max_retries).
  2:{ simpl. repeat split; try discriminate.
      exists []. rewrite app_nil_r. auto. }
  match goal with |- context [_initialize_client W ?s0] => set (s3 := s0) end.
  cbv zeta.
  pose proof (initialize_client_spec W s3) as [Hfr Hres].
  pose proof (initialize_client_total W s3) as Htot.
  destruct (_initialize_client W s3) as [[k|ge| |] s4]; subst s3; simpl in *.
  - destruct Hfr as [_ _ _ _ F4 (ievs & T4 & A4) _]. simpl in *.
    match goal with |- context [completion_loop _ _ _ _ ?s0] =>
      destruct (IH s0) as ((N1 & N2 & F5 & E5 & evs & T5 & A5) & AB) end.
    simpl in *. split; [|exact AB]. repeat split; auto; try congruence.
    eexists. split.
    { rewrite T5, T4, <- !app_assoc. reflexivity. }
    repeat (apply Forall_app; split); auto; try (repeat constructor).
    eapply Forall_impl; [exact A4|]. apply selection_client_event.
  - destruct Hfr as [_ _ _ _ F4 (ievs & T4 & A4) _]. simpl in *.
    repeat split; try discriminate; auto.
    eexists. split.
    { rewrite T4, <- !app_assoc. reflexivity. }
    apply Forall_app; split; [repeat constructor|].
    eapply Forall_impl; [exact A4|]. apply selection_client_event.
  - contradiction.
  - congruence.
Qed.

Lemma loop_quiet W fuel : ∀ max_retries retries s,
  max_retries - retries < fuel →
  quiet s (completion_loop W fuel max_retries retries s) ∧
  answered_by W (completion_loop W fuel max_retries retries s).1.
Proof.
  induction fuel as [|fuel IH]; intros max_retries retries s Hfuel; [lia|].
  destruct (retries <? max_retries) eqn:Hlt.
  2:{ rewrite loop_step_done by exact Hlt. repeat split; try discriminate.
      exists []. rewrite app_nil_r. auto. }
  assert (Hnext : ∀ s',
             quiet s' (completion_loop W fuel max_retries (retries + 1) s') ∧
             answered_by W (completion_loop W fuel max_retries (retries + 1) s').1).
  { intros s'. apply IH. apply Nat.ltb_lt in Hlt. lia. }
  destruct (current_client (client s)) as [key|] eqn:Hcur.
  - rewrite (loop_step_some W fuel max_retries retries s key Hcur Hlt).
    destruct (service W (clock s) key) as [c|msg] eqn:Hr.
    + split; [|simpl; eauto].
      repeat split; try discriminate.
      eexists. split; [reflexivity|]. repeat constructor.
    + cbv zeta. set (e := Exn LibraryError msg None (exc_info s)).
      destruct (marked_events e key (after_attempt key (Failure msg) s))
        as (MF & ME & mevs & MT & MA).
      destruct (recover_quiet W fuel max_retries retries e (exc_info s)
                  (marked e key (after_attempt key (Failure msg) s)) Hnext)
        as ((N1 & N2 & F & E & evs & T & A) & AB).
      simpl in MF, MT. split; [|exact AB].
      split; [exact N1|]. split; [exact N2|]. split; [congruence|].
      split; [exact E|].
      eexists. split.
      { rewrite T, MT. rewrite <- !app_assoc. reflexivity. }
      repeat (apply Forall_app; split); auto. repeat constructor.
  - rewrite (loop_step_none W fuel max_retries retries s Hcur Hlt). cbv zeta.
    match goal with |- context [recover _ _ _ _ ?e ?sv ?s0] =>
      destruct (recover_quiet W fuel max_retries retries e sv s0 Hnext)
        as ((N1 & N2 & F & E & evs & T & A) & AB) end.
    split; [|exact AB].
    repeat split; auto. exists evs. split; [exact T|exact A].
Qed.

Lemma create_chat_completion_quiet W s :
  quiet s (create_chat_completion W s) ∧
  answered_by W (create_chat_completion W s).1.
Proof.
  change (create_chat_completion W s)
    with (completion_loop W (S (length (api_keys (client s))))
            (length (api_keys (client s))) 0 s).
  apply loop_quiet. lia.
Qed.

Lemma restored_same s : restored (exc_info s) s = s.
Proof. destruct s. reflexivity. Qed.

(** [process_with_llm] by the outcome of the completion call. *)
Lemma process_with_llm_unfold W pf doc s :
  process_with_llm W pf doc s =
  match create_chat_completion W s with
  | (Ret (Some r), s1) =>
      match json_loads pf (message_content r) with
      | Loaded v => (Ret v, s1)
      | JSONDecodeError _ => (Ret (fallback_record (message_content r)), s1)
      | LoadsValueError msg => (Raise (Exn ValueError msg None (exc_info s1)), s1)
      | OutsideModel => (Outside, s1)
      | LoadsNoFuel => (NoFuel, s1)
      end
  | (Ret None, s1) =>
      (Raise (Exn AttributeError "'NoneType' object has no attribute 'choices'"
                  None (exc_info s1)), s1)
  | (Raise e, s1) =>
      if is_GroqAPIError e then (Ret (error_record e), s1) else (Raise e, s1)
  | (Outside, s1) => (Outside, s1)
  | (NoFuel, s1) => (NoFuel, s1)
  end.
Proof.
  unfold process_with_llm. unfold_monad.
  destruct (create_chat_completion W s) as [[[r|]|e| |] s1]; try reflexivity.
  - destruct (json_loads pf (message_content r)); reflexivity.
  - destruct (is_GroqAPIError e); [|reflexivity].
    destruct s1. reflexivity.
Qed.

(** Claim C7, amended.  When the completion call returns a response on
    whose body [json.loads] raises [JSONDecodeError], [process_with_llm]
    raises nothing: it returns the dictionary with the one key
    [raw_llm_output] bound to the whole body, in the state the completion
    call left. *)
Theorem process_with_llm_fallback W pf doc s body s1 msg :
  create_chat_completion W s = (Ret (Some (Response body)), s1) →
  json_loads pf body = JSONDecodeError msg →
  process_with_llm W pf doc s = (Ret (PDict [("raw_llm_output", PStr body)]), s1).
Proof.
  intros Hc Hj. rewrite process_with_llm_unfold, Hc. simpl. rewrite Hj. reflexivity.
Qed.

Lemma process_with_llm_fallback_witness :
  process_with_llm (all_answered "I cannot process this") (fun lit => lit)
    no_document one_key_client =
  (Ret (PDict [("raw_llm_output", PStr "I cannot process this")]),
   State (Client [key_a] (Some key_a) {[key_a]} ∅) 1
         [Attempt key_a (Completion "I cannot process this")] None []).
Proof.
  apply (process_with_llm_fallback (all_answered "I cannot process this")
           (fun lit => lit) no_document one_key_client
           "I cannot process this" _ "Expecting value").
  - vm_compute. reflexivity.
  - vm_compute. reflexivity.
Defined.

(** Claim C7 as stated fails for a body that is not JSON and on which
    [json.loads] raises an error other than [JSONDecodeError].  The body
    that opens an array and goes on with 4300 digits is rejected with
    [JSONDecodeError]; with 4301 digits the conversion of the integer
    raises [ValueError] first, which no [except] clause of
    [process_with_llm] catches: the call raises and the document fails. *)
Lemma long_integer_is_not_caught_counterexample :
  json_loads (fun lit => lit) (open_array_of_digits 4300) =
    JSONDecodeError "Expecting ',' delimiter" ∧
  json_loads (fun lit => lit) (open_array_of_digits 4301) =
    LoadsValueError (int_limit_message 4301) ∧
  process_with_llm (all_answered (open_array_of_digits 4301)) (fun lit => lit)
    no_document one_key_client =
    (Raise (Exn ValueError (int_limit_message 4301) None None),
     State (Client [key_a] (Some key_a) {[key_a]} ∅) 1
           [Attempt key_a (Completion (open_array_of_digits 4301))] None []) ∧
  (fallback_as_stated (all_answered (open_array_of_digits 4301)) (fun lit => lit)
     no_document one_key_client (open_array_of_digits 4301) → False).
Proof.
  assert (Hrun :
    process_with_llm (all_answered (open_array_of_digits 4301)) (fun lit => lit)
      no_document one_key_client =
    (Raise (Exn ValueError (int_limit_message 4301) None None),
     State (Client [key_a] (Some key_a) {[key_a]} ∅) 1
           [Attempt key_a (Completion (open_array_of_digits 4301))] None [])).
  { vm_compute. reflexivity. }
  split; [vm_compute; reflexivity|]. split; [vm_compute; reflexivity|].
  split; [exact Hrun|].
  intros [s' H]. rewrite Hrun in H. discriminate H.
Qed.

Lemma driver_lines_app l1 l2 :
  driver_lines (l1 ++ l2) = driver_lines l1 ++ driver_lines l2.
Proof. apply omap_app. Qed.

Lemma driver_lines_client evs : Forall client_event evs → driver_lines evs = [].
Proof.
  induction 1 as [|ev evs Hev _ IH]; [reflexivity|].
  unfold driver_lines in *.
  destruct ev as [| | |[]]; simpl in *; try contradiction; exact IH.
Qed.

Lemma calm_bind {A B} ps (m : M A) (f : A → M B) s :
  calm [] s (m s) → (∀ a s1, calm ps s1 (f a s1)) → calm ps s ((m ≫= f) s).
Proof.
  intros (N1 & N2 & E & evs & T & Hev) Hf.
  unfold mbind, M_bind, bind.
  destruct (m s) as [[a|e| |] s1]; simpl in *; try congruence.
  - destruct (Hf a s1) as (N1' & N2' & E' & evs' & T' & Hev').
    repeat split; auto; try congruence.
    exists (evs ++ evs'). split; [rewrite T', T, app_assoc; reflexivity|].
    rewrite driver_lines_app, Hev. exact Hev'.
  - repeat split; try discriminate; auto. eauto.
Qed.

Lemma quiet_calm {A} s (r : outcome A * state) : quiet s r → calm [] s r.
Proof.
  intros (N1 & N2 & _ & E & evs & T & Hev). repeat split; auto.
  exists evs. split; [exact T|].
  rewrite (driver_lines_client evs Hev). destruct r.1; reflexivity.
Qed.

Lemma calm_here {A} (o : outcome A) s : o ≠ NoFuel → o ≠ Outside → calm [] s (o, s).
Proof.
  intros N1 N2. repeat split; auto. exists []. rewrite app_nil_r.
  split; [reflexivity|]. destruct o; reflexivity.
Qed.

Lemma extract_from_pdf_calm doc s : calm [] s (extract_from_pdf doc s).
Proof.
  unfold extract_from_pdf. unfold_monad.
  destruct doc as [msg|pages]; simpl.
  - destruct s. apply calm_here; discriminate.
  - destruct (extract_pages pages _) as [st|msg]; simpl.
    + apply calm_here; discriminate.
    + destruct s. apply calm_here; discriminate.
Qed.

(** What [extract_from_pdf] returns, it returns in the state it was
    called in. *)
Lemma extract_from_pdf_returns doc s d :
  (extract_from_pdf doc s).1 = Ret d → extract_from_pdf doc s = (Ret d, s).
Proof.
  unfold extract_from_pdf. unfold_monad.
  destruct doc as [msg|pages]; simpl.
  - discriminate.
  - destruct (extract_pages pages _) as [st|msg]; simpl.
    + intros [= <-]. reflexivity.
    + discriminate.
Qed.

Lemma process_with_llm_calm W pf doc s :
  replies_in_model W pf → calm [] s (process_with_llm W pf doc s).
Proof.
  intros Hin. rewrite process_with_llm_unfold.
  destruct (create_chat_completion_quiet W s) as [Hq Hans].
  apply quiet_calm in Hq. destruct Hq as (N1 & N2 & E & evs & T & Hev).
  destruct (create_chat_completion W s) as [[[r|]|e| |] s1]; simpl in *;
    try congruence.
  - destruct Hans as (t & k & Hr). specialize (Hin t k _ Hr).
    pose proof (json_loads_fuel pf (message_content r)) as Hfuel.
    destruct (json_loads pf (message_content r)); try congruence;
      repeat split; simpl; try discriminate; eauto.
  - repeat split; simpl; try discriminate; eauto.
  - destruct (is_GroqAPIError e); repeat split; simpl; try discriminate; eauto.
Qed.

Lemma save_json_calm W path v s : calm [] s (save_json W path v s).
Proof.
  unfold save_json, write_file. unfold_monad. simpl.
  destruct (fs_write W (clock s) path); repeat split; simpl; try discriminate;
    exists []; rewrite app_nil_r; auto.
Qed.

Lemma print_calm p s :
  driver_line (Print p) = Some p → calm [p] s (print p s).
Proof.
  intros Hp. unfold print, emit. repeat split; simpl; try discriminate.
  exists [Print p]. split; [reflexivity|].
  destruct p; try discriminate Hp; reflexivity.
Qed.

(** An operation on the temporary folder, by the answer of the file
    system. *)
Lemma temp_op_ok W path s :
  fs_temp W (clock s) path = None → temp_op W path s = (Ret tt, ticked s).
Proof. intros H. unfold temp_op. unfold_monad. simpl. rewrite H. reflexivity. Qed.

Lemma temp_op_raises W path s msg :
  fs_temp W (clock s) path = Some msg →
  temp_op W path s = (Raise (Exn LibraryError msg None (exc_info s)), ticked s).
Proof. intros H. unfold temp_op. unfold_monad. simpl. rewrite H. reflexivity. Qed.

Lemma batch_report_app l1 p1 l2 p2 :
  batch_report l1 p1 → batch_report l2 p2 → batch_report (l1 ++ l2) (p1 ++ p2).
Proof.
  induction 1; intros H2; simpl; [exact H2| |]; constructor; auto.
Qed.

(** The work on one member, from the line [Processing: ...] to the end of
    the [try] statement. *)
Lemma document_spec W pf out file doc s0 :
  replies_in_model W pf →
  ∃ s1 p,
    try_except
      (resume_data ← extract_from_pdf doc;
       llm_processed_data ← process_with_llm W pf resume_data;
       save_json W (os_path_join out (splitext_root file +:+ ".json"))
         llm_processed_data;;
       print (Saved (splitext_root file +:+ ".json")))
      any_Exception
      (fun e => print (ErrorProcessing file (exn_msg e))) s0 = (Ret tt, s1) ∧
    exc_info s1 = exc_info s0 ∧
    driver_lines (trace s1) = driver_lines (trace s0) ++ [p] ∧
    (p = Saved (splitext_root file +:+ ".json") ∨
     ∃ msg, p = ErrorProcessing file msg).
Proof.
  intros Hin. unfold try_except.
  match goal with |- context [(?m ≫= ?f) s0] =>
    assert (Hbody : calm [Saved (splitext_root file +:+ ".json")] s0
                      ((m ≫= f) s0)) end.
  { apply calm_bind; [apply extract_from_pdf_calm|]. intros resume_data s1.
    apply calm_bind; [apply process_with_llm_calm; exact Hin|]. intros v s2.
    apply calm_bind; [apply save_json_calm|]. intros _ s3.
    apply print_calm. reflexivity. }
  destruct Hbody as (N1 & N2 & E & evs & T & Hev).
  match goal with |- context [(?m ≫= ?f) s0] =>
    destruct ((m ≫= f) s0) as [[[]|e| |] s1] end; simpl in *; try congruence.
  - exists s1, (Saved (splitext_root file +:+ ".json")).
    split; [reflexivity|]. split; [exact E|].
    split; [|left; reflexivity].
    rewrite T, driver_lines_app, Hev. reflexivity.
  - eexists. exists (ErrorProcessing file (exn_msg e)).
    split; [reflexivity|]. simpl. split; [exact E|].
    split; [|right; eauto].
    rewrite T, !driver_lines_app, Hev, app_nil_r. reflexivity.
Qed.

(** One member of the archive: when the temporary folder works, whatever
    happens to the document, the loop goes on. *)
Lemma process_one_spec W pf out file doc s :
  replies_in_model W pf → temps_succeed W →
  ∃ s', process_one W pf out file doc s = (Ret tt, s') ∧
        exc_info s' = exc_info s ∧
        ∃ ps, driver_lines (trace s') = driver_lines (trace s) ++ ps ∧
              batch_report (if is_pdf file then [file] else []) ps.
Proof.
  intros Hin Htemp. unfold process_one, is_pdf.
  destruct (endswith ".pdf" (lower file)).
  2:{ exists s. split; [reflexivity|]. split; [reflexivity|].
      exists []. rewrite app_nil_r. split; [reflexivity|constructor]. }
  unfold mbind at 1, M_bind at 1, bind at 1.
  rewrite (temp_op_ok W file s (Htemp _ _)).
  unfold mbind at 1, M_bind at 1, bind at 1. unfold print at 1, emit at 1.
  cbn [ticked client clock trace exc_info files].
  fold (started file s).
  unfold mbind at 1, M_bind at 1, bind at 1.
  destruct (document_spec W pf out file doc (started file s) Hin)
    as (s1 & p & -> & E & T & Hp).
  rewrite (temp_op_ok W _ s1 (Htemp _ _)).
  eexists. split; [reflexivity|]. simpl. split; [exact E|].
  exists [Processing file; p]. split.
  - rewrite T. simpl. rewrite driver_lines_app, <- app_assoc. reflexivity.
  - destruct Hp as [->|(msg & ->)]; repeat constructor.
Qed.

Lemma process_members_spec W pf out archive : ∀ s,
  replies_in_model W pf → temps_succeed W →
  ∃ s', process_members W pf out archive s = (Ret tt, s') ∧
        exc_info s' = exc_info s ∧
        ∃ ps, driver_lines (trace s') = driver_lines (trace s) ++ ps ∧
              batch_report (List.filter is_pdf (map fst archive)) ps.
Proof.
  induction archive as [|[file doc] archive IH]; intros s Hin Htemp.
  - exists s. split; [reflexivity|]. split; [reflexivity|].
    exists []. rewrite app_nil_r. split; [reflexivity|constructor].
  - cbn [process_members]. unfold mbind, M_bind, bind.
    destruct (process_one_spec W pf out file doc s Hin Htemp)
      as (s1 & -> & E1 & ps1 & T1 & R1).
    destruct (IH s1 Hin Htemp) as (s2 & -> & E2 & ps2 & T2 & R2).
    exists s2. split; [reflexivity|]. split; [congruence|].
    exists (ps1 ++ ps2). split; [rewrite T2, T1, app_assoc; reflexivity|].
    cbn [map fst List.filter].
    destruct (is_pdf file);
      [apply (batch_report_app [file])|apply (batch_report_app [])]; assumption.
Qed.

Lemma process_all_resumes_spec W pf out archive s :
  replies_in_model W pf → temps_succeed W →
  ∃ s', process_all_resumes W pf out archive s = (Ret tt, s') ∧
        ∃ ps, driver_lines (trace s') = driver_lines (trace s) ++ ps ∧
              batch_report (List.filter is_pdf (map fst archive)) ps.
Proof.
  intros Hin Htemp. unfold process_all_resumes.
  unfold mbind at 1, M_bind at 1, bind at 1.
  rewrite (temp_op_ok W _ s (Htemp _ _)).
  unfold mbind at 1, M_bind at 1, bind at 1.
  destruct (process_members_spec W pf out archive (ticked s) Hin Htemp)
    as (s1 & -> & _ & ps & T & R).
  rewrite (temp_op_ok W _ s1 (Htemp _ _)).
  eexists. split; [reflexivity|]. exists ps. split; [exact T|exact R].
Qed.

(** Pool exhaustion inside one document becomes a record. *)
Lemma process_with_llm_error_record W pf doc s e s1 :
  create_chat_completion W s = (Raise e, s1) → is_GroqAPIError e = true →
  process_with_llm W pf doc s = (Ret (error_record e), s1).
Proof.
  intros Hc He. rewrite process_with_llm_unfold, Hc, He. reflexivity.
Qed.

(** The loop at a member whose document is extracted and then handed to
    [process_with_llm], which returns [v]: the record is written, or the
    error of the write is printed, and the loop goes on with the members
    that remain. *)
Lemma process_members_record W pf out file doc rest s resume_data v s1 :
  is_pdf file = true →
  fs_temp W (clock s) file = None →
  extract_from_pdf doc (started file s) = (Ret resume_data, started file s) →
  process_with_llm W pf resume_data (started file s) = (Ret v, s1) →
  fs_temp W (S (clock s1)) (os_path_join temp_folder file) = None →
  process_members W pf out ((file, doc) :: rest) s =
  process_members W pf out rest
    (match fs_write W (clock s1)
             (os_path_join out (splitext_root file +:+ ".json")) with
     | None =>
         finished (Saved (splitext_root file +:+ ".json"))
           (dict_set (os_path_join out (splitext_root file +:+ ".json")) v
                     (files s1)) s1
     | Some msg => finished (ErrorProcessing file msg) (files s1) s1
     end).
Proof.
  intros Hpdf Hextract Hdoc Hllm Hremove.
  cbn [process_members]. unfold process_one. unfold is_pdf in Hpdf. rewrite Hpdf.
  unfold mbind at 1, M_bind at 1, bind at 1.
  unfold mbind at 1, M_bind at 1, bind at 1.
  rewrite (temp_op_ok W file s Hextract).
  unfold mbind at 1, M_bind at 1, bind at 1. unfold print at 1, emit at 1.
  cbn [ticked client clock trace exc_info files].
  fold (started file s).
  unfold mbind at 1, M_bind at 1, bind at 1.
  unfold try_except at 1.
  unfold mbind at 1, M_bind at 1, bind at 1. rewrite Hdoc.
  unfold mbind at 1, M_bind at 1, bind at 1. rewrite Hllm.
  unfold save_json, write_file. unfold_monad.
  cbn [client clock trace exc_info files].
  destruct (fs_write W (clock s1) _) as [msg|].
  - cbn [client clock trace exc_info files exn_msg].
    unfold temp_op. unfold_monad. cbn [client clock trace exc_info files].
    rewrite Hremove. reflexivity.
  - cbn [client clock trace exc_info files].
    unfold temp_op. unfold_monad. cbn [client clock trace exc_info files].
    rewrite Hremove. reflexivity.
Qed.

(** Claim C4, amended.  A [GroqAPIError] of the completion call (the pool
    is exhausted or every key is invalid) does not leave
    [process_with_llm]: it is caught there and returned as the record
    [{error: "LLM processing failed: ..."}].  When the operations on the
    temporary folder succeed, the batch is not aborted.  The loop writes
    that record as the JSON output of the document and prints
    [Saved: ...], or, when the file system refuses the output file, prints
    the error of the write and saves nothing; either way it goes on with
    the members that remain.  And [process_all_resumes] returns normally
    for every archive, having printed for each member whose name ends in
    [.pdf], in order, the line [Processing: ...] followed by [Saved: ...]
    or by [Error processing ...]. *)
Theorem batch_continues_after_exhaustion
    W pf out file doc rest s resume_data e s1 :
  replies_in_model W pf → temps_succeed W →
  is_pdf file = true →
  (extract_from_pdf doc (started file s)).1 = Ret resume_data →
  create_chat_completion W (started file s) = (Raise e, s1) →
  is_GroqAPIError e = true →
  process_with_llm W pf resume_data (started file s) =
    (Ret (PDict [("error", PStr ("LLM processing failed: " +:+ exn_msg e))]),
     s1) ∧
  process_members W pf out ((file, doc) :: rest) s =
    process_members W pf out rest
      (match fs_write W (clock s1)
               (os_path_join out (splitext_root file +:+ ".json")) with
       | None =>
           finished (Saved (splitext_root file +:+ ".json"))
             (dict_set (os_path_join out (splitext_root file +:+ ".json"))
                (PDict [("error",
                         PStr ("LLM processing failed: " +:+ exn_msg e))])
                (files s1)) s1
       | Some msg => finished (ErrorProcessing file msg) (files s1) s1
       end) ∧
  ∀ archive s0,
    ∃ s', process_all_resumes W pf out archive s0 = (Ret tt, s') ∧
      ∃ ps, driver_lines (trace s') = driver_lines (trace s0) ++ ps ∧
            batch_report (List.filter is_pdf (map fst archive)) ps.
Proof.
  intros Hin Htemp Hpdf Hdoc Hc He.
  assert (Hllm : process_with_llm W pf resume_data (started file s) =
                 (Ret (error_record e), s1))
    by (apply process_with_llm_error_record; assumption).
  split; [exact Hllm|]. split.
  - apply (process_members_record W pf out file doc rest s resume_data
             (error_record e) s1 Hpdf (Htemp _ _)
             (extract_from_pdf_returns _ _ _ Hdoc) Hllm (Htemp _ _)).
  - intros archive s0. apply process_all_resumes_spec; assumption.
Qed.

Lemma first_call_fails_in_model : replies_in_model first_call_fails (fun lit => lit).
Proof.
  intros t k c. simpl. destruct (t <=? 2); [discriminate|].
  intros [= <-]. vm_compute. discriminate.
Defined.

Lemma batch_continues_after_exhaustion_witness :
  process_with_llm first_call_fails (fun lit => lit)
    (Extracted "EDUCATION" (Contact [] [] [] []) [Section_ "EDUCATION" []])
    (started "a.pdf" (ticked one_key_client)) =
    (Ret (PDict [("error",
                  PStr ("LLM processing failed: " +:+
                        "All API keys failed or are invalid"))]),
     State (Client [key_a] (Some key_a) {[key_a]} ∅) 3
           [Print (Processing "a.pdf");
            Attempt key_a (Failure "rate limit exceeded")] None []) ∧
  process_members first_call_fails (fun lit => lit) "processed_resumes"
    two_resumes (ticked one_key_client) =
    process_members first_call_fails (fun lit => lit) "processed_resumes"
      [("b.pdf", Pages [PageText (Some "EDUCATION")])]
      (State (Client [key_a] (Some key_a) {[key_a]} ∅) 5
         [Print (Processing "a.pdf");
          Attempt key_a (Failure "rate limit exceeded");
          Print (Saved "a.json")] None
         [("processed_resumes/a.json",
           PDict [("error",
                   PStr "LLM processing failed: All API keys failed or are invalid")])]) ∧
  ∀ archive s0,
    ∃ s', process_all_resumes first_call_fails (fun lit => lit)
            "processed_resumes" archive s0 = (Ret tt, s') ∧
      ∃ ps, driver_lines (trace s') = driver_lines (trace s0) ++ ps ∧
            batch_report (List.filter is_pdf (map fst archive)) ps.
Proof.
  apply (batch_continues_after_exhaustion first_call_fails (fun lit => lit)
           "processed_resumes" "a.pdf" (Pages [PageText (Some "EDUCATION")])
           [("b.pdf", Pages [PageText (Some "EDUCATION")])]
           (ticked one_key_client)
           (Extracted "EDUCATION" (Contact [] [] [] []) [Section_ "EDUCATION" []])
           (AllFailed (Exn LibraryError "rate limit exceeded" None None))
           (State (Client [key_a] (Some key_a) {[key_a]} ∅) 3
              [Print (Processing "a.pdf");
               Attempt key_a (Failure "rate limit exceeded")] None [])).
  - exact first_call_fails_in_model.
  - intros t path. reflexivity.
  - reflexivity.
  - vm_compute. reflexivity.
  - vm_compute. reflexivity.
  - reflexivity.
Defined.

(** Claim C4 as stated fails.  With one key whose first request fails, the
    completion call of [a.pdf] exhausts the pool; the error is saved as the
    record of [a.pdf], and [b.pdf] is processed and saved after it. *)
Lemma exhaustion_does_not_abort_counterexample :
  processed (trace (process_all_resumes first_call_fails (fun lit => lit)
                      "processed_resumes" two_resumes one_key_client).2) =
    ["a.pdf"; "b.pdf"] ∧
  (create_chat_completion first_call_fails
     (started "a.pdf" (ticked one_key_client))).1 =
    Raise (AllFailed (Exn LibraryError "rate limit exceeded" None None)) ∧
  files (process_all_resumes first_call_fails (fun lit => lit)
           "processed_resumes" two_resumes one_key_client).2 =
    [("processed_resumes/a.json",
      PDict [("error",
              PStr "LLM processing failed: All API keys failed or are invalid")]);
     ("processed_resumes/b.json", PList [])] ∧
  (exhaustion_aborts_batch first_call_fails (fun lit => lit) "processed_resumes"
      "a.pdf" (Pages [PageText (Some "EDUCATION")])
      [("b.pdf", Pages [PageText (Some "EDUCATION")])] one_key_client → False).
Proof.
  split; [vm_compute; reflexivity|]. split; [vm_compute; reflexivity|].
  split; [vm_compute; reflexivity|].
  intros H. unfold exhaustion_aborts_batch in H.
  assert (Hp : processed (trace (process_all_resumes first_call_fails
                 (fun lit => lit) "processed_resumes"
                 [("a.pdf", Pages [PageText (Some "EDUCATION")]);
                  ("b.pdf", Pages [PageText (Some "EDUCATION")])]
                 one_key_client).2) = ["a.pdf"; "b.pdf"]).
  { vm_compute. reflexivity. }
  rewrite Hp in H.
  assert (Hq : ["a.pdf"; "b.pdf"] = processed (trace one_key_client) ++ ["a.pdf"]).
  { apply H. eexists. eexists. split; [vm_compute; reflexivity|reflexivity]. }
  vm_compute in Hq. discriminate Hq.
Qed.

Example batch_after_exhaustion_lines :
  driver_lines
    (trace (process_all_resumes first_call_fails (fun lit => lit)
              "processed_resumes" two_resumes one_key_client).2) =
  [Processing "a.pdf"; Saved "a.json"; Processing "b.pdf"; Saved "b.json"].
Proof. vm_compute. reflexivity. Qed.

(** Claim C6.  For the response body that is a fenced block around the
    array with the one record [{"Name": "X"}]: [process_with_llm] does not
    parse it and returns it under [raw_llm_output]; [process_resumes],
    reading that record from a [.json] file, finds the fenced block, parses
    the array and returns the frame of the twelve required columns with one
    row, whose [Name] is ["X"] and whose other cells are empty strings. *)
Theorem fenced_output_gives_one_record W pf doc s s1 filename s2 :
  create_chat_completion W s = (Ret (Some (Response fenced_body)), s1) →
  endswith ".json" filename = true →
  process_with_llm W pf doc s =
    (Ret (PDict [("raw_llm_output", PStr fenced_body)]), s1) ∧
  (sscript.process_resumes pf
     [(filename, PDict [("raw_llm_output", PStr fenced_body)])] s2).1 =
  Ret (Frame required_columns [record_X]).
Proof.
  intros Hc Hname. split.
  - assert (Hj : json_loads pf fenced_body = JSONDecodeError "Expecting value")
      by (vm_compute; reflexivity).
    rewrite process_with_llm_unfold, Hc. cbn [message_content].
    rewrite Hj. reflexivity.
  - unfold sscript.process_resumes, sscript.load_all.
    rewrite Hname. vm_compute. reflexivity.
Qed.

Lemma fenced_output_gives_one_record_witness :
  process_with_llm (all_answered fenced_body) (fun lit => lit) no_document
    one_key_client =
    (Ret (PDict [("raw_llm_output", PStr fenced_body)]),
     State (Client [key_a] (Some key_a) {[key_a]} ∅) 1
           [Attempt key_a (Completion fenced_body)] None []) ∧
  (sscript.process_resumes (fun lit => lit)
     [("cv.json", PDict [("raw_llm_output", PStr fenced_body)])]
     initial_state).1 =
  Ret (Frame required_columns [record_X]).
Proof.
  apply (fenced_output_gives_one_record (all_answered fenced_body)
           (fun lit => lit) no_document one_key_client _ "cv.json" initial_state).
  - vm_compute. reflexivity.
  - vm_compute. reflexivity.
Defined.

Lemma append_assoc_snoc cur c l :
  (cur +:+ String c EmptyString) +:+ l = cur +:+ String c l.
Proof.
  induction cur as [|x cur IH]; step_append; [reflexivity|]. f_equal. exact IH.
Qed.

Lemma append_empty_r cur : cur +:+ EmptyString = cur.
Proof.
  induction cur as [|x cur IH]; step_append; [reflexivity|]. f_equal. exact IH.
Qed.

Lemma split_on_line l : ∀ cur rest,
  single_line l = true →
  split_on newline cur (l +:+ String newline rest) =
  (cur +:+ l) :: split_on newline EmptyString rest.
Proof.
  induction l as [|c l IH]; intros cur rest Hl; step_append; simpl.
  - rewrite append_empty_r. reflexivity.
  - simpl in Hl. apply andb_prop in Hl as [Hc Hl].
    apply negb_true_iff in Hc. rewrite Hc. rewrite IH by exact Hl.
    rewrite append_assoc_snoc. reflexivity.
Qed.

Lemma split_on_last l : ∀ cur,
  single_line l = true → split_on newline cur l = [cur +:+ l].
Proof.
  induction l as [|c l IH]; intros cur Hl; step_append; simpl.
  - rewrite append_empty_r. reflexivity.
  - simpl in Hl. apply andb_prop in Hl as [Hc Hl].
    apply negb_true_iff in Hc. rewrite Hc. rewrite IH by exact Hl.
    rewrite append_assoc_snoc. reflexivity.
Qed.

Lemma eqb_empty_false s : s ≠ EmptyString → String.eqb s EmptyString = false.
Proof. intros H. apply String.eqb_neq. exact H. Qed.

(** A line that is kept as content. *)
Lemma extract_line_content st line :
  strip line ≠ EmptyString → _is_likely_header (strip line) = false →
  extract_line st line =
  Extraction_ (full_text st +:+ strip line +:+ String newline EmptyString)
    (done_sections st)
    (Section_ (heading (current_section st))
              (content (current_section st) ++ [strip line])).
Proof.
  intros Hne Hh. unfold extract_line. cbv zeta.
  rewrite (eqb_empty_false _ Hne), Hh. reflexivity.
Qed.

(** Claim C9.  For a document of one page whose text is the line
    [EDUCATION] followed by two lines that are not blank and that
    [_is_likely_header] rejects once stripped, [extract_from_pdf] returns
    exactly one section, with heading [EDUCATION] and with the two lines,
    stripped of surrounding white space, as its content in order. *)
Theorem education_page_gives_one_section l1 l2 s :
  single_line l1 = true → single_line l2 = true →
  strip l1 ≠ EmptyString → strip l2 ≠ EmptyString →
  _is_likely_header (strip l1) = false →
  _is_likely_header (strip l2) = false →
  ∃ doc,
    extract_from_pdf
      (Pages [PageText (Some ("EDUCATION" +:+
                              String newline (l1 +:+ String newline l2)))]) s =
    (Ret doc, s) ∧
    sections doc = [Section_ "EDUCATION" [strip l1; strip l2]].
Proof.
  intros S1 S2 N1 N2 H1 H2.
  unfold extract_from_pdf, try_except. unfold_monad.
  cbn [extract_pages].
  change (String.eqb ("EDUCATION" +:+ String newline (l1 +:+ String newline l2))
                     EmptyString) with false. cbv iota.
  assert (Hsplit : split newline ("EDUCATION" +:+
                                  String newline (l1 +:+ String newline l2)) =
                   ["EDUCATION"; l1; l2]).
  { unfold split.
    rewrite (split_on_line "EDUCATION" EmptyString _ eq_refl).
    rewrite (split_on_line l1 EmptyString _ S1).
    rewrite (split_on_last l2 EmptyString S2). reflexivity. }
  rewrite Hsplit. cbn [fold_left].
  match goal with |- context [extract_line ?st "EDUCATION"] =>
    let st' := eval vm_compute in (extract_line st "EDUCATION") in
    change (extract_line st "EDUCATION") with st' end.
  rewrite (extract_line_content _ l1 N1 H1).
  rewrite (extract_line_content _ l2 N2 H2).
  cbn [current_section done_sections heading content full_text app].
  eexists. split; [reflexivity|]. reflexivity.
Qed.

Lemma education_page_gives_one_section_witness :
  ∃ doc,
    extract_from_pdf
      (Pages [PageText (Some ("EDUCATION" +:+
                              String newline ("B.Sc. in CS, 2010" +:+
                              String newline "  graduated with honours ")))])
      initial_state = (Ret doc, initial_state) ∧
    sections doc =
    [Section_ "EDUCATION"
       [strip "B.Sc. in CS, 2010"; strip "  graduated with honours "]].
Proof.
  apply (education_page_gives_one_section "B.Sc. in CS, 2010"
           "  graduated with honours " initial_state).
  - reflexivity.
  - reflexivity.
  - vm_compute. discriminate.
  - vm_compute. discriminate.
  - vm_compute. reflexivity.
  - vm_compute. reflexivity.
Defined.

Section Dict.
Context {V : Type}.

Lemma dict_get_set_eq (k : string) (v : V) d : dict_get k (dict_set k v d) = Some v.
Proof.
  induction d as [|[k' v'] d IH]; simpl.
  - rewrite String.eqb_refl. reflexivity.
  - destruct (String.eqb k k') eqn:E; simpl.
    + rewrite String.eqb_refl. reflexivity.
    + rewrite E. exact IH.
Qed.

Lemma dict_get_set_ne (k k' : string) (v : V) d :
  k ≠ k' → dict_get k (dict_set k' v d) = dict_get k d.
Proof.
  intros Hne. apply String.eqb_neq in Hne.
  induction d as [|[k2 v2] d IH]; simpl.
  - rewrite Hne. reflexivity.
  - destruct (String.eqb k' k2) eqn:E; simpl.
    + apply String.eqb_eq in E. subst k2. rewrite Hne. reflexivity.
    + destruct (String.eqb k k2); [reflexivity|exact IH].
Qed.

(** A key that is not in the dict is added at the end. *)
Lemma dict_set_fresh (k : string) (v : V) d :
  k ∉ dict_keys d → dict_set k v d = d ++ [(k, v)].
Proof.
  induction d as [|[k' v'] d IH]; simpl; intros Hk; [reflexivity|].
  destruct (String.eqb k k') eqn:E.
  - apply String.eqb_eq in E. subst k'. exfalso. apply Hk. apply elem_of_cons. auto.
  - rewrite IH; [reflexivity|]. intros H. apply Hk. apply elem_of_cons. auto.
Qed.

End Dict.

Lemma mem_true_iff col cols : mem col cols = true ↔ col ∈ cols.
Proof.
  unfold mem. rewrite existsb_exists. split.
  - intros (x & Hin & Heq). apply String.eqb_eq in Heq. subst x.
    apply list_elem_of_In. exact Hin.
  - intros Hin. exists col. split; [apply list_elem_of_In; exact Hin|].
    apply String.eqb_refl.
Qed.

Lemma mem_app col l1 l2 : mem col (l1 ++ l2) = mem col l1 || mem col l2.
Proof. unfold mem. apply existsb_app. Qed.

Lemma cell_set_eq col v r : cell col (dict_set col v r) = v.
Proof. unfold cell. rewrite dict_get_set_eq. reflexivity. Qed.

Lemma cell_set_ne col col' v r : col ≠ col' → cell col (dict_set col' v r) = cell col r.
Proof. intros H. unfold cell. rewrite dict_get_set_ne by exact H. reflexivity. Qed.

Lemma dict_get_reindex col cols r :
  col ∈ cols → dict_get col (reindex cols r) = Some (cell col r).
Proof.
  unfold reindex. induction cols as [|c cols IH]; intros Hin; simpl.
  - by apply elem_of_nil in Hin.
  - destruct (String.eqb col c) eqn:E.
    + apply String.eqb_eq in E. subst c. reflexivity.
    + apply IH. apply elem_of_cons in Hin as [->|H]; [|exact H].
      rewrite String.eqb_refl in E. discriminate.
Qed.

Lemma cell_reindex col cols r : col ∈ cols → cell col (reindex cols r) = cell col r.
Proof. intros H. unfold cell at 1. rewrite dict_get_reindex by exact H. reflexivity. Qed.

Lemma normalize_data_str s : normalize_data (PStr s) = s.
Proof. reflexivity. Qed.

Lemma normalize_columns_rows cols : ∀ df,
  rows (fold_left (fun df column =>
                     map_column column (fun v => PStr (normalize_data v)) df)
                  cols df) = map (normalize_row cols) (rows df) ∧
  columns (fold_left (fun df column =>
                     map_column column (fun v => PStr (normalize_data v)) df)
                  cols df) = columns df.
Proof.
  induction cols as [|c cols IH]; intros df; simpl.
  - rewrite map_id. auto.
  - destruct (IH (map_column c (fun v => PStr (normalize_data v)) df)) as [-> ->].
    simpl. rewrite map_map. auto.
Qed.

Lemma fill_columns_rows cols : ∀ df present,
  NoDup cols → (∀ c, c ∈ cols → mem c (columns df) = present c) →
  rows (fold_left (fun df col => if mem col (columns df) then df
                                 else set_column col (PStr EmptyString) df)
                  cols df) = map (fill_row present cols) (rows df).
Proof.
  induction cols as [|c cols IH]; intros df present Hnd Hp; simpl.
  - rewrite map_id. reflexivity.
  - apply NoDup_cons in Hnd as [Hc Hnd].
    rewrite (Hp c) by (apply elem_of_cons; auto).
    destruct (present c) eqn:Hpc.
    + rewrite (IH df present Hnd).
      * apply map_ext. intros r. unfold fill_row. simpl. rewrite Hpc. reflexivity.
      * intros c' Hc'. apply Hp. apply elem_of_cons. auto.
    + rewrite (IH _ present Hnd).
      * simpl. rewrite map_map. apply map_ext. intros r.
        unfold fill_row. simpl. rewrite Hpc. reflexivity.
      * intros c' Hc'. simpl.
        rewrite (Hp c) by (apply elem_of_cons; auto). rewrite Hpc.
        rewrite mem_app. rewrite (Hp c') by (apply elem_of_cons; auto).
        simpl. assert (c' ≠ c) as Hne by (intros ->; contradiction).
        apply String.eqb_neq in Hne. rewrite Hne. simpl.
        apply orb_false_r.
Qed.

Lemma cell_normalize_row col cols : ∀ r,
  cell col (normalize_row cols r) =
  if mem col cols then PStr (normalize_data (cell col r)) else cell col r.
Proof.
  unfold normalize_row.
  induction cols as [|c cols IH]; intros r; simpl; [reflexivity|].
  rewrite IH. destruct (String.eqb col c) eqn:E; simpl.
  - apply String.eqb_eq in E. subst c. rewrite cell_set_eq.
    destruct (mem col cols); reflexivity.
  - apply String.eqb_neq in E. rewrite cell_set_ne by exact E. reflexivity.
Qed.

Lemma cell_fill_row present col cols : ∀ r,
  cell col (fill_row present cols r) =
  if mem col cols && negb (present col) then PStr EmptyString else cell col r.
Proof.
  unfold fill_row.
  induction cols as [|c cols IH]; intros r; simpl; [reflexivity|].
  rewrite IH. destruct (String.eqb col c) eqn:E; simpl.
  - apply String.eqb_eq in E. subst c.
    destruct (present col); simpl.
    + rewrite andb_false_r. reflexivity.
    + rewrite cell_set_eq. destruct (mem col cols); reflexivity.
  - apply String.eqb_neq in E.
    destruct (present c); [reflexivity|].
    rewrite cell_set_ne by exact E. reflexivity.
Qed.

Lemma required_columns_NoDup : NoDup required_columns.
Proof. apply bool_decide_unpack with (dec := NoDup_dec _). vm_compute. exact I. Qed.

Lemma process_and_normalize_df_rows df :
  process_and_normalize_df df =
  Frame required_columns (map (normalized_row df) (rows df)).
Proof.
  unfold process_and_normalize_df, select. f_equal.
  destruct (normalize_columns_rows (columns df) df) as [Hr Hc].
  rewrite (fill_columns_rows required_columns _ (fun c => mem c (columns df))
             required_columns_NoDup).
  - rewrite Hr, !map_map. reflexivity.
  - intros c _. rewrite Hc. reflexivity.
Qed.

(** Every field of the schema is present as a string: the normalized
    source cell, or the empty string when the column is absent. *)
Lemma normalized_row_cell df r col :
  col ∈ required_columns →
  dict_get col (normalized_row df r) =
  Some (PStr (if mem col (columns df) then normalize_data (cell col r)
              else EmptyString)).
Proof.
  intros Hin. unfold normalized_row. rewrite dict_get_reindex by exact Hin.
  rewrite cell_fill_row, cell_normalize_row.
  apply mem_true_iff in Hin. rewrite Hin. simpl.
  destruct (mem col (columns df)); reflexivity.
Qed.

(** The insert of one normalized record, in terms of its own columns. *)
Lemma execute_insert_normalized R current_time db :
  execute_insert (renamed (reindex required_columns R)) current_time db =
  if unique_violation db (text (reindex required_columns R) "Emails")
                         (text (reindex required_columns R) "Mobile")
  then None
  else Some (Database
               (resumes db ++
                [stored (sqlite_sequence db + 1)%Z current_time
                        (reindex required_columns R)])
               (sqlite_sequence db + 1)%Z).
Proof. reflexivity. Qed.

Lemma unique_violation_app rs x seq seq' e m :
  unique_violation (Database (rs ++ [x]) seq) e m =
  unique_violation (Database rs seq') e m
  || (String.eqb (emails x) e || String.eqb (mobile x) m).
Proof.
  unfold unique_violation. simpl. rewrite existsb_app. simpl.
  rewrite orb_false_r. reflexivity.
Qed.

Lemma insert_rows_spec current_time rows0 : ∀ n db,
  ∃ new,
    resumes (fold_left
               (fun acc row =>
                  match execute_insert row current_time (snd acc) with
                  | Some db' => (fst acc + 1, db')
                  | None => acc
                  end) rows0 (n, db)).2 = resumes db ++ new ∧
    (fold_left
       (fun acc row =>
          match execute_insert row current_time (snd acc) with
          | Some db' => (fst acc + 1, db')
          | None => acc
          end) rows0 (n, db)).1 = n + length new ∧
    length new ≤ length rows0 ∧
    ∀ x, x ∈ new → unique_violation db (emails x) (mobile x) = false.
Proof.
  induction rows0 as [|row rows0 IH]; intros n db; simpl.
  - exists []. rewrite app_nil_r. repeat split; auto.
    intros x Hx. by apply elem_of_nil in Hx.
  - unfold execute_insert at 2 4.
    destruct (unique_violation db (text row "emails") (text row "mobile")) eqn:Hv.
    + destruct (IH n db) as (new & H1 & H2 & H3 & H4).
      exists new. repeat split; auto.
    + match goal with |- context [fold_left _ rows0 (_, ?d)] =>
        destruct (IH (n + 1) d) as (new & H1 & H2 & H3 & H4) end.
      simpl in *.
      match type of H1 with _ = (_ ++ [?x]) ++ _ => exists (x :: new) end.
      split; [rewrite H1, <- app_assoc; reflexivity|].
      split; [rewrite H2; simpl; lia|]. split; [simpl; lia|].
      intros x Hx. apply elem_of_cons in Hx as [->|Hx].
      * simpl. exact Hv.
      * specialize (H4 x Hx).
        rewrite (unique_violation_app _ _ _ (sqlite_sequence db)) in H4.
        apply orb_false_iff in H4 as [H4 _]. destruct db. exact H4.
Qed.

Lemma insert_to_db_unfold current_time df db :
  insert_to_db current_time df db =
  (((insert_rows current_time
       (map renamed (rows (process_and_normalize_df df))) db).1,
    length (rows (process_and_normalize_df df))),
   (insert_rows current_time
      (map renamed (rows (process_and_normalize_df df))) db).2).
Proof.
  unfold insert_to_db. cbv zeta.
  generalize (process_and_normalize_df df). intros d.
  cbn [rename rows]. rewrite length_map.
  change (map (map (fun kv => (replace_char " " "_" (lower (fst kv)), snd kv))))
    with (map renamed).
  destruct (insert_rows _ _ _). reflexivity.
Qed.

(** Two normalized records of which the first is new to the table and the
    second repeats its email or its mobile: one insert. *)
Lemma insert_pair current_time df db row1 row2 :
  rows (process_and_normalize_df df) = [row1; row2] →
  unique_violation db (text row1 "Emails") (text row1 "Mobile") = false →
  text row1 "Emails" = text row2 "Emails" ∨
  text row1 "Mobile" = text row2 "Mobile" →
  insert_to_db current_time df db =
  ((1, 2),
   Database (resumes db ++ [stored (sqlite_sequence db + 1)%Z current_time row1])
            (sqlite_sequence db + 1)%Z).
Proof.
  intros Hrows Hnew Hsame. rewrite insert_to_db_unfold, Hrows.
  rewrite process_and_normalize_df_rows in Hrows. cbn [rows] in Hrows.
  destruct (rows df) as [|x1 [|x2 [|x3 xs]]]; try discriminate Hrows.
  cbn [map] in Hrows. injection Hrows as <- <-. unfold normalized_row in *.
  set (R1 := fill_row _ _ (normalize_row _ x1)) in *. clearbody R1.
  set (R2 := fill_row _ _ (normalize_row _ x2)) in *. clearbody R2.
  unfold insert_rows. cbn [map fold_left snd fst length].
  rewrite (execute_insert_normalized R1), Hnew. cbn [snd fst].
  rewrite (execute_insert_normalized R2).
  rewrite (unique_violation_app _ _ _ (sqlite_sequence db)).
  destruct db as [rs seq]. cbn [resumes sqlite_sequence] in *.
  replace (String.eqb _ _ || String.eqb _ _) with true;
    [rewrite orb_true_r; reflexivity|].
  symmetry. apply orb_true_iff.
  destruct Hsame as [H|H]; [left|right]; apply String.eqb_eq; exact H.
Qed.

(** Claim C5.  When the frame normalises to two records with the same
    email and the first conflicts with no stored record, [insert_to_db]
    stores the first only and returns (1, 2).  In general the stored rows
    are kept as they are, the new rows are appended, the count returned is
    their number out of the number of records, and no new row repeats an
    email or a mobile that was stored before the call. *)
Theorem insert_to_db_skips_duplicates current_time df db row1 row2 :
  rows (process_and_normalize_df df) = [row1; row2] →
  text row1 "Emails" = text row2 "Emails" →
  unique_violation db (text row1 "Emails") (text row1 "Mobile") = false →
  insert_to_db current_time df db =
    ((1, 2),
     Database (resumes db ++ [stored (sqlite_sequence db + 1)%Z current_time row1])
              (sqlite_sequence db + 1)%Z) ∧
  ∀ (df' : DataFrame) (db' : database),
    ∃ new,
      resumes (insert_to_db current_time df' db').2 = resumes db' ++ new ∧
      (insert_to_db current_time df' db').1 =
        (length new, length (rows df')) ∧
      length new ≤ length (rows df') ∧
      ∀ x, x ∈ new → unique_violation db' (emails x) (mobile x) = false.
Proof.
  intros Hrows Hsame Hnew. split.
  - apply (insert_pair current_time df db row1 row2); auto.
  - intros df' db'. rewrite insert_to_db_unfold. cbn [fst snd].
    unfold insert_rows.
    destruct (insert_rows_spec current_time
                (map renamed (rows (process_and_normalize_df df'))) 0 db')
      as (new & H1 & H2 & H3 & H4).
    exists new. rewrite process_and_normalize_df_rows in *. cbn [rows] in *.
    rewrite !length_map in *.
    split; [exact H1|]. split; [rewrite H2; reflexivity|]. split; assumption.
Qed.

Lemma normalized_rows_missing_column df col r :
  col ∈ required_columns → mem col (columns df) = false →
  r ∈ rows (process_and_normalize_df df) → text r col = EmptyString.
Proof.
  intros Hreq Hmiss Hr. rewrite process_and_normalize_df_rows in Hr.
  cbn [rows] in Hr. apply list_elem_of_fmap in Hr as (x & -> & _).
  unfold text, cell. rewrite (normalized_row_cell df x col Hreq), Hmiss.
  reflexivity.
Qed.

(** Claim C10.  When the frame normalises to two records that both have
    the empty email, or both the empty mobile, and the first conflicts with
    no stored record, [insert_to_db] stores the first only and returns
    (1, 2).  The empty string is what [process_and_normalize_df] puts in a
    required column that the frame does not have. *)
Theorem empty_contact_counts_as_duplicate current_time df db row1 row2 :
  rows (process_and_normalize_df df) = [row1; row2] →
  (text row1 "Emails" = EmptyString ∧ text row2 "Emails" = EmptyString) ∨
  (text row1 "Mobile" = EmptyString ∧ text row2 "Mobile" = EmptyString) →
  unique_violation db (text row1 "Emails") (text row1 "Mobile") = false →
  insert_to_db current_time df db =
    ((1, 2),
     Database (resumes db ++ [stored (sqlite_sequence db + 1)%Z current_time row1])
              (sqlite_sequence db + 1)%Z) ∧
  ∀ (df' : DataFrame) (col : string) (r : list (string * pyval)),
    col ∈ required_columns → mem col (columns df') = false →
    r ∈ rows (process_and_normalize_df df') → text r col = EmptyString.
Proof.
  intros Hrows Hempty Hnew. split.
  - apply (insert_pair current_time df db row1 row2); auto.
    destruct Hempty as [[-> ->]|[-> ->]]; auto.
  - intros df' col r. apply normalized_rows_missing_column.
Qed.

Lemma empty_contact_counts_as_duplicate_witness :
  insert_to_db "2024-01-01 00:00:00" names_only (init_db None) =
    ((1, 2),
     Database (resumes (init_db None) ++
               [stored (sqlite_sequence (init_db None) + 1)%Z
                  "2024-01-01 00:00:00"
                  (candidate "A" EmptyString EmptyString)])
              (sqlite_sequence (init_db None) + 1)%Z) ∧
  ∀ (df' : DataFrame) (col : string) (r : list (string * pyval)),
    col ∈ required_columns → mem col (columns df') = false →
    r ∈ rows (process_and_normalize_df df') → text r col = EmptyString.
Proof.
  apply (empty_contact_counts_as_duplicate "2024-01-01 00:00:00" names_only
           (init_db None) (candidate "A" EmptyString EmptyString)
           (candidate "B" EmptyString EmptyString)).
  - vm_compute. reflexivity.
  - left. split; reflexivity.
  - reflexivity.
Defined.

Lemma insert_to_db_skips_duplicates_witness :
  insert_to_db "2024-01-01 00:00:00" same_email (init_db None) =
    ((1, 2),
     Database (resumes (init_db None) ++
               [stored (sqlite_sequence (init_db None) + 1)%Z
                  "2024-01-01 00:00:00" (candidate "A" "a@x.org" "017")])
              (sqlite_sequence (init_db None) + 1)%Z) ∧
  ∀ (df' : DataFrame) (db' : database),
    ∃ new,
      resumes (insert_to_db "2024-01-01 00:00:00" df' db').2 =
        resumes db' ++ new ∧
      (insert_to_db "2024-01-01 00:00:00" df' db').1 =
        (length new, length (rows df')) ∧
      length new ≤ length (rows df') ∧
      ∀ x, x ∈ new → unique_violation db' (emails x) (mobile x) = false.
Proof.
  apply (insert_to_db_skips_duplicates "2024-01-01 00:00:00" same_email
           (init_db None) (candidate "A" "a@x.org" "017")
           (candidate "B" "a@x.org" "018")).
  - vm_compute. reflexivity.
  - reflexivity.
  - reflexivity.
Defined.

Lemma normalize_value_field v : sscript.normalize_value v = field_string (Some v).
Proof. destruct v; reflexivity. Qed.

Lemma normalize_data_field v : normalize_data v = field_string (present v).
Proof.
  destruct v as [| | |r| | |]; try reflexivity.
  unfold normalize_data, present. simpl. destruct (String.eqb r "nan"); reflexivity.
Qed.

Lemma dict_keys_app {V} (d1 d2 : list (string * V)) :
  dict_keys (d1 ++ d2) = dict_keys d1 ++ dict_keys d2.
Proof. apply map_app. Qed.

Lemma normalize_items_fold items : ∀ acc,
  NoDup (dict_keys acc ++ dict_keys items) →
  fold_left
    (fun normalized_record kv =>
       dict_set (fst kv) (PStr (sscript.normalize_value (snd kv)))
                normalized_record)
    items acc = acc ++ normalized_items items.
Proof.
  induction items as [|[k v] items IH]; intros acc Hnd; simpl.
  - rewrite app_nil_r. reflexivity.
  - simpl in Hnd. apply NoDup_app in Hnd as (Ha & Hdis & Hi).
    apply NoDup_cons in Hi as [Hk Hi].
    rewrite dict_set_fresh.
    2:{ intros Hin. apply (Hdis k Hin). apply elem_of_cons. auto. }
    rewrite IH.
    + rewrite <- app_assoc. simpl. rewrite normalize_value_field. reflexivity.
    + rewrite dict_keys_app. simpl. rewrite <- app_assoc. simpl.
      apply NoDup_app. split; [exact Ha|]. split.
      * intros x Hx Hx'. apply (Hdis x Hx). exact Hx'.
      * apply NoDup_cons. auto.
Qed.

Lemma normalize_items_NoDup items :
  NoDup (dict_keys items) → sscript.normalize_items items = normalized_items items.
Proof.
  intros Hnd. unfold sscript.normalize_items.
  rewrite normalize_items_fold; [reflexivity|exact Hnd].
Qed.

Lemma normalize_records_dicts records : ∀ s,
  Forall (fun items => NoDup (dict_keys items)) records →
  sscript.normalize_records (map PDict records) s =
  (Ret (map normalized_items records), s).
Proof.
  induction records as [|items records IH]; intros s Hall; simpl; [reflexivity|].
  inversion Hall as [|? ? Hnd Hall']; subst.
  unfold mbind, M_bind, bind, ret. simpl.
  rewrite (IH s Hall'). rewrite normalize_items_NoDup by exact Hnd. reflexivity.
Qed.

Lemma mem_union_labels c l : ∀ acc,
  mem c (union_labels acc l) = mem c acc || mem c l.
Proof.
  unfold union_labels.
  induction l as [|x l IH]; intros acc; simpl.
  - rewrite orb_false_r. reflexivity.
  - rewrite IH. destruct (mem x acc) eqn:Hx.
    + destruct (String.eqb c x) eqn:E; [|reflexivity].
      apply String.eqb_eq in E. subst x. rewrite Hx. reflexivity.
    + rewrite mem_app. simpl. rewrite orb_false_r, orb_assoc. reflexivity.
Qed.

Lemma mem_record_labels c records : ∀ acc,
  mem c (fold_left (fun acc r => union_labels acc (dict_keys r)) records acc) =
  mem c acc || existsb (fun r : list (string * pyval) => mem c (dict_keys r)) records.
Proof.
  induction records as [|r records IH]; intros acc; simpl.
  - rewrite orb_false_r. reflexivity.
  - rewrite IH, mem_union_labels, orb_assoc. reflexivity.
Qed.

Lemma dict_get_normalized_items col items :
  dict_get col (normalized_items items) =
  option_map (fun v => PStr (field_string (Some v))) (dict_get col items).
Proof.
  induction items as [|[k v] items IH]; simpl; [reflexivity|].
  destruct (String.eqb col k); [reflexivity|exact IH].
Qed.

Lemma dict_get_absent {V} col (d : list (string * V)) :
  mem col (dict_keys d) = false → dict_get col d = None.
Proof.
  induction d as [|[k v] d IH]; simpl; [reflexivity|].
  destruct (String.eqb col k); [discriminate|exact IH].
Qed.

Lemma cell_reindex_mem col cols r :
  cell col (reindex cols r) = if mem col cols then cell col r else NaN.
Proof.
  destruct (mem col cols) eqn:Hm.
  - apply cell_reindex. apply mem_true_iff. exact Hm.
  - unfold cell at 1. rewrite dict_get_absent; [reflexivity|].
    unfold reindex, dict_keys. rewrite map_map. simpl. rewrite map_id. exact Hm.
Qed.

Lemma map_columns_rows f cols : ∀ df,
  fold_left (fun df col => map_column col f df) cols df =
  Frame (columns df)
    (map (fun r => fold_left (fun r col => dict_set col (f (cell col r)) r) cols r)
         (rows df)).
Proof.
  induction cols as [|c cols IH]; intros df; simpl.
  - rewrite map_id. destruct df. reflexivity.
  - rewrite IH. simpl. rewrite map_map. reflexivity.
Qed.

Lemma schema_cells_mapped f x :
  fold_left (fun r col => dict_set col (f (cell col r)) r) required_columns
    (reindex required_columns x) =
  map (fun c => (c, f (cell c x))) required_columns.
Proof. reflexivity. Qed.

Lemma final_normalization_str s :
  sscript.final_normalization (PStr s) = PStr (blank_text s).
Proof.
  unfold sscript.final_normalization, blank_text, astype_str, replace_value. simpl.
  destruct (String.eqb s "nan") eqn:E1; simpl.
  - reflexivity.
  - destruct (String.eqb s "None"); reflexivity.
Qed.

Lemma raw_llm_output_not_in records :
  existsb (fun v => match v with
                    | PStr s => String.eqb s "raw_llm_output"
                    | _ => false
                    end) (map PDict records) = false.
Proof. induction records; simpl; auto. Qed.

Lemma schema_cell records r col :
  In r records → In col required_columns →
  let cols := fold_left (fun acc r => union_labels acc (dict_keys r))
                (map normalized_items records) [] in
  let cols' := union_labels [] cols in
  sscript.final_normalization
    (cell col
       (fill_row (fun c => mem c cols') required_columns
          (reindex cols' (reindex cols (normalized_items r))))) =
  PStr (blank_text (field_string (dict_get col r))).
Proof.
  intros Hr Hcol cols cols'.
  assert (Hreq : mem col required_columns = true)
    by (apply mem_true_iff, list_elem_of_In; exact Hcol).
  assert (Hcols' : mem col cols' = mem col cols)
    by (unfold cols'; rewrite mem_union_labels; reflexivity).
  rewrite cell_fill_row, Hreq, Hcols'. simpl.
  destruct (mem col cols) eqn:Hm; simpl.
  - rewrite !cell_reindex_mem, Hcols', Hm.
    unfold cell. rewrite dict_get_normalized_items.
    destruct (dict_get col r) as [v|]; simpl.
    + apply final_normalization_str.
    + reflexivity.
  - assert (Hnone : dict_get col r = None).
    { apply dict_get_absent.
      unfold cols in Hm. rewrite mem_record_labels in Hm. simpl in Hm.
      destruct (mem col (dict_keys r)) eqn:Hk; [|reflexivity].
      assert (He : existsb (fun r0 : list (string * pyval) => mem col (dict_keys r0))
                     (map normalized_items records) = true).
      { apply existsb_exists. exists (normalized_items r). split.
        - apply in_map. exact Hr.
        - unfold normalized_items, dict_keys. rewrite map_map. simpl. exact Hk. }
      rewrite He in Hm. discriminate Hm. }
    rewrite Hnone. reflexivity.
Qed.

Lemma process_resumes_records pf filename records s :
  endswith ".json" filename = true →
  Forall (fun items => NoDup (dict_keys items)) records →
  sscript.process_resumes pf [(filename, PList (map PDict records))] s =
  (Ret (Frame required_columns
          (map (fun r => schema_row
                           (fun col => blank_text (field_string (dict_get col r))))
               records)), s).
Proof.
  intros Hname Hall.
  unfold sscript.process_resumes, sscript.load_all. rewrite Hname.
  unfold sscript.process_content, sscript.contains_raw_llm_output.
  rewrite raw_llm_output_not_in.
  unfold mbind, M_bind, bind, try_except, mret, M_ret, ret.
  cbn [sscript.is_list negb sscript.normalize_json_data].
  rewrite (normalize_records_dicts records s Hall).
  destruct records as [|r0 records']; [reflexivity|].
  set (records := r0 :: records') in *.
  change (map normalized_items records) with
    (normalized_items r0 :: map normalized_items records').
  cbv beta iota. 
  change (normalized_items r0 :: map normalized_items records') with
    (map normalized_items records).
  unfold app. f_equal. 
  unfold of_records, concat. cbn [fold_left columns rows flat_map].
  rewrite app_nil_r.
  set (cols := fold_left (fun acc r => union_labels acc (dict_keys r))
                 (map normalized_items records) []).
  set (cols' := union_labels [] cols).
  unfold select. cbn [columns rows].
  rewrite map_columns_rows. cbn [columns rows].
  f_equal.
  rewrite (fill_columns_rows required_columns _ (fun c => mem c cols')
             required_columns_NoDup) by reflexivity.
  cbn [rows]. rewrite !map_map.
  f_equal. apply map_ext_in. intros r Hr.
  rewrite schema_cells_mapped. unfold schema_row.
  apply map_ext_in. intros col Hcol. f_equal.
  apply (schema_cell records r col Hr Hcol).
Qed.

Lemma process_and_normalize_df_schema df :
  process_and_normalize_df df =
  Frame required_columns
    (map (fun r => schema_row
                     (fun col => if mem col (columns df)
                                 then field_string (present (cell col r))
                                 else EmptyString))
         (rows df)).
Proof.
  rewrite process_and_normalize_df_rows. f_equal.
  apply map_ext_in. intros r _.
  unfold normalized_row, reindex, schema_row.
  apply map_ext_in. intros col Hcol. f_equal.
  rewrite cell_fill_row, cell_normalize_row.
  assert (Hreq : mem col required_columns = true)
    by (apply mem_true_iff, list_elem_of_In; exact Hcol).
  rewrite Hreq. simpl.
  destruct (mem col (columns df)); simpl; [|reflexivity].
  rewrite normalize_data_field. reflexivity.
Qed.

(** Claim C8.  [field_string] is the normalisation as the specification
    words it: a list is joined with [", "], [None] or a missing value is
    the empty string, any other value is its [str].  The list [["a", "b"]]
    gives ["a, b"]; [normalize_json_data] applies it to every value of
    every record; [normalize_data] applies it to every cell, a [NaN] cell
    counting as missing.  [process_and_normalize_df] returns, for every
    row of the frame and in order, the row of the twelve required fields,
    each the string of the source cell, empty for a column the frame did
    not have.  [sscript.process_resumes], reading a list of records from a
    [.json] file, returns for every record, in order, the row of the
    twelve required fields, each the string of the field of the record,
    empty for a field the record does not have; there the texts [nan] and
    [None] are replaced by empty strings as well.  The record with [Name]
    the list [["a", "b"]] and [Emails] null gives the row with [Name]
    ["a, b"] and eleven empty strings, in both. *)
Theorem fields_are_normalized_to_strings :
  field_string (Some (PList [PStr "a"; PStr "b"])) = "a, b" ∧
  (∀ v, sscript.normalize_value v = field_string (Some v)) ∧
  (∀ v, normalize_data v = field_string (present v)) ∧
  (∀ records s,
     Forall (fun items => NoDup (dict_keys items)) records →
     sscript.normalize_json_data (PList (map PDict records)) s =
     (Ret (map normalized_items records), s)) ∧
  (∀ df,
     process_and_normalize_df df =
     Frame required_columns
       (map (fun r => schema_row
                        (fun col => if mem col (columns df)
                                    then field_string (present (cell col r))
                                    else EmptyString))
            (rows df))) ∧
  (∀ pf filename records s,
     endswith ".json" filename = true →
     Forall (fun items => NoDup (dict_keys items)) records →
     sscript.process_resumes pf [(filename, PList (map PDict records))] s =
     (Ret (Frame required_columns
             (map (fun r => schema_row
                              (fun col =>
                                 blank_text (field_string (dict_get col r))))
                  records)), s)) ∧
  sscript.process_resumes (fun lit => lit)
    [("cv.json", PList [PDict record_ab])] initial_state =
    (Ret (Frame required_columns [row_ab]), initial_state) ∧
  process_and_normalize_df (Frame ["Name"; "Emails"] [record_ab]) =
    Frame required_columns [row_ab].
Proof.
  split; [reflexivity|]. split; [exact normalize_value_field|].
  split; [exact normalize_data_field|]. split.
  { intros records s Hall. apply normalize_records_dicts. exact Hall. }
  split; [exact process_and_normalize_df_schema|].
  split; [exact process_resumes_records|].
  split; vm_compute; reflexivity.
Qed.

Lemma probes_app l1 l2 : probes (l1 ++ l2) = probes l1 ++ probes l2.
Proof. apply omap_app. Qed.

Lemma unrejected_pos c key :
  key ∈ api_keys c → key ∉ invalid_keys c → 1 ≤ unrejected c.
Proof.
  intros Hin Hni. pose proof (unrejected_lt c key Hin Hni). lia.
Qed.

Lemma selection_cost_nil s (r : outcome string * state) :
  trace r.2 = trace s → selection_cost s r.
Proof.
  intros HT. exists []. rewrite app_nil_r. split; [exact HT|].
  split; [constructor|]. split; [|simpl; lia].
  intros k Hk. by apply elem_of_nil in Hk.
Qed.

Lemma select_cost W fuel :
  (∀ s, selection_cost s (_initialize_client_rec W fuel s)) →
  ∀ available_keys s,
    (∀ k, k ∈ available_keys →
          (k ∈ api_keys (client s)) ∧ (k ∉ invalid_keys (client s))) →
    selection_cost s (select_key W fuel available_keys s).
Proof.
  intros IH av s Hav. unfold select_key.
  destruct av as [|x l].
  - apply selection_cost_nil; reflexivity.
  - set (key := nth _ _ _).
    assert (Hkey : key ∈ x :: l) by (apply nth_mod_elem_of; discriminate).
    destruct (Hav key Hkey) as [Hpool Hvalid].
    set (r := service W (S (clock s)) key).
    destruct (probe_verdict r) eqn:Hr.
    + exists [Probe key r; Print (Initialized key)]. simpl.
      split; [rewrite <- app_assoc; reflexivity|].
      split; [apply NoDup_singleton|]. split.
      * intros k Hk. apply list_elem_of_singleton in Hk. subst k. auto.
      * apply (unrejected_pos _ key); assumption.
    + match goal with |- selection_cost _ (_initialize_client_rec _ _ ?s1) =>
        set (s1' := s1) end.
      destruct (IH s1') as (evs & HT & Hnd & Hin & Hlen).
      exists ([Probe key r; Print (ValidationFailed key)] ++ evs).
      split.
      { rewrite HT. subst s1'. simpl. rewrite <- !app_assoc. reflexivity. }
      rewrite probes_app. simpl. subst s1'. simpl in *.
      split; [|split].
      * apply NoDup_cons. split; [|exact Hnd].
        intros Hk. destruct (Hin key Hk) as [_ Hni]. set_solver.
      * intros k Hk. apply elem_of_cons in Hk as [->|Hk]; [auto|].
        destruct (Hin k Hk) as [H1 H2]. split; [exact H1|set_solver].
      * pose proof (unrejected_lt (client s) key Hpool Hvalid) as Hlt.
        unfold unrejected in *. simpl in *. lia.
Qed.

Lemma init_rec_cost W fuel s :
  selection_cost s (_initialize_client_rec W fuel s).
Proof.
  revert s. induction fuel as [|fuel IH]; intros s.
  - apply selection_cost_nil; reflexivity.
  - rewrite init_rec_S. cbv zeta.
    destruct (filter _ (api_keys (client s))) as [|x l] eqn:Hav.
    + destruct (size _ =? _) eqn:Hsz.
      * apply selection_cost_nil; reflexivity.
      * match goal with |- selection_cost _ (select_key _ _ ?av ?s0) =>
          pose proof (select_cost W fuel IH av s0) as Hsel end.
        simpl in Hsel. apply Hsel.
        intros k Hk. apply list_elem_of_filter in Hk. tauto.
    + rewrite <- Hav. apply select_cost; [exact IH|].
      intros k Hk. apply list_elem_of_filter in Hk. tauto.
Qed.

Lemma select_rotation W fuel :
  (∀ s, rotation_from (used_keys (client s)) s (_initialize_client_rec W fuel s)) →
  ∀ U available_keys s,
    (used_keys (client s) = U ∧ ∀ k, k ∈ available_keys → k ∉ U) ∨
    (used_keys (client s) = ∅ ∧
     ∀ k, k ∈ api_keys (client s) → k ∈ U ∨ k ∈ invalid_keys (client s)) →
    rotation_from U s (select_key W fuel available_keys s).
Proof.
  intros IH U av s Hcase. unfold select_key.
  destruct av as [|x l]; [exact I|].
  set (key := nth _ _ _).
  assert (Hkey : key ∈ x :: l) by (apply nth_mod_elem_of; discriminate).
  set (r := service W (S (clock s)) key).
  destruct (probe_verdict r) eqn:Hr.
  - unfold rotation_from. simpl.
    destruct Hcase as [[HU Hav]|[HU Hall]].
    + left. split; [auto|]. rewrite HU. reflexivity.
    + right. split; [rewrite HU; set_solver|exact Hall].
  - match goal with |- rotation_from _ _ (_initialize_client_rec _ _ ?s1) =>
      set (s1' := s1) end.
    specialize (IH s1').
    destruct (init_rec_spec W fuel s1') as [Hfr _].
    unfold rotation_from in *.
    destruct (_initialize_client_rec W fuel s1') as [[k|e| |] s2]; simpl in *;
      try exact I.
    destruct Hfr as [K M _ _ _ _ _]. simpl in *.
    destruct Hcase as [[HU Hav]|[HU Hall]].
    + rewrite HU in IH. exact IH.
    + right. rewrite HU in IH.
      destruct IH as [[_ Hu]|[Hu Hall']].
      * split; [rewrite Hu; set_solver|].
        intros k' Hk'. destruct (Hall k' Hk') as [H|H]; [auto|].
        right. set_solver.
      * split; [exact Hu|].
        intros k' Hk'. destruct (Hall k' Hk') as [H|H]; [auto|].
        right. set_solver.
Qed.

Lemma init_rec_rotation W fuel s :
  rotation_from (used_keys (client s)) s (_initialize_client_rec W fuel s).
Proof.
  revert s. induction fuel as [|fuel IH]; intros s; [exact I|].
  rewrite init_rec_S. cbv zeta.
  destruct (filter _ (api_keys (client s))) as [|x l] eqn:Hav.
  - destruct (size _ =? _) eqn:Hsz; [exact I|].
    match goal with |- rotation_from _ _ (select_key _ _ ?av ?s0) =>
      pose proof (select_rotation W fuel IH (used_keys (client s)) av s0) as Hsel
    end.
    simpl in Hsel.
    assert (Hall : ∀ k, k ∈ api_keys (client s) →
              k ∈ used_keys (client s) ∨ k ∈ invalid_keys (client s)).
    { intros k Hk.
      destruct (decide (k ∈ used_keys (client s))) as [|Hu]; [auto|].
      destruct (decide (k ∈ invalid_keys (client s))) as [|Hi]; [auto|].
      exfalso.
      assert (Hin : k ∈ filter (fun key => (key ∉ used_keys (client s)) ∧
                                           (key ∉ invalid_keys (client s)))
                               (api_keys (client s))).
      { apply list_elem_of_filter. auto. }
      rewrite Hav in Hin. by apply elem_of_nil in Hin. }
    specialize (Hsel (or_intror (conj eq_refl Hall))).
    unfold rotation_from in *.
    destruct (select_key _ _ _ _) as [[k|e| |] s2]; simpl in *; auto.
  - rewrite <- Hav. apply select_rotation; [exact IH|].
    left. split; [reflexivity|].
    intros k Hk. apply list_elem_of_filter in Hk. tauto.
Qed.

Lemma selection_no_attempt evs key r :
  Forall selection_event evs → Attempt key r ∉ evs.
Proof.
  intros HF Hin. rewrite Forall_forall in HF. exact (HF _ Hin).
Qed.

Lemma recover_frame W fuel max_retries retries e saved s :
  (∀ s', pool_frame s' (completion_loop W fuel max_retries (retries + 1) s')) →
  pool_frame s (recover W fuel max_retries retries e saved s).
Proof.
  intros IH. unfold recover. destruct (retries + 1 <? max_retries).
  2:{ unfold pool_frame. simpl. split; [reflexivity|]. split; [reflexivity|].
      exists []. rewrite app_nil_r. split; [reflexivity|].
      intros key msg Hin. by apply elem_of_nil in Hin. }
  match goal with |- context [_initialize_client W ?s0] => set (s3 := s0) end.
  pose proof (initialize_client_spec W s3) as [Hfr _].
  destruct (_initialize_client W s3) as [[k|ge| |] s4]; subst s3; simpl in *;
    destruct Hfr as [K4 M4 _ _ _ (ievs & T4 & A4) _]; simpl in *.
  - match goal with |- context [completion_loop _ _ _ _ ?s0] =>
      destruct (IH s0) as (K5 & M5 & evs & T5 & H5) end.
    simpl in *. unfold pool_frame.
    split; [congruence|]. split; [set_solver|].
    eexists. split.
    { rewrite T5, T4, <- !app_assoc. reflexivity. }
    intros key msg Hin Hrej.
    rewrite !elem_of_app in Hin.
    destruct Hin as [Hin|[Hin|[Hin|Hin]]].
    + apply list_elem_of_singleton in Hin. discriminate.
    + exfalso. exact (selection_no_attempt _ _ _ A4 Hin).
    + apply list_elem_of_singleton in Hin. discriminate.
    + exact (H5 key msg Hin Hrej).
  - unfold pool_frame. simpl. split; [exact K4|]. split; [exact M4|].
    eexists. split; [rewrite T4, <- app_assoc; reflexivity|].
    intros key msg Hin Hrej. rewrite elem_of_app in Hin.
    destruct Hin as [Hin|Hin].
    + apply list_elem_of_singleton in Hin. discriminate.
    + exfalso. exact (selection_no_attempt _ _ _ A4 Hin).
  - unfold pool_frame. simpl. split; [exact K4|]. split; [exact M4|].
    eexists. split; [rewrite T4, <- app_assoc; reflexivity|].
    intros key msg Hin Hrej. rewrite elem_of_app in Hin.
    destruct Hin as [Hin|Hin].
    + apply list_elem_of_singleton in Hin. discriminate.
    + exfalso. exact (selection_no_attempt _ _ _ A4 Hin).
  - unfold pool_frame. simpl. split; [exact K4|]. split; [exact M4|].
    eexists. split; [rewrite T4, <- app_assoc; reflexivity|].
    intros key msg Hin Hrej. rewrite elem_of_app in Hin.
    destruct Hin as [Hin|Hin].
    + apply list_elem_of_singleton in Hin. discriminate.
    + exfalso. exact (selection_no_attempt _ _ _ A4 Hin).
Qed.

Lemma pool_frame_step s s1 r (evs1 : list event) :
  api_keys (client s1) = api_keys (client s) →
  invalid_keys (client s) ⊆ invalid_keys (client s1) →
  trace s1 = trace s ++ evs1 →
  (∀ key msg, Attempt key (Failure msg) ∈ evs1 →
     rejected_in_call msg = true → key ∈ invalid_keys (client s1)) →
  pool_frame s1 r → pool_frame s r.
Proof.
  intros K M T H (K' & M' & evs & T' & H').
  split; [congruence|]. split; [set_solver|].
  exists (evs1 ++ evs). split; [rewrite T', T, app_assoc; reflexivity|].
  intros key msg Hin Hrej. rewrite elem_of_app in Hin.
  destruct Hin as [Hin|Hin]; [|eauto].
  apply M'. eauto.
Qed.

Lemma loop_frame W fuel : ∀ max_retries retries s,
  pool_frame s (completion_loop W fuel max_retries retries s).
Proof.
  induction fuel as [|fuel IH]; intros max_retries retries s.
  { unfold pool_frame. simpl. split; [reflexivity|]. split; [reflexivity|].
    exists []. rewrite app_nil_r. split; [reflexivity|].
    intros key msg Hin. by apply elem_of_nil in Hin. }
  destruct (retries <? max_retries) eqn:Hlt.
  2:{ rewrite loop_step_done by exact Hlt.
      unfold pool_frame. simpl. split; [reflexivity|]. split; [reflexivity|].
      exists []. rewrite app_nil_r. split; [reflexivity|].
      intros key msg Hin. by apply elem_of_nil in Hin. }
  destruct (current_client (client s)) as [key|] eqn:Hcur.
  - rewrite (loop_step_some W fuel max_retries retries s key Hcur Hlt).
    destruct (service W (clock s) key) as [c|msg] eqn:Hr.
    + unfold pool_frame. simpl. split; [reflexivity|]. split; [reflexivity|].
      eexists. split; [reflexivity|].
      intros k m Hin. apply list_elem_of_singleton in Hin. discriminate.
    + cbv zeta. set (e := Exn LibraryError msg None (exc_info s)).
      eapply (pool_frame_step s (marked e key (after_attempt key (Failure msg) s))
                _ ([Attempt key (Failure msg)] ++
                   (if rejected_in_call msg
                    then [Print (InvalidKeyDetected key)] else []))).
      * unfold marked. destruct (_ || _); reflexivity.
      * unfold marked. destruct (_ || _); simpl; set_solver.
      * unfold marked, rejected_in_call. subst e. simpl.
        destruct (_ || _); simpl.
        -- rewrite <- app_assoc. reflexivity.
        -- reflexivity.
      * intros k m Hin Hrej. rewrite elem_of_app in Hin.
        destruct Hin as [Hin|Hin].
        -- apply list_elem_of_singleton in Hin. injection Hin as -> ->.
           unfold marked. subst e. simpl. unfold rejected_in_call in Hrej.
           rewrite Hrej. simpl. set_solver.
        -- destruct (rejected_in_call msg).
           ++ apply list_elem_of_singleton in Hin. discriminate.
           ++ by apply elem_of_nil in Hin.
      * apply recover_frame. intros s'. apply IH.
  - rewrite (loop_step_none W fuel max_retries retries s Hcur Hlt). cbv zeta.
    match goal with |- pool_frame _ (recover _ _ _ _ ?e ?sv ?s0) =>
      eapply (pool_frame_step s s0 _ []) end.
    + reflexivity.
    + reflexivity.
    + simpl. rewrite app_nil_r. reflexivity.
    + intros k m Hin. by apply elem_of_nil in Hin.
    + apply recover_frame. intros s'. apply IH.
Qed.

(** Property X1.  A selection terminates for every pool and every behaviour of the
    service, and it is bounded by the pool: it probes only keys of the
    pool that were not marked invalid, probes no key twice, and so makes
    at most as many probe requests as the pool has keys. *)
Theorem selection_probes_each_key_once W s :
  (_initialize_client W s).1 ≠ NoFuel ∧
  ∃ evs, trace (_initialize_client W s).2 = trace s ++ evs ∧
    NoDup (probes evs) ∧
    (∀ k, k ∈ probes evs →
          (k ∈ api_keys (client s)) ∧ (k ∉ invalid_keys (client s))) ∧
    length (probes evs) ≤ length (api_keys (client s)).
Proof.
  split; [apply initialize_client_total|].
  rewrite initialize_client_unfold.
  destruct (init_rec_cost W (S (length (api_keys (client s)))) s)
    as (evs & HT & Hnd & Hin & Hlen).
  exists evs. split; [exact HT|]. split; [exact Hnd|]. split; [exact Hin|].
  pose proof (unrejected_le (client s)). lia.
Qed.

(** Property X2.  Rotation.  The key a selection returns was not in [used_keys]
    before, and is added to it; or every key of the pool was used or is
    marked invalid, and then [used_keys] has been reset and holds the
    returned key only. *)
Theorem selection_rotates_keys W s key s' :
  _initialize_client W s = (Ret key, s') →
  ((key ∉ used_keys (client s)) ∧
   used_keys (client s') = {[key]} ∪ used_keys (client s)) ∨
  (used_keys (client s') = {[key]} ∧
   ∀ k, k ∈ api_keys (client s) →
        k ∈ used_keys (client s) ∨ k ∈ invalid_keys (client s')).
Proof.
  intros Heq. rewrite initialize_client_unfold in Heq.
  pose proof (init_rec_rotation W (S (length (api_keys (client s)))) s) as H.
  unfold rotation_from in H. rewrite Heq in H. exact H.
Qed.

Lemma selection_rotates_keys_witness :
  ((key_b ∉ used_keys (client two_key_client)) ∧
   used_keys (client (_initialize_client (all_answered "ok") two_key_client).2) =
   {[key_b]} ∪ used_keys (client two_key_client)) ∨
  (used_keys (client (_initialize_client (all_answered "ok") two_key_client).2) =
   {[key_b]} ∧
   ∀ k, k ∈ api_keys (client two_key_client) →
        k ∈ used_keys (client two_key_client) ∨
        k ∈ invalid_keys
              (client (_initialize_client (all_answered "ok") two_key_client).2)).
Proof.
  apply (selection_rotates_keys (all_answered "ok") two_key_client key_b).
  vm_compute. reflexivity.
Defined.

Lemma marks_cover_pool (l : list string) (X : gset string) :
  NoDup l → (∀ k, k ∈ X → k ∈ l) → size X = length l → ∀ k, k ∈ l → k ∈ X.
Proof.
  intros Hnd Hsub Hsz k Hk.
  assert (HX : X ⊆ list_to_set l).
  { intros x Hx. apply elem_of_list_to_set. auto. }
  assert (Heq : X = list_to_set l).
  { apply set_subseteq_size_eq; [exact HX|].
    rewrite (size_list_to_set l Hnd). lia. }
  rewrite Heq. apply elem_of_list_to_set. exact Hk.
Qed.

(** Property X3.  For a pool without repeated keys whose probes are all rejected as
    unauthenticated, the selection raises
    [GroqAPIError "All API keys are invalid"], leaves the current client
    as it was, and has marked every key of the pool invalid. *)
Theorem selection_fails_when_every_key_is_rejected W s :
  NoDup (api_keys (client s)) →
  (∀ k, k ∈ invalid_keys (client s) → k ∈ api_keys (client s)) →
  every_probe_rejected W (client s) →
  ∃ s', _initialize_client W s = (Raise (AllInvalid (exc_info s)), s') ∧
        (∀ k, k ∈ api_keys (client s) → k ∈ invalid_keys (client s')) ∧
        current_client (client s') = current_client (client s).
Proof.
  intros Hnd Hsub Hrej.
  destruct (initialize_client_all_rejected W s (conj Hnd Hsub) Hrej)
    as (s' & Heq & Hsz).
  exists s'. split; [exact Heq|].
  destruct (initialize_client_spec W s) as [Hfr Hres].
  rewrite Heq in Hfr, Hres. simpl in Hfr, Hres.
  split; [|tauto].
  apply marks_cover_pool; [exact Hnd| |exact Hsz].
  intros k Hk. destruct (frame_invalid_new _ _ Hfr k Hk); auto.
Qed.

Lemma selection_fails_when_every_key_is_rejected_witness :
  ∃ s', _initialize_client all_rejected
          (State (Client [key_a; key_b] None ∅ ∅) 0 [] None []) =
        (Raise (AllInvalid None), s') ∧
        (∀ k, k ∈ [key_a; key_b] → k ∈ invalid_keys (client s')) ∧
        current_client (client s') = None.
Proof.
  apply (selection_fails_when_every_key_is_rejected all_rejected
           (State (Client [key_a; key_b] None ∅ ∅) 0 [] None [])).
  - exact two_key_client_NoDup.
  - simpl. intros k Hk. by apply elem_of_empty in Hk.
  - intros t k _. exists "Error code: 401 - invalid_api_key".
    split; reflexivity.
Defined.

(** Property X4.  What a selection leaves alone, whatever its outcome: the pool is
    the same, no key loses its invalid mark and every new mark is on a key
    of the pool, the files and the exception being handled are untouched,
    and the trace grows by probes and their messages only. *)
Theorem selection_keeps_pool_and_marks W s :
  api_keys (client (_initialize_client W s).2) = api_keys (client s) ∧
  invalid_keys (client s) ⊆ invalid_keys (client (_initialize_client W s).2) ∧
  (∀ k, k ∈ invalid_keys (client (_initialize_client W s).2) →
        k ∈ invalid_keys (client s) ∨ k ∈ api_keys (client s)) ∧
  files (_initialize_client W s).2 = files s ∧
  exc_info (_initialize_client W s).2 = exc_info s ∧
  ∃ evs, trace (_initialize_client W s).2 = trace s ++ evs ∧
         Forall selection_event evs.
Proof.
  destruct (initialize_client_spec W s) as [[K M N E F T C] _]. auto 10.
Qed.

(** Property X5.  What a completion call does to the pool, whatever its outcome:
    the pool is the same, no key loses its invalid mark, and the key of
    every attempt whose error text holds [invalid_api_key] or [401] is
    marked invalid when the call ends. *)
Theorem completion_call_marks_rejected_keys W s :
  api_keys (client (create_chat_completion W s).2) = api_keys (client s) ∧
  invalid_keys (client s) ⊆
    invalid_keys (client (create_chat_completion W s).2) ∧
  ∃ evs, trace (create_chat_completion W s).2 = trace s ++ evs ∧
    ∀ key msg, Attempt key (Failure msg) ∈ evs →
      rejected_in_call msg = true →
      key ∈ invalid_keys (client (create_chat_completion W s).2).
Proof.
  change (create_chat_completion W s)
    with (completion_loop W (S (length (api_keys (client s))))
            (length (api_keys (client s))) 0 s).
  apply loop_frame.
Qed.

(** Property X6.  A completion call terminates for every client and every
    behaviour of the service: the loop never runs out of iterations.  It
    writes no file, leaves the exception being handled as it found it,
    adds to the trace only requests, pauses and the messages of the
    client, and a response it returns is one the service gave. *)
Theorem completion_call_terminates_quietly W s :
  (create_chat_completion W s).1 ≠ NoFuel ∧
  files (create_chat_completion W s).2 = files s ∧
  exc_info (create_chat_completion W s).2 = exc_info s ∧
  (∃ evs, trace (create_chat_completion W s).2 = trace s ++ evs ∧
          Forall client_event evs) ∧
  ∀ r, (create_chat_completion W s).1 = Ret (Some r) →
       ∃ t k, service W t k = Completion (message_content r).
Proof.
  destruct (create_chat_completion_quiet W s) as [(N1 & N2 & F & E & T) A].
  split; [exact N1|]. split; [exact F|]. split; [exact E|]. split; [exact T|].
  intros r Hr. rewrite Hr in A. exact A.
Qed.

(** Property X7.  The probe never raises and leaves the client and the exception
    being handled alone: it makes one request and returns [False] exactly
    when the request fails with a text that holds [invalid_api_key] (in
    any case) or [401]; any other failure, a rate limit for one, counts
    as a valid key. *)
Theorem probe_accepts_unless_authentication_is_rejected W key s :
  ∃ v, _validate_api_key W key s =
       (Ret v, State (client s) (S (clock s))
                     (trace s ++ [Probe key (service W (clock s) key)])
                     (exc_info s) (files s)) ∧
       (v = false ↔
        ∃ msg, service W (clock s) key = Failure msg ∧
               (contains "invalid_api_key" (lower msg) = true ∨
                contains "401" msg = true)).
Proof.
  rewrite validate_spec. eexists. split; [reflexivity|].
  destruct (service W (clock s) key) as [c|msg]; simpl.
  - split; [discriminate|]. intros (msg & Hm & _). discriminate.
  - unfold auth_rejected. rewrite negb_false_iff, orb_true_iff. split.
    + intros H. exists msg. auto.
    + intros (m & [= <-] & H). exact H.
Qed.

Lemma rstrip_idempotent s : rstrip (rstrip s) = rstrip s.
Proof.
  induction s as [|c s IH]; [reflexivity|].
  cbn [rstrip]. destruct (rstrip s) as [|d t] eqn:Hs.
  - destruct (isspace c) eqn:Hc; [reflexivity|].
    cbn [rstrip]. rewrite Hc. reflexivity.
  - cbn [rstrip]. cbn [rstrip] in IH. rewrite IH. reflexivity.
Qed.

Lemma lstrip_head s : lstrip s = EmptyString ∨
  ∃ c t, lstrip s = String c t ∧ isspace c = false.
Proof.
  induction s as [|c s IH]; [left; reflexivity|].
  cbn [lstrip]. destruct (isspace c) eqn:Hc; [exact IH|].
  right. eauto.
Qed.

Lemma lstrip_rstrip_head c t :
  isspace c = false → lstrip (rstrip (String c t)) = rstrip (String c t).
Proof.
  intros Hc. cbn [rstrip]. destruct (rstrip t); cbn [lstrip]; rewrite Hc.
  - cbn [lstrip]. rewrite Hc. reflexivity.
  - reflexivity.
Qed.

Lemma strip_idempotent s : strip (strip s) = strip s.
Proof.
  unfold strip. destruct (lstrip_head s) as [->|(c & t & -> & Hc)].
  - reflexivity.
  - rewrite (lstrip_rstrip_head c t Hc). apply rstrip_idempotent.
Qed.

Lemma valid_key_format_strip key :
  _is_valid_key_format key = true →
  _is_valid_key_format (strip key) = true ∧ strip key ≠ EmptyString.
Proof.
  unfold _is_valid_key_format.
  destruct (String.eqb key EmptyString); [discriminate|]. cbv zeta.
  intros H. rewrite strip_idempotent.
  destruct (strip key) as [|c t] eqn:Hs.
  - vm_compute in H. discriminate.
  - split; [|discriminate]. exact H.
Qed.

(** Property X8.  A list of keys none of which has the format of a key (the empty
    list for one) is refused before any request is made:
    [MultiGroqClient] raises [ValueError] and changes nothing, and
    [ResumeProcessor] raises a [ValueError] of its own whose text is that
    message after [Failed to initialize MultiGroqClient: ] and whose
    context is the first error. *)
Theorem constructor_rejects_unusable_keys W keys s :
  Forall (fun key => _is_valid_key_format key = false) keys →
  MultiGroqClient__init__ W keys s =
    (Raise (Exn ValueError (no_key_message keys) None (exc_info s)), s) ∧
  ResumeProcessor__init__ W keys s =
    (Raise (Exn ValueError
              ("Failed to initialize MultiGroqClient: " +:+ no_key_message keys)
              None
              (Some (Exn ValueError (no_key_message keys) None (exc_info s)))),
     s).
Proof.
  intros Hall.
  assert (Hinit : MultiGroqClient__init__ W keys s =
            (Raise (Exn ValueError (no_key_message keys) None (exc_info s)), s)).
  { unfold MultiGroqClient__init__. destruct keys as [|k keys]; [reflexivity|].
    assert (Hf : List.filter _is_valid_key_format (k :: keys) = []).
    { induction Hall as [|x l Hx _ IH]; [reflexivity|].
      cbn [List.filter]. rewrite Hx. exact IH. }
    rewrite Hf. reflexivity. }
  split; [exact Hinit|].
  unfold ResumeProcessor__init__, try_except. rewrite Hinit.
  destruct s. reflexivity.
Qed.

Lemma constructor_rejects_unusable_keys_witness :
  MultiGroqClient__init__ all_rejected ["not a key"; "gsk_short"] initial_state =
    (Raise (Exn ValueError "No valid API keys found" None None), initial_state) ∧
  ResumeProcessor__init__ all_rejected ["not a key"; "gsk_short"] initial_state =
    (Raise (Exn ValueError
              ("Failed to initialize MultiGroqClient: " +:+
               "No valid API keys found")
              None
              (Some (Exn ValueError "No valid API keys found" None None))),
     initial_state).
Proof.
  apply (constructor_rejects_unusable_keys all_rejected
           ["not a key"; "gsk_short"] initial_state).
  repeat constructor.
Defined.

(** Property X9.  When the constructor returns, the pool is the list of the given
    keys that have the format of a key, each stripped, so every key of
    the pool has that format and no surrounding white space; the key in
    use belongs to the pool, is the one used key and is not marked; and
    every marked key belongs to the pool. *)
Theorem constructor_establishes_client W keys s s' :
  MultiGroqClient__init__ W keys s = (Ret tt, s') →
  api_keys (client s') = map strip (List.filter _is_valid_key_format keys) ∧
  Forall (fun key => _is_valid_key_format key = true ∧ strip key = key)
         (api_keys (client s')) ∧
  wf_client (client s') ∧
  ∃ key, current_client (client s') = Some key ∧
         used_keys (client s') = {[key]} ∧
         (key ∉ invalid_keys (client s')).
Proof.
  unfold MultiGroqClient__init__. destruct keys as [|k0 keys]; [discriminate|].
  set (pool := map strip (List.filter _is_valid_key_format (k0 :: keys))).
  assert (Hpool : Forall (fun key => _is_valid_key_format key = true ∧
                                     strip key = key) pool).
  { subst pool. apply Forall_forall. intros k Hk.
    apply list_elem_of_fmap in Hk as (k1 & -> & Hk1).
    apply list_elem_of_In, filter_In in Hk1 as [_ Hv].
    split; [apply valid_key_format_strip; exact Hv|apply strip_idempotent]. }
  destruct pool as [|p pool'] eqn:Hp; [discriminate|].
  unfold_monad. simpl.
  set (s0 := State (Client (p :: pool') None ∅ ∅) (clock s) (trace s)
                   (exc_info s) (files s)).
  pose proof (initialize_client_spec W s0) as [Hfr Hres].
  pose proof (init_rec_rotation W (S (length (api_keys (client s0)))) s0) as Hrot.
  rewrite <- initialize_client_unfold in Hrot. unfold rotation_from in Hrot.
  destruct (_initialize_client W s0) as [[key|e| |] s1]; try discriminate.
  intros [= <-]. simpl in *.
  destruct Hfr as [K _ N _ _ _ _]. simpl in *.
  destruct Hres as (Hk & Hni & Hu & Hc & _).
  split; [exact K|]. split; [rewrite K; exact Hpool|]. split.
  - split.
    + intros k Hk'. rewrite K. destruct (N k Hk') as [H|H]; [|exact H].
      by apply elem_of_empty in H.
    + exists key. rewrite K. auto.
  - exists key. split; [exact Hc|]. split; [|exact Hni].
    destruct Hrot as [[_ ->]|[-> _]]; set_solver.
Qed.

Lemma constructor_establishes_client_witness :
  api_keys (client (MultiGroqClient__init__ (all_answered "ok")
                      [key_a; "not a key"] initial_state).2) =
    map strip (List.filter _is_valid_key_format [key_a; "not a key"]) ∧
  Forall (fun key => _is_valid_key_format key = true ∧ strip key = key)
         (api_keys (client (MultiGroqClient__init__ (all_answered "ok")
                              [key_a; "not a key"] initial_state).2)) ∧
  wf_client (client (MultiGroqClient__init__ (all_answered "ok")
                       [key_a; "not a key"] initial_state).2) ∧
  ∃ key, current_client (client (MultiGroqClient__init__ (all_answered "ok")
                                   [key_a; "not a key"] initial_state).2) =
         Some key ∧
         used_keys (client (MultiGroqClient__init__ (all_answered "ok")
                              [key_a; "not a key"] initial_state).2) = {[key]} ∧
         (key ∉ invalid_keys (client (MultiGroqClient__init__ (all_answered "ok")
                                [key_a; "not a key"] initial_state).2)).
Proof.
  apply (constructor_establishes_client (all_answered "ok")
           [key_a; "not a key"] initial_state).
  vm_compute. reflexivity.
Defined.

(** A completion call of a well-formed client returns a response or
    raises one of the two errors of the client. *)
Lemma create_chat_completion_outcome W s :
  NoDup (api_keys (client s)) → wf_client (client s) →
  (∃ r, (create_chat_completion W s).1 = Ret (Some r)) ∨
  (∃ e, (create_chat_completion W s).1 = Raise e ∧ is_GroqAPIError e = true).
Proof.
  intros Hnd Hwf.
  assert (Hpos : 0 < length (api_keys (client s))).
  { destruct Hwf as [_ (k & _ & Hk)]. destruct (api_keys (client s)); simpl; [|lia].
    by apply elem_of_nil in Hk. }
  pose proof (loop_spec W (S (length (api_keys (client s))))
                (length (api_keys (client s))) 0 s Hnd Hwf eq_refl Hpos) as Hpost.
  change (completion_loop W _ _ 0 s) with (create_chat_completion W s) in Hpost.
  destruct Hpost as (_ & _ & _ & _ & evs & _ & _ & _ & HR); [lia|].
  destruct (create_chat_completion W s).1 as [[r|]|e| |]; simpl in HR;
    try contradiction.
  - left. eauto.
  - right. exists e. split; [reflexivity|].
    destruct HR as (_ & msg & _ & [[-> _]| ->]); reflexivity.
Qed.

(** Property X10.  With a well-formed client over a pool without repeated keys,
    [process_with_llm] ends in one of four ways.  When the client returns
    a response, the outcome is that of [json.loads] on its body: the
    parsed value is returned; or, on [JSONDecodeError], the body under
    [raw_llm_output]; or the [ValueError] that [json.loads] raises for an
    integer literal of more than 4300 digits leaves [process_with_llm],
    [except json.JSONDecodeError] not catching it.  When the client gave
    up with a [GroqAPIError], the record
    [{error: LLM processing failed: ...}] is returned. *)
Theorem process_with_llm_outcomes W pf doc s :
  NoDup (api_keys (client s)) → wf_client (client s) →
  replies_in_model W pf →
  (∃ r, (create_chat_completion W s).1 = Ret (Some r) ∧
        match json_loads pf (message_content r) with
        | Loaded v => (process_with_llm W pf doc s).1 = Ret v
        | JSONDecodeError _ =>
            (process_with_llm W pf doc s).1 =
            Ret (PDict [("raw_llm_output", PStr (message_content r))])
        | LoadsValueError msg =>
            ∃ context, (process_with_llm W pf doc s).1 =
                       Raise (Exn ValueError msg None context)
        | OutsideModel | LoadsNoFuel => False
        end) ∨
  (∃ e, (create_chat_completion W s).1 = Raise e ∧
        is_GroqAPIError e = true ∧
        (process_with_llm W pf doc s).1 =
        Ret (PDict [("error", PStr ("LLM processing failed: " +:+ exn_msg e))])).
Proof.
  intros Hnd Hwf Hin. rewrite process_with_llm_unfold.
  destruct (create_chat_completion_quiet W s) as [_ Hans].
  destruct (create_chat_completion_outcome W s Hnd Hwf)
    as [(r & Hr)|(e & He & Hg)];
    destruct (create_chat_completion W s) as [o s1]; simpl in *; subst o.
  - destruct Hans as (t & k & Hs).
    pose proof (Hin t k _ Hs) as Hno.
    pose proof (json_loads_fuel pf (message_content r)) as Hf.
    left. exists r. split; [reflexivity|].
    destruct (json_loads pf (message_content r)) as [v|msg|msg| |] eqn:Hj;
      try congruence; try reflexivity.
    eexists. reflexivity.
  - rewrite Hg. right. exists e. auto.
Qed.

Lemma process_with_llm_outcomes_witness :
  (∃ r, (create_chat_completion (all_answered "[]") two_key_client).1 =
        Ret (Some r) ∧
        match json_loads (fun lit => lit) (message_content r) with
        | Loaded v =>
            (process_with_llm (all_answered "[]") (fun lit => lit) no_document
               two_key_client).1 = Ret v
        | JSONDecodeError _ =>
            (process_with_llm (all_answered "[]") (fun lit => lit) no_document
               two_key_client).1 =
            Ret (PDict [("raw_llm_output", PStr (message_content r))])
        | LoadsValueError msg =>
            ∃ context,
              (process_with_llm (all_answered "[]") (fun lit => lit) no_document
                 two_key_client).1 = Raise (Exn ValueError msg None context)
        | OutsideModel | LoadsNoFuel => False
        end) ∨
  (∃ e, (create_chat_completion (all_answered "[]") two_key_client).1 =
        Raise e ∧
        is_GroqAPIError e = true ∧
        (process_with_llm (all_answered "[]") (fun lit => lit) no_document
           two_key_client).1 =
        Ret (PDict [("error", PStr ("LLM processing failed: " +:+ exn_msg e))])).
Proof.
  apply (process_with_llm_outcomes (all_answered "[]") (fun lit => lit)
           no_document two_key_client).
  - exact two_key_client_NoDup.
  - exact two_key_client_wf.
  - intros t k c [= <-]. vm_compute. discriminate.
Defined.

Lemma extract_pages_error good msg rest : ∀ st,
  Forall is_text good → extract_pages (good ++ PageError msg :: rest) st = inr msg.
Proof.
  induction good as [|p good IH]; intros st Hgood; [reflexivity|].
  inversion Hgood as [|? ? Hp Hgood']; subst.
  destruct p as [[t|]|m]; simpl in *; try contradiction.
  - destruct (String.eqb t EmptyString); apply IH; exact Hgood'.
  - apply IH. exact Hgood'.
Qed.

Lemma extract_pages_text pages : ∀ st,
  Forall is_text pages → ∃ st', extract_pages pages st = inl st'.
Proof.
  induction pages as [|p pages IH]; intros st Hall; [simpl; eauto|].
  inversion Hall as [|? ? Hp Hall']; subst.
  destruct p as [[t|]|m]; simpl in *; try contradiction.
  - destruct (String.eqb t EmptyString); apply IH; exact Hall'.
  - apply IH. exact Hall'.
Qed.

Lemma extract_from_pdf_broken doc msg s :
  broken doc msg →
  extract_from_pdf doc s = (Raise (extraction_error msg (exc_info s)), s).
Proof.
  intros [->|(good & rest & -> & Hgood)]; unfold extract_from_pdf, try_except.
  - unfold_monad. simpl. destruct s. reflexivity.
  - rewrite (extract_pages_error good msg rest _ Hgood).
    unfold_monad. simpl. destruct s. reflexivity.
Qed.

(** Property X11.  A document that cannot be opened, or one of whose pages fails,
    makes [extract_from_pdf] raise [Exception("Error extracting text: ...")]
    with the text of the library error, which is its context.  In the
    batch, once the member has been extracted to the temporary folder,
    such a document costs no request and writes no file: the error is
    printed after the line [Processing: ...].  What follows depends on
    [os.remove], which is outside the [try] statement: when it removes the
    extracted file, the loop goes on with the next member from the same
    client; when it raises, its error leaves the loop and no later member
    is processed. *)
Theorem unreadable_document_is_reported_and_skipped
    W pf out file doc msg archive s :
  broken doc msg → is_pdf file = true →
  fs_temp W (clock s) file = None →
  extract_from_pdf doc s = (Raise (extraction_error msg (exc_info s)), s) ∧
  process_members W pf out ((file, doc) :: archive) s =
  match fs_temp W (S (clock s)) (os_path_join temp_folder file) with
  | None =>
      process_members W pf out archive
        (State (client s) (S (S (clock s)))
           (trace s ++ [Print (Processing file);
                        Print (ErrorProcessing file
                                 ("Error extracting text: " +:+ msg))])
           (exc_info s) (files s))
  | Some error =>
      (Raise (Exn LibraryError error None (exc_info s)),
       State (client s) (S (S (clock s)))
         (trace s ++ [Print (Processing file);
                      Print (ErrorProcessing file
                               ("Error extracting text: " +:+ msg))])
         (exc_info s) (files s))
  end.
Proof.
  intros Hb Hpdf Hextract. split; [apply extract_from_pdf_broken; exact Hb|].
  cbn [process_members]. unfold process_one. unfold is_pdf in Hpdf. rewrite Hpdf.
  unfold mbind at 1, M_bind at 1, bind at 1.
  unfold mbind at 1, M_bind at 1, bind at 1.
  rewrite (temp_op_ok W file s Hextract).
  unfold mbind at 1, M_bind at 1, bind at 1. unfold print at 1, emit at 1.
  cbn [ticked client clock trace exc_info files].
  unfold mbind at 1, M_bind at 1, bind at 1.
  unfold try_except at 1.
  unfold mbind at 1, M_bind at 1, bind at 1.
  rewrite (extract_from_pdf_broken doc msg _ Hb).
  unfold any_Exception, print, emit, set_exc_info, temp_op. unfold_monad.
  cbn [client clock trace exc_info files exn_msg extraction_error].
  rewrite <- app_assoc.
  destruct (fs_temp W (S (clock s)) _); reflexivity.
Qed.

Lemma unreadable_document_is_reported_and_skipped_witness :
  extract_from_pdf (Unreadable not_found) one_key_client =
    (Raise (extraction_error not_found (exc_info one_key_client)),
     one_key_client) ∧
  process_members remove_fails (fun lit => lit) "processed_resumes"
    (("../up.pdf", Unreadable not_found) :: two_resumes) one_key_client =
  (Raise (Exn LibraryError not_found None None),
   State (Client [key_a] (Some key_a) {[key_a]} ∅) 2
     [Print (Processing "../up.pdf");
      Print (ErrorProcessing "../up.pdf"
               ("Error extracting text: " +:+ not_found))]
     None []).
Proof.
  apply (unreadable_document_is_reported_and_skipped remove_fails
           (fun lit => lit) "processed_resumes" "../up.pdf"
           (Unreadable not_found) not_found two_resumes one_key_client).
  - left. reflexivity.
  - reflexivity.
  - reflexivity.
Defined.

(** The same member in a whole batch: the error of [os.remove] leaves
    [process_all_resumes], and the members after it are not processed. *)
Example member_outside_the_folder_stops_the_batch :
  process_all_resumes remove_fails (fun lit => lit) "processed_resumes"
    (("../up.pdf", Unreadable not_found) :: two_resumes) one_key_client =
  (Raise (Exn LibraryError not_found None None),
   State (Client [key_a] (Some key_a) {[key_a]} ∅) 3
     [Print (Processing "../up.pdf");
      Print (ErrorProcessing "../up.pdf"
               ("Error extracting text: " +:+ not_found))]
     None []).
Proof. vm_compute. reflexivity. Qed.

(** A page that fails, in a batch whose temporary folder works: the
    document is reported and the two documents after it are saved. *)
Example failing_page_is_skipped :
  driver_lines
    (trace (process_all_resumes (all_answered "[]") (fun lit => lit)
              "processed_resumes"
              (("a.PDF", Pages [PageText (Some "EDUCATION"); PageError "bad page"])
               :: two_resumes) one_key_client).2) =
  [Processing "a.PDF";
   ErrorProcessing "a.PDF" "Error extracting text: bad page";
   Processing "a.pdf"; Saved "a.json"; Processing "b.pdf"; Saved "b.json"].
Proof. vm_compute. reflexivity. Qed.

Lemma flush_inv st :
  extraction_inv st →
  Forall section_built (flush st) ∧ headed_after_first (flush st).
Proof.
  intros (Hdone & Hhead & Hcur & Hfirst). unfold flush.
  destruct (negb _ || negb _) eqn:Hne; [|auto].
  split.
  - apply Forall_app. split; [exact Hdone|]. constructor; [|constructor].
    split; [exact Hcur|].
    apply orb_true_iff in Hne as [H|H]; apply negb_true_iff in H.
    + left. apply String.eqb_neq. exact H.
    + right. destruct (content (current_section st)); [discriminate|discriminate].
  - unfold headed_after_first in *.
    destruct (done_sections st) as [|d ds] eqn:Hd; [constructor|].
    simpl in *. apply Forall_app. split; [exact Hhead|].
    constructor; [|constructor]. intros H. specialize (Hfirst H). discriminate.
Qed.

Lemma extract_line_inv st line :
  extraction_inv st → extraction_inv (extract_line st line).
Proof.
  intros Hinv. unfold extract_line. cbv zeta.
  destruct (String.eqb (strip line) EmptyString) eqn:Hblank; [exact Hinv|].
  apply String.eqb_neq in Hblank.
  destruct (_is_likely_header (strip line)) eqn:Hh.
  - destruct (flush_inv st Hinv) as [H1 H2]. unfold flush in *.
    unfold extraction_inv. cbn [done_sections current_section heading content].
    split; [exact H1|]. split; [exact H2|]. split.
    + split; [|constructor]. right.
      split; [exact Hblank|]. split; [apply strip_idempotent|exact Hh].
    + intros H. contradiction.
  - destruct Hinv as (Hdone & Hhead & [Hcur1 Hcur2] & Hfirst).
    unfold extraction_inv. cbn [done_sections current_section heading content].
    split; [exact Hdone|]. split; [exact Hhead|]. split; [|exact Hfirst].
    split; [exact Hcur1|]. apply Forall_app. split; [exact Hcur2|].
    constructor; [|constructor].
    split; [exact Hblank|]. split; [apply strip_idempotent|exact Hh].
Qed.

Lemma extract_lines_inv lines : ∀ st,
  extraction_inv st → extraction_inv (fold_left extract_line lines st).
Proof.
  induction lines as [|l lines IH]; intros st Hinv; [exact Hinv|].
  simpl. apply IH. apply extract_line_inv. exact Hinv.
Qed.

Lemma extract_pages_inv pages : ∀ st st',
  extraction_inv st → extract_pages pages st = inl st' → extraction_inv st'.
Proof.
  induction pages as [|p pages IH]; intros st st' Hinv Heq; simpl in Heq.
  - injection Heq as <-. exact Hinv.
  - destruct p as [[t|]|m]; [| |discriminate].
    + destruct (String.eqb t EmptyString).
      * eapply IH; eassumption.
      * eapply IH; [|exact Heq]. apply extract_lines_inv. exact Hinv.
    + eapply IH; eassumption.
Qed.

(** Property X12.  The sections [extract_from_pdf] returns.  No section is empty;
    a heading is a non-blank stripped line that [_is_likely_header]
    accepts, except that the first section may have the empty heading
    (the lines before the first header); and every content line is a
    non-blank stripped line that [_is_likely_header] rejects. *)
Theorem extracted_sections_are_well_formed doc s d s' :
  extract_from_pdf doc s = (Ret d, s') →
  s' = s ∧
  Forall section_built (sections d) ∧
  headed_after_first (sections d).
Proof.
  unfold extract_from_pdf, try_except.
  destruct doc as [msg|pages].
  { unfold_monad. simpl. discriminate. }
  destruct (extract_pages pages _) as [st|msg] eqn:Hp.
  2:{ unfold_monad. simpl. discriminate. }
  unfold_monad. simpl. intros [= <- <-]. split; [reflexivity|].
  cbn [sections]. apply (flush_inv st).
  eapply extract_pages_inv; [|exact Hp].
  unfold extraction_inv. simpl. split; [constructor|]. split; [constructor|].
  split; [|reflexivity]. split; [left; reflexivity|constructor].
Qed.

Lemma extracted_sections_are_well_formed_witness :
  initial_state = initial_state ∧
  Forall section_built
    [Section_ EmptyString ["jane doe"]; Section_ "EDUCATION" ["b.sc. 2010"]] ∧
  headed_after_first
    [Section_ EmptyString ["jane doe"]; Section_ "EDUCATION" ["b.sc. 2010"]].
Proof.
  apply (extracted_sections_are_well_formed
           (Pages [PageText (Some ("jane doe" +:+ String newline
                                   ("EDUCATION" +:+ String newline
                                    " b.sc. 2010 ")))])
           initial_state
           (Extracted ("jane doe" +:+ String newline
                       ("EDUCATION" +:+ String newline "b.sc. 2010"))
                      (Contact [] [] [] [])
                      [Section_ EmptyString ["jane doe"];
                       Section_ "EDUCATION" ["b.sc. 2010"]])
           initial_state).
  vm_compute. reflexivity.
Defined.

Lemma is_char_not_AZ (x c : ascii) :
  is_AZ x = true → is_AZ c = false → is_char x c = false.
Proof.
  unfold is_AZ, between, is_char. intros Hx Hc.
  apply Nat.eqb_neq. intros Heq. rewrite Heq in Hc. congruence.
Qed.

Lemma keyword_prefix_matches kw rest :
  kw ∈ section_keywords →
  run (alts (map lit section_keywords))
      (fun st => Some (Match 0 (pos st) (take (pos st - 0) (drop 0 (kw +:+ rest)))
                             (group1 st)))
      (MState 0 (kw +:+ rest) None) ≠ None.
Proof.
  intros Hkw. unfold section_keywords in Hkw.
  repeat (apply elem_of_cons in Hkw as [->|Hkw]; [vm_compute; discriminate|]).
  by apply elem_of_nil in Hkw.
Qed.

Lemma existsb_header (line : string) (n : nat) pattern :
  nth_error header_patterns n = Some pattern →
  re_match pattern (strip line) ≠ None →
  _is_likely_header line = true.
Proof.
  intros Hn Hm. unfold _is_likely_header. apply existsb_exists.
  exists pattern. split; [eapply nth_error_In; exact Hn|].
  destruct (re_match pattern (strip line)); [reflexivity|congruence].
Qed.

(** Property X13.  A line that, once stripped, starts with one of the ten section
    keywords is a header line whatever follows the keyword. *)
Theorem keyword_line_is_header line kw rest :
  kw ∈ section_keywords → strip line = kw +:+ rest →
  _is_likely_header line = true.
Proof.
  intros Hkw Hs. apply (existsb_header line 1 _ eq_refl).
  rewrite Hs. unfold re_match, match_at. cbn [run]. cbn [pos Nat.eqb drop].
  apply keyword_prefix_matches. exact Hkw.
Qed.

Lemma keyword_line_is_header_witness :
  _is_likely_header "  SKILLS and tools, 2019-2021 " = true.
Proof.
  apply (keyword_line_is_header "  SKILLS and tools, 2019-2021 " "SKILLS"
           " and tools, 2019-2021").
  - unfold section_keywords. apply elem_of_cons. right. apply elem_of_cons.
    right. apply elem_of_cons. left. reflexivity.
  - reflexivity.
Defined.

Lemma strip_head line c t : strip line = String c t → isspace c = false.
Proof.
  unfold strip. destruct (lstrip_head line) as [->|(c' & t' & -> & Hc)].
  - discriminate.
  - cbn [rstrip]. destruct (rstrip t'); [rewrite Hc|]; intros [= <- _]; exact Hc.
Qed.

(** Property X14.  A line whose first non-blank character is not a capital letter
    A-Z, an ampersand or a hyphen (a lower-case letter or a digit for
    one) is never a header line: it is kept as content. *)
Theorem line_not_starting_like_a_header_is_content line c t :
  strip line = String c t →
  is_AZ c = false → is_char "&" c = false → is_char "-" c = false →
  _is_likely_header line = false.
Proof.
  intros Hs HAZ Hamp Hhy. pose proof (strip_head line c t Hs) as Hsp.
  unfold _is_likely_header. rewrite Hs.
  unfold header_patterns. cbn [existsb].
  unfold re_match, match_at. cbn [drop].
  cbn [run plus range times map alts lit chr pos rest Nat.eqb].
  unfold upper_space_amp_hyphen. rewrite HAZ, Hsp, Hamp, Hhy. cbn [orb].
  rewrite !(is_char_not_AZ _ c) by (reflexivity || exact HAZ).
  reflexivity.
Qed.

Lemma line_not_starting_like_a_header_is_content_witness :
  _is_likely_header "  2015-2019 Acme Ltd, engineer" = false.
Proof.
  apply (line_not_starting_like_a_header_is_content
           "  2015-2019 Acme Ltd, engineer" "2" "015-2019 Acme Ltd, engineer");
    reflexivity.
Defined.

(** A greedy repetition of a class over a text all in the class takes the
    whole text when the rest of the pattern accepts the end. *)
Lemma star_class_all {R} (p : ascii → bool) (k : mstate → option R) s :
  ∀ n g, all_chars p s = true →
    k (MState (n + String.length s) EmptyString g) ≠ None →
    run (Star (Class p)) k (MState n s g) =
    k (MState (n + String.length s) EmptyString g).
Proof.
  induction s as [|c s IH]; intros n g Hall Hk.
  - simpl. rewrite Nat.add_0_r. reflexivity.
  - simpl in Hall. apply andb_prop in Hall as [Hc Hall].
    change (run (Star (Class p)) k (MState n (String c s) g))
      with (orelse
              (if p c
               then if (String.length s <? S (String.length s))%nat
                    then run (Star (Class p)) k (MState (S n) s g)
                    else None
               else None)
              (k (MState n (String c s) g))).
    rewrite Hc. replace (String.length s <? S (String.length s)) with true
      by (symmetry; apply Nat.ltb_lt; lia).
    replace (n + String.length (String c s)) with (S n + String.length s) in *
      by (simpl; lia).
    rewrite (IH (S n) g Hall Hk).
    destruct (k (MState (S n + String.length s) EmptyString g)); [reflexivity|].
    congruence.
Qed.

(** Property X15.  A non-blank line made only of capital letters A-Z, white space,
    ampersands and hyphens is a header line. *)
Theorem upper_case_line_is_header line :
  strip line ≠ EmptyString →
  all_chars upper_space_amp_hyphen (strip line) = true →
  _is_likely_header line = true.
Proof.
  intros Hne Hall. apply (existsb_header line 0 _ eq_refl).
  destruct (strip line) as [|c t]; [congruence|].
  simpl in Hall. apply andb_prop in Hall as [Hc Hall].
  unfold re_match, match_at. cbn [drop nth_error header_patterns].
  match goal with |- run _ ?k _ ≠ None =>
    change ((if upper_space_amp_hyphen c
             then run (Star (Class upper_space_amp_hyphen)) (run Eos k)
                    (MState 1 t None)
             else None) ≠ None)
  end.
  rewrite Hc.
  rewrite star_class_all; [|exact Hall|]; cbn [run rest]; discriminate.
Qed.

Lemma upper_case_line_is_header_witness :
  _is_likely_header " WORK & TRAINING - ABROAD " = true.
Proof.
  apply (upper_case_line_is_header " WORK & TRAINING - ABROAD ").
  - vm_compute. discriminate.
  - reflexivity.
Defined.

Lemma star_class_inv {R} (p : ascii → bool) (k : mstate → option R) s :
  ∀ n g r, run (Star (Class p)) k (MState n s g) = Some r →
    ∃ a b, s = a +:+ b ∧ all_chars p a = true ∧
           k (MState (n + String.length a) b g) = Some r.
Proof.
  induction s as [|c s IH]; intros n g r Hrun.
  - exists EmptyString, EmptyString. simpl in *. rewrite Nat.add_0_r. auto.
  - change (run (Star (Class p)) k (MState n (String c s) g))
      with (orelse
              (if p c
               then if (String.length s <? S (String.length s))%nat
                    then run (Star (Class p)) k (MState (S n) s g)
                    else None
               else None)
              (k (MState n (String c s) g))) in Hrun.
    replace (String.length s <? S (String.length s)) with true in Hrun
      by (symmetry; apply Nat.ltb_lt; lia).
    destruct (p c) eqn:Hc.
    + destruct (run (Star (Class p)) k (MState (S n) s g)) as [r'|] eqn:Hrec.
      * simpl in Hrun. injection Hrun as ->.
        destruct (IH (S n) g r Hrec) as (a & b & -> & Ha & Hk).
        exists (String c a), b. simpl. rewrite Hc, Ha.
        replace (n + S (String.length a)) with (S n + String.length a) by lia.
        auto.
      * simpl in Hrun. exists EmptyString, (String c s). simpl.
        rewrite Nat.add_0_r. auto.
    + simpl in Hrun. exists EmptyString, (String c s). simpl.
      rewrite Nat.add_0_r. auto.
Qed.

Lemma times_class {R} (p : ascii → bool) (k : mstate → option R) m :
  ∀ s n g,
    run (times m (Class p)) k (MState n s g) =
    if (m <=? String.length s)%nat && all_chars p (take m s)
    then k (MState (n + m) (drop m s) g) else None.
Proof.
  induction m as [|m IH]; intros s n g.
  - simpl. rewrite Nat.add_0_r. reflexivity.
  - destruct s as [|c s]; [reflexivity|].
    cbn [times run rest pos group1 take drop all_chars String.length].
    destruct (p c); [|rewrite andb_false_r; reflexivity].
    rewrite IH. replace (S n + m) with (n + S m) by lia.
    change (S m <=? S (String.length s)) with (m <=? String.length s).
    reflexivity.
Qed.

Lemma is_char_eq (x c : ascii) : is_char x c = true → c = x.
Proof.
  unfold is_char, code. intros H. apply Nat.eqb_eq in H.
  rewrite <- (ascii_nat_embedding c), <- (ascii_nat_embedding x). congruence.
Qed.

Lemma all_chars_app p a b :
  all_chars p (a +:+ b) = all_chars p a && all_chars p b.
Proof.
  induction a as [|c a IH]; [reflexivity|].
  unfold String.append; fold String.append. simpl. rewrite IH.
  apply andb_assoc.
Qed.

Lemma take_drop_append m s : take m s +:+ drop m s = s.
Proof.
  revert s. induction m as [|m IH]; intros [|c s]; try reflexivity.
  cbn [take drop]. unfold String.append; fold String.append.
  rewrite IH. reflexivity.
Qed.

Lemma length_take m s : (m <= String.length s) → String.length (take m s) = m.
Proof.
  revert s. induction m as [|m IH]; intros [|c s] H; simpl in *; try lia.
  rewrite IH; lia.
Qed.

Lemma length_append a b :
  String.length (a +:+ b) = String.length a + String.length b.
Proof.
  induction a as [|c a IH]; [reflexivity|].
  unfold String.append; fold String.append. simpl. rewrite IH. reflexivity.
Qed.

Lemma string_app_assoc a b c : (a +:+ b) +:+ c = a +:+ (b +:+ c).
Proof.
  induction a as [|x a IH]; [reflexivity|].
  unfold String.append; fold String.append. rewrite IH. reflexivity.
Qed.

(** The last character of a stripped text is not white space. *)
Lemma rstrip_not_newline s a :
  rstrip s ≠ a +:+ String newline EmptyString.
Proof.
  revert a. induction s as [|c s IH]; intros a.
  - simpl. destruct a; discriminate.
  - cbn [rstrip]. destruct (rstrip s) as [|d t] eqn:Hs.
    + destruct (isspace c) eqn:Hc; [destruct a; discriminate|].
      destruct a as [|x a].
      * intros [= ->]. vm_compute in Hc. discriminate.
      * unfold String.append; fold String.append.
        intros [= _ H]. destruct a; discriminate.
    + destruct a as [|x a].
      * discriminate.
      * unfold String.append; fold String.append.
        intros [= _ H]. exact (IH a H).
Qed.

Lemma run_cat {R} r1 r2 (k : mstate → option R) :
  run (Cat r1 r2) k = run r1 (run r2 k).
Proof. reflexivity. Qed.

Lemma run_chr {R} x (k : mstate → option R) n s g :
  run (chr x) k (MState n s g) =
  match s with
  | String c s' => if is_char x c then k (MState (S n) s' g) else None
  | EmptyString => None
  end.
Proof. reflexivity. Qed.

Lemma run_eps {R} (k : mstate → option R) : run Eps k = k.
Proof. reflexivity. Qed.

Lemma run_bos {R} (k : mstate → option R) s g :
  run Bos k (MState 0 s g) = k (MState 0 s g).
Proof. reflexivity. Qed.

(** [re.match] with the key pattern, step by step. *)
Lemma key_pattern_unfold s :
  re_match key_pattern s =
  run (chr "g") (run (chr "s") (run (chr "k") (run (chr "_")
    (run (times 32 (Class key_char))
       (run (Star (Class key_char)) (run Eos (matched s)))))))
    (MState 0 s None).
Proof.
  unfold re_match, match_at, key_pattern, at_least.
  change (fun c => is_AZ c || is_az c || is_09 c) with key_char.
  change (drop 0 s) with s.
  change (lit "gsk_")
    with (Cat (chr "g") (Cat (chr "s") (Cat (chr "k") (Cat (chr "_") Eps)))).
  rewrite !run_cat, run_eps, run_bos. reflexivity.
Qed.

Lemma key_pattern_prefix c1 c2 c3 c4 body :
  let s := String c1 (String c2 (String c3 (String c4 body))) in
  re_match key_pattern s =
  if is_char "g" c1 && is_char "s" c2 && is_char "k" c3 && is_char "_" c4
  then run (times 32 (Class key_char))
           (run (Star (Class key_char)) (run Eos (matched s)))
           (MState 4 body None)
  else None.
Proof.
  cbv zeta. rewrite key_pattern_unfold. rewrite run_chr.
  destruct (is_char "g" c1); [|reflexivity]. rewrite run_chr.
  destruct (is_char "s" c2); [|reflexivity]. rewrite run_chr.
  destruct (is_char "k" c3); [|reflexivity]. rewrite run_chr.
  destruct (is_char "_" c4); cbn [andb]; reflexivity.
Qed.

Lemma key_pattern_short s :
  String.length s < 4 → re_match key_pattern s = None.
Proof.
  intros H. rewrite key_pattern_unfold.
  destruct s as [|c1 [|c2 [|c3 [|c4 s]]]]; simpl in H; try lia;
    repeat (rewrite run_chr;
            try match goal with |- context [is_char ?x ?c] =>
                  destruct (is_char x c) end;
            try reflexivity).
Qed.

Lemma eos_inv {R} (k : mstate → option R) n b g r :
  run Eos k (MState n b g) = Some r →
  b = EmptyString ∨ b = String newline EmptyString.
Proof.
  cbn [run rest]. destruct b as [|c [|d b]]; auto.
  - destruct (is_char newline c) eqn:Hc; [|discriminate].
    intros _. right. rewrite (is_char_eq _ _ Hc). reflexivity.
  - discriminate.
Qed.

(** Property X16.  The format test of a key.  A text passes
    [_is_valid_key_format] exactly when, stripped of surrounding white
    space, it is [gsk_] followed by at least 32 characters, all of them
    ASCII letters or digits. *)
Theorem key_format_characterised key :
  _is_valid_key_format key = true ↔
  ∃ body, strip key = "gsk_" +:+ body ∧
          32 ≤ String.length body ∧ all_chars key_char body = true.
Proof.
  unfold _is_valid_key_format.
  destruct (String.eqb key EmptyString) eqn:Hk.
  { apply String.eqb_eq in Hk. subst key. split; [discriminate|].
    intros (body & H & _). discriminate. }
  cbv zeta.
  destruct (strip key) as [|c1 [|c2 [|c3 [|c4 body]]]] eqn:Hs;
    try (rewrite key_pattern_short by (simpl; lia);
         split; [discriminate|]; intros (b & H & _); discriminate).
  pose proof (key_pattern_prefix c1 c2 c3 c4 body) as Hp. cbv zeta in Hp.
  rewrite Hp. clear Hp. rewrite times_class.
  split.
  - destruct (is_char "g" c1) eqn:H1; [|discriminate].
    destruct (is_char "s" c2) eqn:H2; [|discriminate].
    destruct (is_char "k" c3) eqn:H3; [|discriminate].
    destruct (is_char "_" c4) eqn:H4; [|discriminate].
    apply is_char_eq in H1, H2, H3, H4. subst c1 c2 c3 c4. cbn [andb].
    destruct (32 <=? String.length body) eqn:Hlen; [|discriminate].
    destruct (all_chars key_char (take 32 body)) eqn:Hall; [|discriminate].
    cbn [andb]. apply Nat.leb_le in Hlen.
    destruct (run (Star (Class key_char)) _ _) as [r|] eqn:Hrun; [|discriminate].
    intros _.
    apply star_class_inv in Hrun as (a & b & Hd & Ha & He).
    apply eos_inv in He as [->| ->].
    + exists body. split; [reflexivity|]. split; [exact Hlen|].
      rewrite <- (take_drop_append 32 body), Hd, !all_chars_app, Hall, Ha.
      reflexivity.
    + exfalso. unfold strip in Hs.
      apply (rstrip_not_newline (lstrip key)
               ("gsk_" +:+ (take 32 body +:+ a))).
      rewrite Hs. rewrite <- (take_drop_append 32 body) at 1. rewrite Hd.
      rewrite !string_app_assoc. reflexivity.
  - intros (b & [= -> -> -> -> ->] & Hlen & Hall).
    change (EmptyString +:+ b) with b in *.
    change (is_char "g" "g" && is_char "s" "s" && is_char "k" "k"
            && is_char "_" "_") with true. cbv iota.
    replace (32 <=? String.length b) with true
      by (symmetry; apply Nat.leb_le; exact Hlen).
    rewrite <- (take_drop_append 32 b), all_chars_app in Hall.
    apply andb_prop in Hall as [Ht Hd].
    rewrite Ht. cbn [andb].
    rewrite star_class_all; [reflexivity|exact Hd|].
    cbn [run rest]. discriminate.
Qed.

Lemma insert_rows_fold current_time rows0 db :
  insert_rows current_time rows0 db =
  fold_left (insert_step current_time) rows0 (0, db).
Proof. reflexivity. Qed.

Lemma unique_violation_false db e m :
  unique_violation db e m = false →
  (e ∉ map emails (resumes db)) ∧ (m ∉ map mobile (resumes db)).
Proof.
  unfold unique_violation. intros H.
  assert (Hall : ∀ r, r ∈ resumes db → emails r ≠ e ∧ mobile r ≠ m).
  { intros r Hr.
    destruct (String.eqb (emails r) e) eqn:He.
    - exfalso. rewrite <- not_true_iff_false in H. apply H.
      apply existsb_exists. exists r. split; [apply list_elem_of_In; exact Hr|].
      rewrite He. reflexivity.
    - destruct (String.eqb (mobile r) m) eqn:Hm.
      + exfalso. rewrite <- not_true_iff_false in H. apply H.
        apply existsb_exists. exists r.
        split; [apply list_elem_of_In; exact Hr|]. rewrite He, Hm. reflexivity.
      + split; apply String.eqb_neq; assumption. }
  split; intros Hin; apply list_elem_of_fmap in Hin as (r & -> & Hr);
    destruct (Hall r Hr); congruence.
Qed.

Lemma execute_insert_ok row current_time db db' :
  table_ok db → execute_insert row current_time db = Some db' → table_ok db'.
Proof.
  intros (He & Hm & Hi & Hle). unfold execute_insert.
  destruct (unique_violation db _ _) eqn:Hv; [discriminate|].
  intros [= <-]. apply unique_violation_false in Hv as [Hve Hvm].
  unfold table_ok. cbn [resumes sqlite_sequence].
  rewrite !map_app. cbn [map emails mobile id].
  split; [|split; [|split]].
  - apply NoDup_app. split; [exact He|]. split; [|apply NoDup_singleton].
    intros x Hx Hx'. apply list_elem_of_singleton in Hx'. subst x. auto.
  - apply NoDup_app. split; [exact Hm|]. split; [|apply NoDup_singleton].
    intros x Hx Hx'. apply list_elem_of_singleton in Hx'. subst x. auto.
  - apply NoDup_app. split; [exact Hi|]. split; [|apply NoDup_singleton].
    intros x Hx Hx'. apply list_elem_of_singleton in Hx'. subst x.
    apply list_elem_of_fmap in Hx as (r & Hr & Hin).
    specialize (Hle r Hin). lia.
  - intros r Hr. apply elem_of_app in Hr as [Hr|Hr].
    + specialize (Hle r Hr). lia.
    + apply list_elem_of_singleton in Hr. subst r. simpl. lia.
Qed.

Lemma insert_fold_ok current_time rows0 : ∀ acc,
  table_ok (snd acc) →
  table_ok (snd (fold_left (insert_step current_time) rows0 acc)).
Proof.
  induction rows0 as [|row rows0 IH]; intros acc Hok; [exact Hok|].
  simpl. apply IH. unfold insert_step.
  destruct (execute_insert row current_time (snd acc)) as [db'|] eqn:He.
  - simpl. eapply execute_insert_ok; eassumption.
  - exact Hok.
Qed.

(** Property X17.  [insert_to_db] keeps the constraints of the table: if no two
    stored rows share an email, a mobile or an id and the counter of
    AUTOINCREMENT is at or above every id, the same holds after the call,
    whatever the frame. *)
Theorem insert_to_db_keeps_table_constraints current_time df db :
  table_ok db → table_ok (insert_to_db current_time df db).2.
Proof.
  intros Hok. rewrite insert_to_db_unfold. cbn [snd].
  rewrite insert_rows_fold. apply (insert_fold_ok _ _ (0, db)). exact Hok.
Qed.

Lemma init_db_ok : table_ok (init_db None).
Proof.
  unfold table_ok. simpl. repeat split; try constructor.
  intros r Hr. by apply elem_of_nil in Hr.
Defined.

Lemma insert_to_db_keeps_table_constraints_witness :
  table_ok (insert_to_db "2024-01-01 00:00:00" same_email (init_db None)).2.
Proof.
  apply (insert_to_db_keeps_table_constraints "2024-01-01 00:00:00" same_email
           (init_db None)).
  exact init_db_ok.
Defined.

Lemma unique_violation_grows db db' e m new :
  resumes db' = resumes db ++ new →
  unique_violation db e m = true → unique_violation db' e m = true.
Proof.
  unfold unique_violation. intros -> H. rewrite existsb_app, H. reflexivity.
Qed.

Lemma insert_step_grows current_time acc row :
  ∃ new, resumes (snd (insert_step current_time acc row)) =
         resumes (snd acc) ++ new.
Proof.
  unfold insert_step, execute_insert.
  destruct (unique_violation (snd acc) _ _).
  - exists []. rewrite app_nil_r. reflexivity.
  - eexists. reflexivity.
Qed.

Lemma insert_fold_grows current_time rows0 : ∀ acc,
  ∃ new, resumes (snd (fold_left (insert_step current_time) rows0 acc)) =
         resumes (snd acc) ++ new.
Proof.
  induction rows0 as [|row rows0 IH]; intros acc.
  - exists []. rewrite app_nil_r. reflexivity.
  - simpl. destruct (IH (insert_step current_time acc row)) as (new & H).
    destruct (insert_step_grows current_time acc row) as (new0 & H0).
    exists (new0 ++ new). rewrite H, H0, app_assoc. reflexivity.
Qed.

(** After the step for a row, the row conflicts with the table: it did
    before, or it has just been stored. *)
Lemma insert_step_conflicts current_time acc row :
  unique_violation (snd (insert_step current_time acc row))
    (text row "emails") (text row "mobile") = true.
Proof.
  unfold insert_step, execute_insert.
  destruct (unique_violation (snd acc) _ _) eqn:Hv; [exact Hv|].
  cbn [snd]. destruct (snd acc) as [rs seq].
  rewrite (unique_violation_app _ _ _ seq). cbn [emails mobile].
  rewrite String.eqb_refl. cbn [orb]. apply orb_true_r.
Qed.

Lemma insert_fold_conflicts current_time rows0 : ∀ acc row,
  row ∈ rows0 →
  unique_violation (snd (fold_left (insert_step current_time) rows0 acc))
    (text row "emails") (text row "mobile") = true.
Proof.
  induction rows0 as [|r rows0 IH]; intros acc row Hin.
  - by apply elem_of_nil in Hin.
  - simpl. apply elem_of_cons in Hin as [->|Hin]; [|apply IH; exact Hin].
    destruct (insert_fold_grows current_time rows0
                (insert_step current_time acc r)) as (new & Hnew).
    eapply unique_violation_grows; [exact Hnew|].
    apply insert_step_conflicts.
Qed.

Lemma insert_fold_all_conflict current_time rows0 : ∀ acc,
  (∀ row, row ∈ rows0 →
     unique_violation (snd acc) (text row "emails") (text row "mobile") = true) →
  fold_left (insert_step current_time) rows0 acc = acc.
Proof.
  induction rows0 as [|r rows0 IH]; intros acc Hall; [reflexivity|].
  simpl.
  assert (Hstep : insert_step current_time acc r = acc).
  { unfold insert_step, execute_insert.
    rewrite (Hall r) by (apply elem_of_cons; auto). reflexivity. }
  rewrite Hstep. apply IH. intros row Hrow. apply Hall.
  apply elem_of_cons. auto.
Qed.

(** Property X18.  Inserting the same frame a second time inserts nothing: every
    record of the frame was stored by the first call or conflicted with a
    stored row, so the second call returns (0, total) and leaves the
    database as the first call left it, whatever the times of the calls. *)
Theorem insert_to_db_twice_inserts_nothing current_time later df db :
  insert_to_db later df (insert_to_db current_time df db).2 =
  ((0, length (rows df)), (insert_to_db current_time df db).2).
Proof.
  rewrite (insert_to_db_unfold later), (insert_to_db_unfold current_time).
  cbn [snd]. rewrite !insert_rows_fold.
  set (rows0 := map renamed (rows (process_and_normalize_df df))).
  set (db1 := snd (fold_left (insert_step current_time) rows0 (0, db))).
  rewrite (insert_fold_all_conflict later rows0 (0, db1)).
  - cbn [fst snd]. rewrite process_and_normalize_df_rows. cbn [rows].
    rewrite length_map. reflexivity.
  - intros row Hrow. cbn [snd]. subst db1.
    apply insert_fold_conflicts. exact Hrow.
Qed.

Lemma insert_fold_distinct current_time df (xs : list (list (string * pyval))) :
  ∀ n db,
    NoDup (map (fun x => text (normalized_row df x) "Emails") xs) →
    NoDup (map (fun x => text (normalized_row df x) "Mobile") xs) →
    (∀ x, x ∈ xs →
       unique_violation db (text (normalized_row df x) "Emails")
                           (text (normalized_row df x) "Mobile") = false) →
    fold_left (insert_step current_time)
              (map renamed (map (normalized_row df) xs)) (n, db) =
    (n + length xs,
     Database (resumes db ++
               stored_from (sqlite_sequence db + 1)%Z current_time
                           (map (normalized_row df) xs))
              (sqlite_sequence db + Z.of_nat (length xs))%Z).
Proof.
  induction xs as [|x xs IH]; intros n db He Hm Hnew.
  - simpl. rewrite app_nil_r, Nat.add_0_r, Z.add_0_r. destruct db. reflexivity.
  - cbn [map fold_left]. unfold insert_step at 2. cbn [snd fst].
    pose proof (execute_insert_normalized
                  (fill_row (fun c => mem c (columns df)) required_columns
                            (normalize_row (columns df) x))
                  current_time db) as Hx.
    fold (normalized_row df x) in Hx. rewrite Hx. clear Hx.
    rewrite (Hnew x) by (apply elem_of_cons; auto).
    cbn [map] in He, Hm. apply NoDup_cons in He as [He1 He], Hm as [Hm1 Hm].
    rewrite IH; [| exact He | exact Hm |].
    + cbn [resumes sqlite_sequence length stored_from map].
      rewrite <- app_assoc. cbn [app]. f_equal; [lia|]. f_equal. lia.
    + intros y Hy. destruct db as [rs seq]. cbn [resumes sqlite_sequence] in *.
      rewrite (unique_violation_app _ _ _ seq).
      rewrite (Hnew y) by (apply elem_of_cons; auto). cbn [orb emails mobile stored].
      apply orb_false_iff. split; apply String.eqb_neq; intros Heq.
      * apply He1. rewrite Heq. apply list_elem_of_fmap. exists y. auto.
      * apply Hm1. rewrite Heq. apply list_elem_of_fmap. exists y. auto.
Qed.

(** Property X19.  When the normalized records of a frame have pairwise different
    emails and pairwise different mobiles and none conflicts with a stored
    row, [insert_to_db] stores all of them, in order, after the rows that
    were there: it returns (N, N), the new rows get the next N ids and the
    time of the call as [created_at]. *)
Theorem insert_to_db_stores_distinct_records current_time df db :
  NoDup (map (fun r => text r "Emails") (rows (process_and_normalize_df df))) →
  NoDup (map (fun r => text r "Mobile") (rows (process_and_normalize_df df))) →
  (∀ r, r ∈ rows (process_and_normalize_df df) →
        unique_violation db (text r "Emails") (text r "Mobile") = false) →
  insert_to_db current_time df db =
  ((length (rows df), length (rows df)),
   Database (resumes db ++
             stored_from (sqlite_sequence db + 1)%Z current_time
                         (rows (process_and_normalize_df df)))
            (sqlite_sequence db + Z.of_nat (length (rows df)))%Z).
Proof.
  rewrite insert_to_db_unfold, insert_rows_fold.
  rewrite process_and_normalize_df_rows. cbn [rows].
  rewrite !map_map, length_map. intros He Hm Hnew.
  rewrite <- (map_map (normalized_row df) renamed).
  rewrite (insert_fold_distinct current_time df (rows df) 0 db He Hm).
  - reflexivity.
  - intros x Hx. apply Hnew. apply list_elem_of_fmap. exists x. auto.
Qed.

Lemma insert_to_db_stores_distinct_records_witness :
  insert_to_db "2024-01-01 00:00:00" two_candidates (init_db None) =
  ((2, 2),
   Database [stored 1 "2024-01-01 00:00:00" (candidate "A" "a@x.org" "017");
             stored 2 "2024-01-01 00:00:00" (candidate "B" "b@x.org" "018")]
            2).
Proof.
  apply (insert_to_db_stores_distinct_records "2024-01-01 00:00:00"
           two_candidates (init_db None)).
  - vm_compute. repeat constructor; intros H;
      repeat (apply elem_of_cons in H as [H|H]; [discriminate H|]);
      by apply elem_of_nil in H.
  - vm_compute. repeat constructor; intros H;
      repeat (apply elem_of_cons in H as [H|H]; [discriminate H|]);
      by apply elem_of_nil in H.
  - intros r Hr. reflexivity.
Defined.

Lemma reindex_ext cols r1 r2 :
  (∀ c, c ∈ cols → cell c r1 = cell c r2) → reindex cols r1 = reindex cols r2.
Proof.
  intros H. unfold reindex. apply map_ext_in. intros c Hc.
  rewrite (H c) by (apply list_elem_of_In; exact Hc). reflexivity.
Qed.

Lemma reindex_idempotent cols r : reindex cols (reindex cols r) = reindex cols r.
Proof. apply reindex_ext. intros c Hc. apply cell_reindex. exact Hc. Qed.

Lemma cell_normalized_row df r col :
  col ∈ required_columns →
  cell col (normalized_row df r) =
  PStr (if mem col (columns df) then normalize_data (cell col r)
        else EmptyString).
Proof.
  intros Hin. unfold cell at 1. rewrite normalized_row_cell by exact Hin.
  reflexivity.
Qed.

Lemma normalized_row_again df df' r :
  columns df' = required_columns →
  normalized_row df' (normalized_row df r) = normalized_row df r.
Proof.
  intros Hcols.
  assert (Hcell : ∀ c, c ∈ required_columns →
            ∃ t, cell c (normalized_row df r) = PStr t).
  { intros c Hc. rewrite cell_normalized_row by exact Hc. eauto. }
  assert (Hre : reindex required_columns (normalized_row df r) =
                normalized_row df r).
  { unfold normalized_row. apply reindex_idempotent. }
  set (x := normalized_row df r) in *. clearbody x.
  unfold normalized_row. rewrite Hcols. rewrite <- Hre at 2.
  apply reindex_ext. intros c Hc.
  rewrite cell_fill_row, cell_normalize_row.
  apply mem_true_iff in Hc as Hm. rewrite Hm. cbn [negb andb].
  destruct (Hcell c Hc) as (t & ->). reflexivity.
Qed.

(** Property X20.  [process_and_normalize_df] is idempotent: a frame that has been
    normalized is left as it is by a second normalization (its cells are
    strings already and its columns are the twelve required ones). *)
Theorem process_and_normalize_df_idempotent df :
  process_and_normalize_df (process_and_normalize_df df) =
  process_and_normalize_df df.
Proof.
  rewrite (process_and_normalize_df_rows (process_and_normalize_df df)).
  rewrite (process_and_normalize_df_rows df) at 2 3.
  cbn [rows]. rewrite map_map. f_equal.
  apply map_ext. intros r. apply normalized_row_again.
  rewrite process_and_normalize_df_rows. reflexivity.
Qed.
